(** * Word Constellations: the simulation core of [script.js]

    A shallow embedding of the per-frame simulation of [script.js] (node
    construction, the pairwise force pass, the orbital motion pass, trail
    bookkeeping, link rebuilding, the frame driver and the form handler)
    and of what it draws, followed by the properties of the specification
    that concern it.

    Numbers.  A JavaScript Number is modelled as a real number: [+], [-],
    [*], [/], [Math.sqrt], [Math.sin], [Math.cos], [Math.floor] and
    [Math.hypot] are the exact operations on [R], and [<], [>] are the
    order of [R] (decided by [Rlt_dec]/[Rgt_dec]).  Rounding, overflow and
    signed zeros of IEEE doubles are not modelled.  The one place where the
    program leaves the numbers is kept: a property that was never assigned
    reads as [undefined], and arithmetic on it yields [NaN] (see
    [JS.value]).  Where a property turns on rounding or overflow, the
    function is given on doubles as well (see [Double]).

    The host.  [Math.random()] and [performance.now()] are the only inputs
    of the core besides events.  They are modelled as two streams supplied
    by a [Host]; the [World] counts how many values of each stream have been
    consumed, so that every call in the source consumes one value, in source
    order.

    Drawing.  [drawBackground], [drawLinks] and [drawNodes] are modelled by
    the commands they send to the 2D context, in order.  The calls of the
    context's methods are taken to return; what can end a drawing function
    early is the program's own reading of a property of an object that is
    not there. *)

From stdpp Require Import base list.
From Stdlib Require Import Reals Lra Lia ZArith Sorted.
From Stdlib Require Floats.

(** ** JavaScript values used by the program *)

Module JS.

(** The value read from a numeric property.  [undefined] is what a
    property reads as before its first assignment. *)
Inductive value : Type :=
| undefined
| NaN
| num (r : R).

(** [v += r] and [v -= r] for a number [r]: [ToNumber(undefined)] is
    [NaN], and [NaN] is absorbing. *)
Definition add_assign (v : value) (r : R) : value :=
  match v with
  | num a => num (a + r)
  | _ => NaN
  end.

Definition sub_assign (v : value) (r : R) : value :=
  match v with
  | num a => num (a - r)
  | _ => NaN
  end.

(** [v * r] *)
Definition times (v : value) (r : R) : value :=
  match v with
  | num a => num (a * r)
  | _ => NaN
  end.

(** Strings are sequences of UTF-16 code units. *)
Definition string := list N.

(** ECMAScript WhiteSpace and LineTerminator code points, the characters
    removed by [String.prototype.trim]. *)
Definition isWhiteSpace (c : N) : bool :=
  ((c =? 9) || (c =? 10) || (c =? 11) || (c =? 12) || (c =? 13)
   || (c =? 32) || (c =? 160) || (c =? 5760)
   || ((8192 <=? c) && (c <=? 8202))
   || (c =? 8232) || (c =? 8233) || (c =? 8239) || (c =? 8287)
   || (c =? 12288) || (c =? 65279))%N.

Fixpoint trimStart (s : string) : string :=
  match s with
  | [] => []
  | c :: s' => if isWhiteSpace c then trimStart s' else s
  end.

Definition trimEnd (s : string) : string := rev (trimStart (rev s)).

Definition trim (s : string) : string := trimEnd (trimStart s).

(** Truthiness of a string, and [s || t] on strings. *)
Definition truthy (s : string) : bool :=
  match s with [] => false | _ => true end.

Definition or (s t : string) : string := if truthy s then s else t.

End JS.

(** ** [Math] *)

Module Math.

Definition PI : R := Rtrigo1.PI.
Definition sin (a : R) : R := Rtrigo_def.sin a.
Definition cos (a : R) : R := Rtrigo_def.cos a.
Definition sqrt (a : R) : R := R_sqrt.sqrt a.
Definition hypot (a b : R) : R := R_sqrt.sqrt (a * a + b * b).
Definition floor (a : R) : R := IZR (Int_part a).
Definition max (a b : R) : R := Rmax a b.
Definition min (a b : R) : R := Rmin a b.

End Math.

(** ** Data model *)

(** One entry of a node's trail: [{ x, y, t }]. *)
Module Sample.
Record point := mk { x : R; y : R; t : R }.
End Sample.

(** [class Node].  The constructor assigns every field down to
    [secondaryPhase]; [vx] and [vy] are only ever assigned by [step]. *)
Module Node.
Record t := mk {
  text : JS.string;
  x : R;
  y : R;
  mass : R;
  radius : R;
  hue : R;
  trail : list Sample.point;
  angle : R;
  angularVel : R;
  turbulencePhase : R;
  inConstellation : bool;
  orbitCenterX : R;
  orbitCenterY : R;
  orbitRadius : R;
  orbitSpeed : R;
  orbitDirection : R;
  orbitPhase : R;
  secondaryCenterX : R;
  secondaryCenterY : R;
  secondaryRadius : R;
  secondarySpeed : R;
  secondaryDirection : R;
  secondaryPhase : R;
  vx : JS.value;
  vy : JS.value
}.

Definition set_x (v : R) (n : t) : t :=
  mk (text n) v (y n) (mass n) (radius n) (hue n) (trail n) (angle n)
    (angularVel n) (turbulencePhase n) (inConstellation n)
    (orbitCenterX n) (orbitCenterY n) (orbitRadius n) (orbitSpeed n)
    (orbitDirection n) (orbitPhase n) (secondaryCenterX n)
    (secondaryCenterY n) (secondaryRadius n) (secondarySpeed n)
    (secondaryDirection n) (secondaryPhase n) (vx n) (vy n).

Definition set_y (v : R) (n : t) : t :=
  mk (text n) (x n) v (mass n) (radius n) (hue n) (trail n) (angle n)
    (angularVel n) (turbulencePhase n) (inConstellation n)
    (orbitCenterX n) (orbitCenterY n) (orbitRadius n) (orbitSpeed n)
    (orbitDirection n) (orbitPhase n) (secondaryCenterX n)
    (secondaryCenterY n) (secondaryRadius n) (secondarySpeed n)
    (secondaryDirection n) (secondaryPhase n) (vx n) (vy n).

Definition set_trail (v : list Sample.point) (n : t) : t :=
  mk (text n) (x n) (y n) (mass n) (radius n) (hue n) v (angle n)
    (angularVel n) (turbulencePhase n) (inConstellation n)
    (orbitCenterX n) (orbitCenterY n) (orbitRadius n) (orbitSpeed n)
    (orbitDirection n) (orbitPhase n) (secondaryCenterX n)
    (secondaryCenterY n) (secondaryRadius n) (secondarySpeed n)
    (secondaryDirection n) (secondaryPhase n) (vx n) (vy n).

Definition set_angle (v : R) (n : t) : t :=
  mk (text n) (x n) (y n) (mass n) (radius n) (hue n) (trail n) v
    (angularVel n) (turbulencePhase n) (inConstellation n)
    (orbitCenterX n) (orbitCenterY n) (orbitRadius n) (orbitSpeed n)
    (orbitDirection n) (orbitPhase n) (secondaryCenterX n)
    (secondaryCenterY n) (secondaryRadius n) (secondarySpeed n)
    (secondaryDirection n) (secondaryPhase n) (vx n) (vy n).

Definition set_angularVel (v : R) (n : t) : t :=
  mk (text n) (x n) (y n) (mass n) (radius n) (hue n) (trail n) (angle n)
    v (turbulencePhase n) (inConstellation n) (orbitCenterX n)
    (orbitCenterY n) (orbitRadius n) (orbitSpeed n) (orbitDirection n)
    (orbitPhase n) (secondaryCenterX n) (secondaryCenterY n)
    (secondaryRadius n) (secondarySpeed n) (secondaryDirection n)
    (secondaryPhase n) (vx n) (vy n).

Definition set_inConstellation (v : bool) (n : t) : t :=
  mk (text n) (x n) (y n) (mass n) (radius n) (hue n) (trail n) (angle n)
    (angularVel n) (turbulencePhase n) v (orbitCenterX n) (orbitCenterY n)
    (orbitRadius n) (orbitSpeed n) (orbitDirection n) (orbitPhase n)
    (secondaryCenterX n) (secondaryCenterY n) (secondaryRadius n)
    (secondarySpeed n) (secondaryDirection n) (secondaryPhase n) (vx n)
    (vy n).

Definition set_orbitCenterX (v : R) (n : t) : t :=
  mk (text n) (x n) (y n) (mass n) (radius n) (hue n) (trail n) (angle n)
    (angularVel n) (turbulencePhase n) (inConstellation n) v
    (orbitCenterY n) (orbitRadius n) (orbitSpeed n) (orbitDirection n)
    (orbitPhase n) (secondaryCenterX n) (secondaryCenterY n)
    (secondaryRadius n) (secondarySpeed n) (secondaryDirection n)
    (secondaryPhase n) (vx n) (vy n).

Definition set_orbitCenterY (v : R) (n : t) : t :=
  mk (text n) (x n) (y n) (mass n) (radius n) (hue n) (trail n) (angle n)
    (angularVel n) (turbulencePhase n) (inConstellation n)
    (orbitCenterX n) v (orbitRadius n) (orbitSpeed n) (orbitDirection n)
    (orbitPhase n) (secondaryCenterX n) (secondaryCenterY n)
    (secondaryRadius n) (secondarySpeed n) (secondaryDirection n)
    (secondaryPhase n) (vx n) (vy n).

Definition set_orbitPhase (v : R) (n : t) : t :=
  mk (text n) (x n) (y n) (mass n) (radius n) (hue n) (trail n) (angle n)
    (angularVel n) (turbulencePhase n) (inConstellation n)
    (orbitCenterX n) (orbitCenterY n) (orbitRadius n) (orbitSpeed n)
    (orbitDirection n) v (secondaryCenterX n) (secondaryCenterY n)
    (secondaryRadius n) (secondarySpeed n) (secondaryDirection n)
    (secondaryPhase n) (vx n) (vy n).

Definition set_secondaryCenterX (v : R) (n : t) : t :=
  mk (text n) (x n) (y n) (mass n) (radius n) (hue n) (trail n) (angle n)
    (angularVel n) (turbulencePhase n) (inConstellation n)
    (orbitCenterX n) (orbitCenterY n) (orbitRadius n) (orbitSpeed n)
    (orbitDirection n) (orbitPhase n) v (secondaryCenterY n)
    (secondaryRadius n) (secondarySpeed n) (secondaryDirection n)
    (secondaryPhase n) (vx n) (vy n).

Definition set_secondaryCenterY (v : R) (n : t) : t :=
  mk (text n) (x n) (y n) (mass n) (radius n) (hue n) (trail n) (angle n)
    (angularVel n) (turbulencePhase n) (inConstellation n)
    (orbitCenterX n) (orbitCenterY n) (orbitRadius n) (orbitSpeed n)
    (orbitDirection n) (orbitPhase n) (secondaryCenterX n) v
    (secondaryRadius n) (secondarySpeed n) (secondaryDirection n)
    (secondaryPhase n) (vx n) (vy n).

Definition set_secondaryPhase (v : R) (n : t) : t :=
  mk (text n) (x n) (y n) (mass n) (radius n) (hue n) (trail n) (angle n)
    (angularVel n) (turbulencePhase n) (inConstellation n)
    (orbitCenterX n) (orbitCenterY n) (orbitRadius n) (orbitSpeed n)
    (orbitDirection n) (orbitPhase n) (secondaryCenterX n)
    (secondaryCenterY n) (secondaryRadius n) (secondarySpeed n)
    (secondaryDirection n) v (vx n) (vy n).

Definition set_vx (v : JS.value) (n : t) : t :=
  mk (text n) (x n) (y n) (mass n) (radius n) (hue n) (trail n) (angle n)
    (angularVel n) (turbulencePhase n) (inConstellation n)
    (orbitCenterX n) (orbitCenterY n) (orbitRadius n) (orbitSpeed n)
    (orbitDirection n) (orbitPhase n) (secondaryCenterX n)
    (secondaryCenterY n) (secondaryRadius n) (secondarySpeed n)
    (secondaryDirection n) (secondaryPhase n) v (vy n).

Definition set_vy (v : JS.value) (n : t) : t :=
  mk (text n) (x n) (y n) (mass n) (radius n) (hue n) (trail n) (angle n)
    (angularVel n) (turbulencePhase n) (inConstellation n)
    (orbitCenterX n) (orbitCenterY n) (orbitRadius n) (orbitSpeed n)
    (orbitDirection n) (orbitPhase n) (secondaryCenterX n)
    (secondaryCenterY n) (secondaryRadius n) (secondarySpeed n)
    (secondaryDirection n) (secondaryPhase n) (vx n) v.

End Node.

(** A link record [{ i, j, d }]. *)
Module Link.
Record t := mk { i : nat; j : nat; d : R }.
End Link.

(** The global [STATE]. *)
Module STATE.
Record t := mk {
  width : R;
  height : R;
  nodes : list Node.t;
  links : list Link.t;
  lastTime : R;
  noiseSeed : R
}.

Definition set_size (w h : R) (s : t) : t :=
  mk w h (nodes s) (links s) (lastTime s) (noiseSeed s).
Definition set_nodes (v : list Node.t) (s : t) : t :=
  mk (width s) (height s) v (links s) (lastTime s) (noiseSeed s).
Definition set_links (v : list Link.t) (s : t) : t :=
  mk (width s) (height s) (nodes s) v (lastTime s) (noiseSeed s).
Definition set_lastTime (v : R) (s : t) : t :=
  mk (width s) (height s) (nodes s) (links s) v (noiseSeed s).
End STATE.

(** [const PHYS = { ... }] *)
Module PHYS.
Local Open Scope R_scope.
Definition globalDrag : R := 0.98.
Definition softAttract : R := 2.0e-2.
Definition minLinkDistance : R := 48.
Definition maxLinkDistance : R := 320.
Definition curveBend : R := 0.16.
Definition trailKeep : nat := 40.
Definition trailFade : R := 0.06.
Definition orbitFreq : R := 0.6.
Definition orbitAmp : R := 6.
Definition noiseStrength : R := 0.3.
Definition turbulenceFreq : R := 0.003.
Definition repulsionStrength : R := 5.0e-2.
Definition repulsionDistance : R := 24.
Definition angularVelocity : R := 0.02.
Definition constellationDistance : R := 120.
Definition orbitDrift : R := 0.1.
Definition centerDrift : R := 0.05.
End PHYS.

(** ** The host: randomness and the clock *)

(** [random_at k] is the value returned by the [k]-th call of
    [Math.random()], [now_at k] the value returned by the [k]-th call of
    [performance.now()]. *)
Record Host := mkHost {
  random_at : nat -> R;
  now_at : nat -> R
}.

(** How many values of each stream have been consumed. *)
Record World := mkWorld {
  randoms : nat;
  nows : nat
}.

(** Computations that call the host. *)
Definition M (A : Type) : Type := World -> A * World.

Definition ret {A} (a : A) : M A := fun w => (a, w).

Definition bind {A B} (m : M A) (k : A -> M B) : M B :=
  fun w => let (a, w') := m w in k a w'.

Notation "'let*' x ':=' m 'in' k" := (bind m (fun x => k))
  (at level 10, x name, m at level 100, k at level 200).

(** [for (const n of l) f(n)], each [f(n)] replacing [n]. *)
Fixpoint forEach {A} (f : A -> M A) (l : list A) : M (list A) :=
  match l with
  | [] => ret []
  | a :: l' =>
      let* a' := f a in
      let* l'' := forEach f l' in
      ret (a' :: l'')
  end.

Section Core.

Variable host : Host.

Local Open Scope R_scope.

Definition Math_random : M R :=
  fun w => (random_at host (randoms w), mkWorld (S (randoms w)) (nows w)).

Definition performance_now : M R :=
  fun w => (now_at host (nows w), mkWorld (randoms w) (S (nows w))).

(** *** Utilities *)

Definition rand (a b : R) : M R :=
  let* u := Math_random in
  ret (a + u * (b - a)).

Definition clamp (v a b : R) : R := Math.max a (Math.min b v).

(** [noise2], reading [STATE.noiseSeed]. *)
Definition noise2 (s : STATE.t) (x y : R) : R :=
  let s := Math.sin (x * 12.9898 + y * 78.233 + STATE.noiseSeed s) * 43758.5453 in
  s - Math.floor s.

(** *** Node construction *)

(** [rand(-1, 1) > 0 ? 1 : -1] *)
Definition randomDirection : M R :=
  let* r := rand (-1) 1 in
  ret (if Rgt_dec r 0 then 1 else -1).

(** [new Node(text, x, y)].  The calls of [rand] are in source order. *)
Definition newNode (text : JS.string) (x y : R) : M Node.t :=
  let* mass := rand 0.6 1.6 in
  let radius := 8 + mass * 3.5 in
  let* hue := rand 215 235 in
  let trail := [] in
  let* angle := rand 0 (Math.PI * 2) in
  let* angularVel := rand 0.02 0.08 in
  let* turbulencePhase := rand 0 (Math.PI * 2) in
  let inConstellation := false in
  let* r1 := rand (-200) 200 in
  let orbitCenterX := x + r1 in
  let* r2 := rand (-200) 200 in
  let orbitCenterY := y + r2 in
  let* orbitRadius := rand 120 300 in
  let* orbitSpeed := rand 0.3 1.2 in
  let* orbitDirection := randomDirection in
  let* orbitPhase := rand 0 (Math.PI * 2) in
  let* r3 := rand (-80) 80 in
  let secondaryCenterX := orbitCenterX + r3 in
  let* r4 := rand (-80) 80 in
  let secondaryCenterY := orbitCenterY + r4 in
  let* secondaryRadius := rand 60 150 in
  let* secondarySpeed := rand 0.8 2.5 in
  let* secondaryDirection := randomDirection in
  let* secondaryPhase := rand 0 (Math.PI * 2) in
  ret (Node.mk text x y mass radius hue trail angle angularVel
         turbulencePhase inConstellation
         orbitCenterX orbitCenterY orbitRadius orbitSpeed orbitDirection
         orbitPhase
         secondaryCenterX secondaryCenterY secondaryRadius secondarySpeed
         secondaryDirection secondaryPhase
         JS.undefined JS.undefined).

(** [createNode(text, x, y)]; an omitted coordinate ([None]) takes its
    default value, evaluated at the call, [x] before [y]. *)
Definition createNode (text : JS.string) (x y : option R) (s : STATE.t)
  : M STATE.t :=
  let* x := match x with
            | Some x => ret x
            | None => rand 80 (STATE.width s - 80)
            end in
  let* y := match y with
            | Some y => ret y
            | None => rand 80 (STATE.height s - 80)
            end in
  let* node := newNode text x y in
  ret (STATE.set_nodes (STATE.nodes s ++ [node]) s).

(** *** Link rebuilding *)

(** The index pairs visited by
    [for (i = 0; i < n; i++) for (j = i + 1; j < n; j++)], in order. *)
Definition indexPairs (n : nat) : list (nat * nat) :=
  flat_map (fun i => map (fun j => (i, j)) (seq (S i) (n - S i))) (seq 0 n).

(** The body of the inner loop of [rebuildLinks]: the links pushed for
    the pair [(i, j)]. *)
Definition linkOf (nodes : list Node.t) (ij : nat * nat) : list Link.t :=
  let (i, j) := ij in
  match nodes !! i, nodes !! j with
  | Some a, Some b =>
      let dx := Node.x b - Node.x a in
      let dy := Node.y b - Node.y a in
      let d := Math.hypot dx dy in
      if Rlt_dec d PHYS.constellationDistance then [Link.mk i j d] else []
  | _, _ => []
  end.

Definition buildLinks (nodes : list Node.t) : list Link.t :=
  flat_map (linkOf nodes) (indexPairs (length nodes)).

Definition rebuildLinks (s : STATE.t) : STATE.t :=
  STATE.set_links (buildLinks (STATE.nodes s)) s.

(** *** The simulation step *)

(** The body of the inner loop of the force pass of [step], as it acts on
    the two objects [a = nodes[i]] and [b = nodes[j]]. *)
Definition pairInteraction (dt : R) (a b : Node.t) : Node.t * Node.t :=
  let dx := Node.x b - Node.x a in
  let dy := Node.y b - Node.y a in
  let distSq := dx * dx + dy * dy in
  let dist := Math.sqrt distSq + 1e-6 in
  (* Check if nodes are in constellation distance *)
  let '(a, b) :=
    if Rlt_dec dist PHYS.constellationDistance then
      (Node.set_inConstellation true a, Node.set_inConstellation true b)
    else (a, b) in
  if Rlt_dec dist (PHYS.maxLinkDistance * 1.25) then
    (* Attraction at medium distances *)
    if Rgt_dec dist PHYS.minLinkDistance then
      let strength := PHYS.softAttract / distSq in
      let nx := dx / dist in
      let ny := dy / dist in
      let fx := nx * strength in
      let fy := ny * strength in
      let a := Node.set_vx (JS.add_assign (Node.vx a) (fx * dt * Node.mass b)) a in
      let a := Node.set_vy (JS.add_assign (Node.vy a) (fy * dt * Node.mass b)) a in
      let b := Node.set_vx (JS.sub_assign (Node.vx b) (fx * dt * Node.mass a)) b in
      let b := Node.set_vy (JS.sub_assign (Node.vy b) (fy * dt * Node.mass a)) b in
      (a, b)
    (* Repulsion at close distances *)
    else if Rlt_dec dist PHYS.repulsionDistance then
      let strength := PHYS.repulsionStrength / (distSq + 1e-6) in
      let nx := dx / dist in
      let ny := dy / dist in
      let fx := nx * strength in
      let fy := ny * strength in
      let a := Node.set_vx (JS.sub_assign (Node.vx a) (fx * dt * Node.mass b)) a in
      let a := Node.set_vy (JS.sub_assign (Node.vy a) (fy * dt * Node.mass b)) a in
      let b := Node.set_vx (JS.add_assign (Node.vx b) (fx * dt * Node.mass a)) b in
      let b := Node.set_vy (JS.add_assign (Node.vy b) (fy * dt * Node.mass a)) b in
      (a, b)
    else (a, b)
  else (a, b).

(** One iteration of the inner loop for the index pair [(i, j)]: the two
    objects are read from the array and updated in place. *)
Definition pairForce (dt : R) (nodes : list Node.t) (ij : nat * nat)
  : list Node.t :=
  let (i, j) := ij in
  match nodes !! i, nodes !! j with
  | Some a, Some b =>
      let (a, b) := pairInteraction dt a b in
      <[j := b]> (<[i := a]> nodes)
  | _, _ => nodes
  end.

(** The force pass: the double loop over all pairs [i < j]. *)
Definition forcePass (dt : R) (nodes : list Node.t) : list Node.t :=
  fold_left (pairForce dt) (indexPairs (length nodes)) nodes.

(** [n.trail.push(p); if (n.trail.length > PHYS.trailKeep) n.trail.shift()] *)
Definition trailPush (p : Sample.point) (trail : list Sample.point)
  : list Sample.point :=
  let trail := trail ++ [p] in
  if (PHYS.trailKeep <? length trail)%nat then tail trail else trail.

(** The body of the orbital loop of [step] for one node [n], block by
    block as the source comments delimit them.  [time] is
    [performance.now() * 0.001], read once at the top of the body. *)

(** Drift orbital centers slightly. *)
Definition driftCenters (dt time : R) (s : STATE.t) (n : Node.t) : Node.t :=
  let n := Node.set_orbitCenterX
    (Node.orbitCenterX n
     + (noise2 s (Node.orbitCenterX n * 0.01) (time * 0.1) - 0.5) * PHYS.centerDrift * dt) n in
  let n := Node.set_orbitCenterY
    (Node.orbitCenterY n
     + (noise2 s (Node.orbitCenterY n * 0.01) (time * 0.1) - 0.5) * PHYS.centerDrift * dt) n in
  let n := Node.set_secondaryCenterX
    (Node.secondaryCenterX n
     + (noise2 s (Node.secondaryCenterX n * 0.01) (time * 0.15) - 0.5) * PHYS.centerDrift * dt) n in
  Node.set_secondaryCenterY
    (Node.secondaryCenterY n
     + (noise2 s (Node.secondaryCenterY n * 0.01) (time * 0.15) - 0.5) * PHYS.centerDrift * dt) n.

(** Update orbital phases. *)
Definition advancePhases (dt : R) (n : Node.t) : Node.t :=
  let n := Node.set_orbitPhase
    (Node.orbitPhase n + Node.orbitSpeed n * Node.orbitDirection n * dt) n in
  Node.set_secondaryPhase
    (Node.secondaryPhase n + Node.secondarySpeed n * Node.secondaryDirection n * dt) n.

(** Primary and secondary orbital positions and their blend:
    [(targetX, targetY)]. *)
Definition orbitTarget (n : Node.t) : R * R :=
  let primaryX := Node.orbitCenterX n + Math.cos (Node.orbitPhase n) * Node.orbitRadius n in
  let primaryY := Node.orbitCenterY n + Math.sin (Node.orbitPhase n) * Node.orbitRadius n in
  let secondaryX :=
    Node.secondaryCenterX n + Math.cos (Node.secondaryPhase n) * Node.secondaryRadius n in
  let secondaryY :=
    Node.secondaryCenterY n + Math.sin (Node.secondaryPhase n) * Node.secondaryRadius n in
  let blendFactor := 0.7 in
  let targetX := primaryX * blendFactor + secondaryX * (1 - blendFactor) in
  let targetY := primaryY * blendFactor + secondaryY * (1 - blendFactor) in
  (targetX, targetY).

(** Smooth movement towards target position. *)
Definition seekTarget (dt : R) (n : Node.t) : Node.t :=
  let (targetX, targetY) := orbitTarget n in
  let moveSpeed := 2.0 in
  let n := Node.set_x (Node.x n + (targetX - Node.x n) * moveSpeed * dt) n in
  Node.set_y (Node.y n + (targetY - Node.y n) * moveSpeed * dt) n.

(** Add subtle noise for organic variation. *)
Definition jitter (dt time : R) (s : STATE.t) (n : Node.t) : Node.t :=
  let noiseX := (noise2 s (Node.x n * 0.01) (time * 0.2) - 0.5) * PHYS.noiseStrength in
  let noiseY := (noise2 s (Node.y n * 0.01) (time * 0.2) - 0.5) * PHYS.noiseStrength in
  let n := Node.set_x (Node.x n + noiseX * dt) n in
  Node.set_y (Node.y n + noiseY * dt) n.

(** Update angular rotation. *)
Definition rotate (dt : R) (n : Node.t) : M Node.t :=
  let n := Node.set_angle (Node.angle n + Node.angularVel n * dt) n in
  let* r := rand (-0.001) 0.001 in
  ret (Node.set_angularVel
         (Node.angularVel n + (r - Node.angularVel n * 0.1) * dt) n).

(** Soft wrap. *)
Definition softWrap (s : STATE.t) (n : Node.t) : M Node.t :=
  let* n :=
    if Rlt_dec (Node.x n) (-40) then
      let n := Node.set_x (STATE.width s + 40) n in
      let* r := rand (-200) 200 in
      ret (Node.set_orbitCenterX (Node.x n + r) n)
    else ret n in
  let* n :=
    if Rgt_dec (Node.x n) (STATE.width s + 40) then
      let n := Node.set_x (-40) n in
      let* r := rand (-200) 200 in
      ret (Node.set_orbitCenterX (Node.x n + r) n)
    else ret n in
  let* n :=
    if Rlt_dec (Node.y n) (-40) then
      let n := Node.set_y (STATE.height s + 40) n in
      let* r := rand (-200) 200 in
      ret (Node.set_orbitCenterY (Node.y n + r) n)
    else ret n in
  if Rgt_dec (Node.y n) (STATE.height s + 40) then
    let n := Node.set_y (-40) n in
    let* r := rand (-200) 200 in
    ret (Node.set_orbitCenterY (Node.y n + r) n)
  else ret n.

(** trails *)
Definition recordTrail (n : Node.t) : M Node.t :=
  let* t := performance_now in
  ret (Node.set_trail
         (trailPush (Sample.mk (Node.x n) (Node.y n) t) (Node.trail n)) n).

Definition stepNode (dt : R) (s : STATE.t) (n : Node.t) : M Node.t :=
  let* now := performance_now in
  let time := now * 0.001 in
  let n := driftCenters dt time s n in
  let n := advancePhases dt n in
  let n := seekTarget dt n in
  let n := jitter dt time s n in
  let* n := rotate dt n in
  let* n := softWrap s n in
  recordTrail n.

(** [step(dt)] *)
Definition step (dt : R) (s : STATE.t) : M STATE.t :=
  let nodes := STATE.nodes s in
  if (length nodes =? 0)%nat then ret s else
  (* Reset constellation status *)
  let nodes := map (Node.set_inConstellation false) nodes in
  (* Soft pairwise attraction and repulsion *)
  let nodes := forcePass dt nodes in
  (* Orbital motion system *)
  let* nodes := forEach (stepNode dt s) nodes in
  ret (rebuildLinks (STATE.set_nodes nodes s)).

(** *** Frame driver and input handling *)

(** [frame(t)].  [t || 0] is [t] for every number [t]; a number is truthy
    when it is not zero.  [drawBackground], [drawLinks] and [drawNodes]
    assign to the canvas context and to local constants only, so they
    leave [STATE] as it is and do not appear here. *)
Definition frame (t : R) (s : STATE.t) : M STATE.t :=
  let time := t in
  let dt :=
    if Req_dec_T (STATE.lastTime s) 0 then 0.016
    else clamp ((time - STATE.lastTime s) / 1000) 0 0.033 in
  let s := STATE.set_lastTime time s in
  step dt s.

(** [resize()], with the window's inner size as input. *)
Definition resize (innerWidth innerHeight : R) (s : STATE.t) : STATE.t :=
  STATE.set_size innerWidth innerHeight s.

(** The submit handler of the form; [value] is [input.value].  It returns
    the new state and the new [input.value]. *)
Definition onSubmit (value : JS.string) (s : STATE.t)
  : M (STATE.t * JS.string) :=
  let text := JS.trim (JS.or value []) in
  if negb (JS.truthy text) then ret (s, value) else
  let* x := rand (STATE.width s * 0.3) (STATE.width s * 0.7) in
  let* y := rand (STATE.height s * 0.3) (STATE.height s * 0.7) in
  let* s := createNode text (Some x) (Some y) s in
  ret (s, []).

(** The initial [STATE], after the first [resize()]. *)
Definition init (innerWidth innerHeight : R) : M STATE.t :=
  let* u := Math_random in
  ret (resize innerWidth innerHeight (STATE.mk 0 0 [] [] 0 (u * 1000))).

(** What can happen to the page after start-up. *)
Inductive Event : Type :=
| Submit (value : JS.string)
| CreateNode (text : JS.string) (x y : option R)
| Frame (t : R)
| Resize (innerWidth innerHeight : R).

Definition handle (e : Event) (s : STATE.t) : M STATE.t :=
  match e with
  | Submit value => let* r := onSubmit value s in ret (fst r)
  | CreateNode text x y => createNode text x y s
  | Frame t => frame t s
  | Resize w h => ret (resize w h s)
  end.

Fixpoint run (es : list Event) (s : STATE.t) : M STATE.t :=
  match es with
  | [] => ret s
  | e :: es' => let* s' := handle e s in run es' s'
  end.

(** The life of the page: start-up, then the events in order. *)
Definition page (innerWidth innerHeight : R) (es : list Event) : M STATE.t :=
  let* s := init innerWidth innerHeight in
  run es s.

End Core.

(** ** Vocabulary of the properties *)

(** Euclidean distance between the positions of two nodes. *)
Definition distance (a b : Node.t) : R :=
  sqrt ((Node.x b - Node.x a) * (Node.x b - Node.x a)
        + (Node.y b - Node.y a) * (Node.y b - Node.y a)).

(** The index pair a link record stands for. *)
Definition linkPair (l : Link.t) : nat * nat := (Link.i l, Link.j l).

(** The link set contains the pair of [i] and [j], in either order. *)
Definition linked (links : list Link.t) (i j : nat) : Prop :=
  In (i, j) (map linkPair links) \/ In (j, i) (map linkPair links).

(** The node [n] with its velocity fields overwritten. *)
Definition withVelocity (vx vy : JS.value) (n : Node.t) : Node.t :=
  Node.set_vy vy (Node.set_vx vx n).

(** A node with its velocity fields blanked: what is left is everything
    about the node except [vx] and [vy]. *)
Definition eraseVelocity (n : Node.t) : Node.t :=
  withVelocity JS.undefined JS.undefined n.

(** Two states that are identical except in the [vx]/[vy] fields of their
    nodes. *)
Definition velocityEquiv (s1 s2 : STATE.t) : Prop :=
  STATE.width s1 = STATE.width s2 /\
  STATE.height s1 = STATE.height s2 /\
  STATE.links s1 = STATE.links s2 /\
  STATE.lastTime s1 = STATE.lastTime s2 /\
  STATE.noiseSeed s1 = STATE.noiseSeed s2 /\
  map eraseVelocity (STATE.nodes s1) = map eraseVelocity (STATE.nodes s2).

(** The attributes a node is created with and keeps. *)
Definition nodeAttributes (n : Node.t) : Prop :=
  (0.6 <= Node.mass n <= 1.6)%R /\
  (215 <= Node.hue n <= 235)%R /\
  Node.radius n = (8 + Node.mass n * 3.5)%R.

(** [m] has the text, mass, radius and hue of [n]. *)
Definition sameAttributes (n m : Node.t) : Prop :=
  Node.text m = Node.text n /\
  Node.mass m = Node.mass n /\
  Node.radius m = Node.radius n /\
  Node.hue m = Node.hue n.

(** [Math.random()] returns a value in [[0, 1)]. *)
Definition randomInUnitInterval (host : Host) : Prop :=
  forall k, (0 <= random_at host k < 1)%R.

(** The node lies within the wrap margins of the canvas: no branch of the
    soft wrap applies to it. *)
Definition inBand (s : STATE.t) (n : Node.t) : Prop :=
  (-40 <= Node.x n <= STATE.width s + 40)%R /\
  (-40 <= Node.y n <= STATE.height s + 40)%R.

(** If [v] has been assigned (it is a number or [NaN]) then [v'] is [v]. *)
Definition keepsAssigned (v v' : JS.value) : Prop :=
  v <> JS.undefined -> v' = v.

(** What a step with [dt = 0] leaves unchanged in a node. *)
Definition zeroDtUnchanged (s : STATE.t) (n n' : Node.t) : Prop :=
  Node.orbitPhase n' = Node.orbitPhase n /\
  Node.secondaryPhase n' = Node.secondaryPhase n /\
  keepsAssigned (Node.vx n) (Node.vx n') /\
  keepsAssigned (Node.vy n) (Node.vy n') /\
  (inBand s n -> Node.x n' = Node.x n /\ Node.y n' = Node.y n).

(** The fields of a node that no block of the orbital pass assigns. *)
Definition orbitalFrame (n m : Node.t) : Prop :=
  Node.text m = Node.text n /\
  Node.mass m = Node.mass n /\
  Node.radius m = Node.radius n /\
  Node.hue m = Node.hue n /\
  Node.turbulencePhase m = Node.turbulencePhase n /\
  Node.inConstellation m = Node.inConstellation n /\
  Node.orbitRadius m = Node.orbitRadius n /\
  Node.orbitSpeed m = Node.orbitSpeed n /\
  Node.orbitDirection m = Node.orbitDirection n /\
  Node.secondaryRadius m = Node.secondaryRadius n /\
  Node.secondarySpeed m = Node.secondarySpeed n /\
  Node.secondaryDirection m = Node.secondaryDirection n /\
  Node.vx m = Node.vx n /\
  Node.vy m = Node.vy n.

(** What the force pass leaves alone when [dt = 0]. *)
Definition zeroDtForces (n m : Node.t) : Prop :=
  Node.x m = Node.x n /\ Node.y m = Node.y n /\
  Node.orbitPhase m = Node.orbitPhase n /\
  Node.secondaryPhase m = Node.secondaryPhase n /\
  keepsAssigned (Node.vx n) (Node.vx m) /\ keepsAssigned (Node.vy n) (Node.vy m).

(** The reading of "a step with [dt = 0] is a no-op" on positions,
    velocities and phases, for one node before and after. *)
Definition zeroDtNoop (n n' : Node.t) : Prop :=
  Node.x n' = Node.x n /\ Node.y n' = Node.y n /\
  Node.vx n' = Node.vx n /\ Node.vy n' = Node.vy n /\
  Node.orbitPhase n' = Node.orbitPhase n /\
  Node.secondaryPhase n' = Node.secondaryPhase n.

(** The reading of "the velocity of a node on which no force acts is
    multiplied by the drag constant", for one node before and after. *)
Definition dragApplied (n n' : Node.t) : Prop :=
  Node.vx n' = JS.times (Node.vx n) PHYS.globalDrag /\
  Node.vy n' = JS.times (Node.vy n) PHYS.globalDrag.

(** ** Concrete hosts and states *)

(** A host whose [Math.random()] always returns [0.5] and whose clock
    stands at [0]. *)
Definition steadyHost : Host := mkHost (fun _ => 1 / 2)%R (fun _ => 0%R).

Definition freshWorld : World := mkWorld 0 0.

(** The node constructed at [(x, y)] on [steadyHost], with text "w". *)
Definition steadyNode (x y : R) : Node.t :=
  fst (newNode steadyHost [119%N] x y freshWorld).

(** An 800 x 600 canvas holding the given nodes, before the first frame. *)
Definition canvasWith (nodes : list Node.t) : STATE.t :=
  STATE.mk 800 600 nodes [] 0 500.

(** ** Further code and vocabulary *)

(** [lerp] *)
Definition lerp (a b t : R) : R := (a + (b - a) * t)%R.

(** The texts an event adds to the node sequence: the trimmed value of a
    form submission that is not blank, the text of a direct [createNode]. *)
Definition addedTexts (e : Event) : list JS.string :=
  match e with
  | Submit value =>
      if JS.truthy (JS.trim (JS.or value [])) then [JS.trim (JS.or value [])]
      else []
  | CreateNode text _ _ => [text]
  | Frame _ => []
  | Resize _ _ => []
  end.

(** A link record refers to two existing nodes, the first before the
    second. *)
Definition linkInBounds (nodes : list Node.t) (l : Link.t) : Prop :=
  Link.i l < Link.j l /\ Link.j l < length nodes.

(** Lexicographic order on index pairs. *)
Definition pairLt (p q : nat * nat) : Prop :=
  fst p < fst q \/ (fst p = fst q /\ snd p < snd q).

(** The ranges of the fields the constructor draws and nothing assigns
    afterwards. *)
Definition constructedRanges (n : Node.t) : Prop :=
  (0.6 <= Node.mass n <= 1.6)%R /\
  Node.radius n = (8 + Node.mass n * 3.5)%R /\
  (215 <= Node.hue n <= 235)%R /\
  (120 <= Node.orbitRadius n <= 300)%R /\
  (0.3 <= Node.orbitSpeed n <= 1.2)%R /\
  (Node.orbitDirection n = 1%R \/ Node.orbitDirection n = (-1)%R) /\
  (60 <= Node.secondaryRadius n <= 150)%R /\
  (0.8 <= Node.secondarySpeed n <= 2.5)%R /\
  (Node.secondaryDirection n = 1%R \/ Node.secondaryDirection n = (-1)%R) /\
  (0 <= Node.turbulencePhase n <= 2 * PI)%R.

(** The range the angular velocity stays in. *)
Definition angularVelBounded (n : Node.t) : Prop :=
  (-0.01 <= Node.angularVel n <= 0.08)%R.

(** The test of the pair loop for the constellation flag. *)
Definition near (a b : Node.t) : Prop :=
  (distance a b + 1e-6 < PHYS.constellationDistance)%R.

(** Some other node of the array is [near] the node at index [k]. *)
Definition hasNeighbour (nodes : list Node.t) (k : nat) : Prop :=
  exists j a b, j <> k /\ nodes !! k = Some a /\ nodes !! j = Some b /\ near a b.

(** The node at index [k] exists and has its constellation flag set. *)
Definition flagged (nodes : list Node.t) (k : nat) : Prop :=
  exists n, nodes !! k = Some n /\ Node.inConstellation n = true.

(** The nodes at [i] and [j] exist and are [near] each other. *)
Definition nearAt (nodes : list Node.t) (i j : nat) : Prop :=
  exists a b, nodes !! i = Some a /\ nodes !! j = Some b /\ near a b.

Definition samePosition (n m : Node.t) : Prop :=
  Node.x m = Node.x n /\ Node.y m = Node.y n.

(** The timestamp of the last [Frame] event of a run, [t0] when there is
    none, and the window size of its last [Resize]. *)
Definition lastFrame (t0 : R) (es : list Event) : R :=
  fold_left (fun t e => match e with Frame t' => t' | _ => t end) es t0.

Definition lastResize (size0 : R * R) (es : list Event) : R * R :=
  fold_left (fun sz e => match e with Resize iw ih => (iw, ih) | _ => sz end)
            es size0.

(** ** Drawing *)

(** What the page draws, as the sequence of assignments to properties of
    the 2D context [ctx] and of calls of its methods.  A CSS colour written
    by a template literal is kept as its function and its four components
    (percent signs dropped), not as the string the numbers are printed
    into; the font of the labels is the one string literal of the source. *)
Module Canvas.

Inductive color : Type :=
| rgba (r g b a : R)
| hsla (h s l a : R).

(** The object made by [createRadialGradient(x0, y0, r0, x1, y1, r1)] and
    its [addColorStop] calls. *)
Record gradient := mkGradient {
  x0 : R; y0 : R; r0 : R;
  x1 : R; y1 : R; r1 : R;
  stops : list (R * color)
}.

Inductive style : Type :=
| solid (c : color)
| radial (g : gradient).

(** ['600 14px Inter, system-ui, -apple-system, Segoe UI, Roboto,
    Helvetica, Arial'], ['center'] and ['middle']. *)
Inductive fontName : Type := inter600.
Inductive align : Type := center.
Inductive baseline : Type := middle.

Inductive command : Type :=
| fillStyle (s : style)
| strokeStyle (c : color)
| lineWidth (w : R)
| shadowColor (c : color)
| shadowBlur (b : R)
| font (f : fontName)
| textAlign (a : align)
| textBaseline (b : baseline)
| fillRect (x y w h : R)
| beginPath
| moveTo (x y : R)
| lineTo (x y : R)
| quadraticCurveTo (cpx cpy x y : R)
| arc (x y r startAngle endAngle : R)
| stroke
| fill
| fillText (text : JS.string) (x y : R).

End Canvas.

(** A drawing function gives the commands it has issued and whether it
    has returned: reading a property of [undefined] raises a [TypeError],
    which ends the function, and the frame, at that point.  The calls of
    the context's methods are taken to return. *)
Definition Draw : Type := list Canvas.command * bool.

Definition emit (cmds : list Canvas.command) : Draw := (cmds, true).

Definition throw : Draw := ([], false).

(** [d1; d2] *)
Definition andThen (d1 d2 : Draw) : Draw :=
  if snd d1 then (fst d1 ++ fst d2, snd d2) else d1.

(** [for (const a of l) f(a)] *)
Fixpoint forDraw {A} (f : A -> Draw) (l : list A) : Draw :=
  match l with
  | [] => emit []
  | a :: l' => andThen (f a) (forDraw f l')
  end.

Section Drawing.

Local Open Scope R_scope.
Import Canvas.

(** [Math.sign] on a number. *)
Definition Math_sign (r : R) : R :=
  if Rlt_dec 0 r then 1 else if Rlt_dec r 0 then -1 else 0.

(** [v || d] on numbers: zero is falsy. *)
Definition orElse (v d : R) : R := if Req_dec_T v 0 then d else v.

(** [drawBackground()] *)
Definition drawBackground (s : STATE.t) : list command :=
  (* Faint persistent trails layer *)
  [ fillStyle (solid (rgba 2 3 9 0.28));
    fillRect 0 0 (STATE.width s) (STATE.height s);
  (* Large vignette glow *)
    fillStyle
      (radial (mkGradient (STATE.width s * 0.6) (STATE.height s * 0.25) 0
                          (STATE.width s * 0.5) (STATE.height s * 0.7)
                          (Math.max (STATE.width s) (STATE.height s))
                          [(0, rgba 30 42 85 0.05); (1, rgba 5 7 12 0.0)]));
    fillRect 0 0 (STATE.width s) (STATE.height s) ].

(** The body of the loop of [drawLinks] for the link [L]. *)
Definition drawLink (time : R) (s : STATE.t) (L : Link.t) : Draw :=
  match STATE.nodes s !! Link.i L, STATE.nodes s !! Link.j L with
  | Some a, Some b =>
      let mx := (Node.x a + Node.x b) * 0.5 in
      let my := (Node.y a + Node.y b) * 0.5 in
      let dx := Node.x b - Node.x a in
      let dy := Node.y b - Node.y a in
      let d := Math.hypot dx dy in
      let bendDir := orElse (Math_sign (noise2 s (mx * 0.01) (my * 0.01) - 0.5)) 1 in
      let nx := (- dy) / orElse d 1 in
      let ny := dx / orElse d 1 in
      let curve :=
        PHYS.curveBend
        * Math.min 1 ((d - PHYS.minLinkDistance)
                      / (PHYS.maxLinkDistance - PHYS.minLinkDistance)) in
      let cx := mx + nx * bendDir * d * curve in
      let cy := my + ny * bendDir * d * curve in
      let alpha :=
        clamp (1 - (d - PHYS.minLinkDistance)
                   / (PHYS.maxLinkDistance - PHYS.minLinkDistance)) 0.05 0.9 in
      let hue := (Node.hue a + Node.hue b) * 0.5 in
      (* Orbit accents near midpoint *)
      let t := time * 0.001 in
      let ang := t * PHYS.orbitFreq + (INR (Link.i L) * 0.7 + INR (Link.j L) * 1.3) in
      let orbitR := PHYS.orbitAmp * (0.5 + 0.5 * Math.sin (t * 0.33 + Link.d L * 0.02)) in
      let ox := mx + Math.cos ang * orbitR in
      let oy := my + Math.sin ang * orbitR in
      emit
        [ (* Outer glow *)
          strokeStyle (hsla hue 80 70 (alpha * 0.12));
          lineWidth 3;
          beginPath;
          moveTo (Node.x a) (Node.y a);
          quadraticCurveTo cx cy (Node.x b) (Node.y b);
          stroke;
          (* Core line *)
          strokeStyle (hsla hue 90 75 (alpha * 0.7));
          lineWidth 1.2;
          beginPath;
          moveTo (Node.x a) (Node.y a);
          quadraticCurveTo cx cy (Node.x b) (Node.y b);
          stroke;
          (* Orbit accents near midpoint *)
          fillStyle (solid (hsla hue 100 85 (alpha * 0.9)));
          shadowColor (hsla hue 100 60 (alpha * 0.6));
          shadowBlur 8;
          beginPath;
          arc ox oy 1.6 0 (Math.PI * 2);
          fill;
          shadowBlur 0 ]
  | _, _ => throw
  end.

(** [drawLinks(time)] *)
Definition drawLinks (time : R) (s : STATE.t) : Draw :=
  forDraw (drawLink time s) (STATE.links s).

(** The body of the trail loop of [drawNodes] at index [i]. *)
Definition trailSegment (n : Node.t) (i : nat) : Draw :=
  match Node.trail n !! (i - 1)%nat, Node.trail n !! i with
  | Some p0, Some p1 =>
      let t := INR i / INR (length (Node.trail n)) in
      let alpha := (t * 0.6) * (1 - PHYS.trailFade) + 0.05 in
      emit
        [ strokeStyle (hsla (Node.hue n) 90 (65 - t * 20) alpha);
          lineWidth (lerp 0.2 1.0 t);
          beginPath;
          moveTo (Sample.x p0) (Sample.y p0);
          lineTo (Sample.x p1) (Sample.y p1);
          stroke ]
  | _, _ => throw
  end.

(** The body of the loop of [drawNodes] for the node [n]. *)
Definition drawNode (n : Node.t) : Draw :=
  andThen
    (* trail *)
    (if (1 <? length (Node.trail n))%nat
     then forDraw (trailSegment n) (seq 1 (length (Node.trail n) - 1))
     else emit [])
    (emit
       ((* glow *)
        [ shadowColor (hsla (Node.hue n) 100 70 0.6);
          shadowBlur 12;
          fillStyle (solid (hsla (Node.hue n) 100 86 0.95));
          beginPath;
          arc (Node.x n) (Node.y n) (Node.radius n * 0.28) 0 (Math.PI * 2);
          fill;
          shadowBlur 0 ]
        (* text - only show when in constellation *)
        ++ (if Node.inConstellation n then
              [ font inter600;
                textAlign center;
                textBaseline middle;
                fillStyle (solid (rgba 230 238 255 0.95));
                shadowColor (hsla (Node.hue n) 100 60 0.8);
                shadowBlur 10;
                fillText (Node.text n) (Node.x n) (Node.y n - Node.radius n * 0.9);
                shadowBlur 0 ]
            else []))).

(** [drawNodes(time)]; the argument is not used. *)
Definition drawNodes (time : R) (s : STATE.t) : Draw :=
  forDraw drawNode (STATE.nodes s).

(** What [frame(t)] draws: the background on the state before the step,
    the links and the nodes on the state after it.  The next frame is
    requested when the result is [true] in its second component. *)
Definition frameDraw (host : Host) (t : R) (s : STATE.t) (w : World) : Draw :=
  let time := t in
  let s' := fst (frame host t s w) in
  andThen (emit (drawBackground s))
          (andThen (drawLinks time s') (drawNodes time s')).

(** [DPR]: [Math.min(window.devicePixelRatio || 1, 2)]. *)
Definition DPR (devicePixelRatio : JS.value) : R :=
  Math.min (match devicePixelRatio with
            | JS.num r => orElse r 1
            | _ => 1
            end) 2.

(** The part of [resize()] that acts on the canvas element: its backing
    store size and the transform of the context. *)
Record Backing := mkBacking {
  canvasWidth : R;
  canvasHeight : R;
  transform : R * R * R * R * R * R
}.

Definition resizeCanvas (devicePixelRatio : JS.value) (innerWidth innerHeight : R)
  : Backing :=
  let dpr := DPR devicePixelRatio in
  mkBacking (Math.floor (innerWidth * dpr)) (Math.floor (innerHeight * dpr))
            (dpr, 0, 0, dpr, 0, 0).

(** The shadow blur in force after the commands [cmds], from [b]. *)
Fixpoint blurAfter (b : R) (cmds : list command) : R :=
  match cmds with
  | [] => b
  | shadowBlur b' :: cmds' => blurAfter b' cmds'
  | _ :: cmds' => blurAfter b cmds'
  end.

(** Every [stroke] and [fillRect] of [cmds] is issued with the shadow
    blur at zero, every [fill] and [fillText] with a positive one. *)
Fixpoint glowDiscipline (b : R) (cmds : list command) : Prop :=
  match cmds with
  | [] => True
  | shadowBlur b' :: cmds' => glowDiscipline b' cmds'
  | stroke :: cmds' => b = 0 /\ glowDiscipline b cmds'
  | fillRect _ _ _ _ :: cmds' => b = 0 /\ glowDiscipline b cmds'
  | fill :: cmds' => 0 < b /\ glowDiscipline b cmds'
  | fillText _ _ _ :: cmds' => 0 < b /\ glowDiscipline b cmds'
  | _ :: cmds' => glowDiscipline b cmds'
  end.

(** A link record is up to date: its two nodes exist, lie less than 120
    apart, and the record holds their distance. *)
Definition linkFresh (nodes : list Node.t) (l : Link.t) : Prop :=
  exists a b,
    nodes !! Link.i l = Some a /\ nodes !! Link.j l = Some b
    /\ (Link.i l < Link.j l)%nat
    /\ Link.d l = distance a b /\ distance a b < PHYS.constellationDistance.

End Drawing.

(** Starting with the shadow blur at zero, [cmds] keep the
    [glowDiscipline] and leave the blur at zero. *)
Definition glowUnit (cmds : list Canvas.command) : Prop :=
  glowDiscipline 0 cmds /\ blurAfter 0 cmds = 0%R.

(** The labels written by [cmds]: text and position of each [fillText]. *)
Definition labels (cmds : list Canvas.command) : list (JS.string * R * R) :=
  flat_map (fun c => match c with
                     | Canvas.fillText text x y => [(text, x, y)]
                     | _ => []
                     end) cmds.

(** The fields that turn a node: its two phases and its angle, each with
    what drives it. *)
Definition spin (n : Node.t) : R * R * R * R * R * R * R * R :=
  (Node.orbitPhase n, Node.orbitSpeed n, Node.orbitDirection n,
   Node.secondaryPhase n, Node.secondarySpeed n, Node.secondaryDirection n,
   Node.angle n, Node.angularVel n).

(** [m] is [n] turned for the time [dt]. *)
Definition turned (dt : R) (n m : Node.t) : Prop :=
  Node.orbitPhase m
  = (Node.orbitPhase n + Node.orbitSpeed n * Node.orbitDirection n * dt)%R
  /\ Node.secondaryPhase m
     = (Node.secondaryPhase n
        + Node.secondarySpeed n * Node.secondaryDirection n * dt)%R
  /\ Node.angle m = (Node.angle n + Node.angularVel n * dt)%R.

(** The value is not a number: it is [undefined] or [NaN]. *)
Definition notNumber (v : JS.value) : Prop :=
  v = JS.undefined \/ v = JS.NaN.

(** ** [noise2] on doubles *)

(** [noise2] as the engine computes it, on IEEE 754 binary64 numbers with
    round to nearest, ties to even; a decimal literal denotes the nearest
    double, as it does in JavaScript. *)
Module Double.
Import Floats.
#[local] Set Warnings "-inexact-float".
Local Open Scope float_scope.

(** [2 ** 52]: from here on every double is an integer. *)
Definition two52 : float := 4503599627370496.

(** [Math.floor]: the argument itself when it is [NaN], infinite, an
    integer or a zero; otherwise the nearest integer, less one when that
    lies above the argument. *)
Definition floor (x : float) : float :=
  if is_nan x || (two52 <=? abs x) || (x =? 0) then x
  else
    let r := if 0 <? x then (x + two52) - two52 else - ((- x + two52) - two52) in
    if x <? r then r - 1 else r.

(** [Math.sin]: [NaN] at [NaN] and at the infinities, as ECMAScript fixes
    it; at every other argument the approximation [approx] of the engine,
    which the language leaves to the implementation. *)
Definition sin (approx : float -> float) (x : float) : float :=
  if is_nan x || is_infinity x then nan else approx x.

(** [noise2(x, y)], reading [STATE.noiseSeed]. *)
Definition noise2 (approx : float -> float) (noiseSeed x y : float) : float :=
  let s := sin approx (x * 12.9898 + y * 78.233 + noiseSeed) * 43758.5453 in
  s - floor s.

(** [0 <= v && v < 1]; false at [NaN]. *)
Definition inUnitInterval (v : float) : bool := (0 <=? v) && (v <? 1).

End Double.

(** * Properties *)

(** ** Lists and loops *)

(** The pair loop visits [(0,1)], [(0,2)], [(1,2)] on three nodes. *)
Example indexPairs_3 : indexPairs 3 = [(0, 1); (0, 2); (1, 2)].
Proof. reflexivity. Qed.

Lemma in_indexPairs (n i j : nat) :
  In (i, j) (indexPairs n) <-> (i < j < n)%nat.
Proof.
  unfold indexPairs. rewrite in_flat_map. split.
  - intros (k & Hk & Hin). apply in_map_iff in Hin as (m & Heq & Hm).
    inversion Heq; subst. apply in_seq in Hk, Hm. lia.
  - intros H. exists i. split; [apply in_seq; lia|].
    apply in_map_iff. exists j. split; [reflexivity|]. apply in_seq. lia.
Qed.

Lemma NoDup_indexPairs (n : nat) : NoDup (indexPairs n).
Proof.
  unfold indexPairs.
  assert (Hgen : forall l : list nat, NoDup l ->
    NoDup (flat_map (fun i => map (fun j => (i, j)) (seq (S i) (n - S i))) l)).
  { induction l as [|k l IH]; intros Hnd; simpl; [constructor|].
    inversion Hnd as [|? ? Hk Hl]; subst.
    apply NoDup_app. split; [|split].
    - apply NoDup_fmap_2; [intros ? ? Heq; congruence|apply NoDup_seq].
    - intros [a b] Hin Hin'. apply list_elem_of_In in Hin, Hin'.
      apply in_map_iff in Hin as (m & Heq & _). inversion Heq; subst.
      apply in_flat_map in Hin' as (k' & Hk' & Hin').
      apply in_map_iff in Hin' as (m' & Heq' & _). inversion Heq'; subst.
      apply Hk, list_elem_of_In, Hk'.
    - apply IH, Hl. }
  apply Hgen, NoDup_seq.
Qed.

(** ** Link rebuilding *)

Lemma distance_sym (a b : Node.t) : distance a b = distance b a.
Proof. unfold distance. f_equal. ring. Qed.

Lemma in_buildLinks (nodes : list Node.t) (l : Link.t) :
  In l (buildLinks nodes) <->
  exists a b,
    (Link.i l < Link.j l)%nat /\
    nodes !! Link.i l = Some a /\ nodes !! Link.j l = Some b /\
    Link.d l = distance a b /\ (distance a b < PHYS.constellationDistance)%R.
Proof.
  unfold buildLinks. rewrite in_flat_map. split.
  - intros ([i j] & Hij & Hl). apply in_indexPairs in Hij. unfold linkOf in Hl.
    destruct (nodes !! i) as [a|] eqn:Ha; [|contradiction].
    destruct (nodes !! j) as [b|] eqn:Hb; [|contradiction].
    unfold Math.hypot in Hl. fold (distance a b) in Hl.
    destruct (Rlt_dec _ _) as [Hd|Hd]; [|contradiction].
    destruct Hl as [<-|[]]. simpl. exists a, b. repeat split; try assumption; lia.
  - intros (a & b & Hlt & Ha & Hb & Hd & Hlt'). destruct l as [i j d]. simpl in *.
    exists (i, j). split.
    + apply in_indexPairs. split; [assumption|]. eapply lookup_lt_Some, Hb.
    + unfold linkOf. rewrite Ha, Hb. unfold Math.hypot. fold (distance a b).
      destruct (Rlt_dec _ _); [|contradiction]. left. congruence.
Qed.

Lemma in_linkPairs (nodes : list Node.t) (i j : nat) :
  In (i, j) (map linkPair (buildLinks nodes)) <->
  exists a b,
    (i < j)%nat /\ nodes !! i = Some a /\ nodes !! j = Some b /\
    (distance a b < PHYS.constellationDistance)%R.
Proof.
  rewrite in_map_iff. split.
  - intros (l & Hp & Hl). apply in_buildLinks in Hl as (a & b & H1 & H2 & H3 & _ & H5).
    unfold linkPair in Hp. inversion Hp; subst. eauto 10.
  - intros (a & b & H1 & H2 & H3 & H4). exists (Link.mk i j (distance a b)).
    split; [reflexivity|]. apply in_buildLinks. simpl. eauto 10.
Qed.

Lemma NoDup_linkPairs (nodes : list Node.t) :
  NoDup (map linkPair (buildLinks nodes)).
Proof.
  unfold buildLinks.
  assert (Hgen : forall ps : list (nat * nat), NoDup ps ->
            NoDup (map linkPair (flat_map (linkOf nodes) ps))
            /\ forall p, In p (map linkPair (flat_map (linkOf nodes) ps)) -> In p ps).
  { induction ps as [|[i j] ps IH]; intros Hnd; cbn [flat_map].
    - simpl. split; [constructor|tauto].
    - inversion Hnd as [|? ? Hp Hps]; subst. destruct (IH Hps) as [IH1 IH2].
      rewrite map_app.
      assert (Hone : map linkPair (linkOf nodes (i, j)) = []
                     \/ map linkPair (linkOf nodes (i, j)) = [(i, j)]).
      { unfold linkOf. destruct (nodes !! i); [destruct (nodes !! j)|];
          [destruct (Rlt_dec _ _)| |]; auto. }
      destruct Hone as [-> | ->]; simpl.
      + split; [assumption|]. intros; right; auto.
      + split.
        * constructor; [|assumption]. intros Hin. apply list_elem_of_In in Hin.
          apply Hp, list_elem_of_In, IH2, Hin.
        * intros p [<-|Hin]; [left; reflexivity|right; auto]. }
  apply Hgen, NoDup_indexPairs.
Qed.

(** ** Adding a node *)

(** Blank, [h], [i], tab is trimmed to [h], [i]; a string of blanks to the
    empty string. *)
Example trim_hi : JS.trim [32; 104; 105; 9]%N = [104; 105]%N.
Proof. reflexivity. Qed.

Example trim_blanks : JS.trim [32; 32]%N = [].
Proof. reflexivity. Qed.

Lemma trimStart_nil (s : JS.string) :
  JS.trimStart s = [] <-> forallb JS.isWhiteSpace s = true.
Proof.
  induction s as [|c s IH]; simpl; [tauto|].
  destruct (JS.isWhiteSpace c); simpl; [exact IH|].
  split; discriminate.
Qed.

Lemma trimStart_head (s : JS.string) :
  match JS.trimStart s with
  | [] => True
  | c :: _ => JS.isWhiteSpace c = false
  end.
Proof.
  induction s as [|c s IH]; simpl; [exact I|].
  destruct (JS.isWhiteSpace c) eqn:Hc; [exact IH|exact Hc].
Qed.

Lemma trim_nil (s : JS.string) :
  JS.trim s = [] <-> forallb JS.isWhiteSpace s = true.
Proof.
  rewrite <- trimStart_nil. unfold JS.trim, JS.trimEnd. split.
  - intros H. apply (f_equal (@rev N)) in H. rewrite rev_involutive in H. simpl in H.
    apply trimStart_nil in H. rewrite forallb_forall in H.
    pose proof (trimStart_head s) as Hh.
    destruct (JS.trimStart s) as [|c t]; [reflexivity|].
    rewrite H in Hh; [discriminate|]. apply in_rev. rewrite rev_involutive. left. reflexivity.
  - intros ->. reflexivity.
Qed.

(** What the constructor assigns, whatever the host returns. *)
Lemma newNode_fields (host : Host) (text : JS.string) (x y : R) (w : World) :
  let n := fst (newNode host text x y w) in
  Node.text n = text /\ Node.x n = x /\ Node.y n = y /\
  Node.trail n = [] /\ Node.inConstellation n = false /\
  Node.vx n = JS.undefined /\ Node.vy n = JS.undefined /\
  Node.radius n = (8 + Node.mass n * 3.5)%R.
Proof. simpl. repeat split. Qed.

(** [createNode] appends one freshly constructed node and changes nothing
    else. *)
Lemma createNode_appends (host : Host) (text : JS.string) (x y : option R)
      (s : STATE.t) (w : World) :
  exists x0 y0 w0,
    fst (createNode host text x y s w)
    = STATE.set_nodes (STATE.nodes s ++ [fst (newNode host text x0 y0 w0)]) s
    /\ (forall x1, x = Some x1 -> x0 = x1)
    /\ (forall y1, y = Some y1 -> y0 = y1).
Proof.
  unfold createNode, bind.
  match goal with |- context [?m w] =>
    lazymatch m with match x with _ => _ end =>
      destruct (m w) as [x0 w1] eqn:Ex end end.
  match goal with |- context [?m w1] =>
    lazymatch m with match y with _ => _ end =>
      destruct (m w1) as [y0 w2] eqn:Ey end end.
  exists x0, y0, w2. destruct (newNode host text x0 y0 w2) as [node w3].
  split; [reflexivity|].
  split; intros ? ->; unfold ret in *; congruence.
Qed.

(** The form handler ignores a value that is empty or consists of white
    space only: the state (so the node sequence and its length), the input
    field and the host streams are left as they were and no node is
    created.  For every other value it appends exactly one node, whose text
    is the trimmed value, and clears the input field. *)
Lemma onSubmit_cases (host : Host) (value : JS.string) (s : STATE.t)
      (w : World) :
  let r := onSubmit host value s w in
  if forallb JS.isWhiteSpace value then
    r = ((s, value), w)
  else
    exists node,
      fst (fst r) = STATE.set_nodes (STATE.nodes s ++ [node]) s
      /\ length (STATE.nodes (fst (fst r))) = S (length (STATE.nodes s))
      /\ Node.text node = JS.trim value
      /\ JS.trim value <> []
      /\ snd (fst r) = [].
Proof.
  simpl. unfold onSubmit.
  assert (Hor : JS.or value [] = value) by (destruct value; reflexivity).
  rewrite Hor. destruct (forallb JS.isWhiteSpace value) eqn:Hws.
  - apply trim_nil in Hws. rewrite Hws. reflexivity.
  - assert (Hne : JS.trim value <> []).
    { intros H. apply trim_nil in H. congruence. }
    destruct (JS.trim value) as [|c t] eqn:Ht; [contradiction|]. simpl.
    eexists. split; [reflexivity|]. rewrite length_app. simpl.
    repeat split; [lia|discriminate].
Qed.

(** [createNode] looks at no text: it appends one node, with the text as
    it was passed. *)
Lemma createNode_appends_one (host : Host) (text : JS.string) (x y : option R)
      (s : STATE.t) (w : World) :
  exists node,
    fst (createNode host text x y s w)
    = STATE.set_nodes (STATE.nodes s ++ [node]) s
    /\ length (STATE.nodes (fst (createNode host text x y s w)))
       = S (length (STATE.nodes s))
    /\ Node.text node = text.
Proof.
  destruct (createNode_appends host text x y s w) as (x0 & y0 & w0 & Hc & _).
  exists (fst (newNode host text x0 y0 w0)). rewrite Hc.
  split; [reflexivity|]. split; [|reflexivity].
  cbn [STATE.nodes STATE.set_nodes]. rewrite length_app. simpl. lia.
Qed.

(** C9, as the code has it.  The check for blank text is in the form
    handler and nowhere else.  Submitting a value that is empty or consists
    of white space only is a no-op: the state (so the node sequence and its
    length), the input field and the host streams are left as they were and
    no node is created; every other value appends exactly one node, whose
    text is the trimmed value, and clears the input field.  [createNode]
    itself appends exactly one node whatever the text, blank or not, and
    stores the text as it was passed. *)
Theorem blank_text_is_checked_by_the_form (host : Host) (value : JS.string)
        (s : STATE.t) (w : World) :
  (let r := onSubmit host value s w in
   if forallb JS.isWhiteSpace value then
     r = ((s, value), w)
   else
     exists node,
       fst (fst r) = STATE.set_nodes (STATE.nodes s ++ [node]) s
       /\ length (STATE.nodes (fst (fst r))) = S (length (STATE.nodes s))
       /\ Node.text node = JS.trim value
       /\ JS.trim value <> []
       /\ snd (fst r) = [])
  /\ (forall text x y,
         exists node,
           fst (createNode host text x y s w)
           = STATE.set_nodes (STATE.nodes s ++ [node]) s
           /\ length (STATE.nodes (fst (createNode host text x y s w)))
              = S (length (STATE.nodes s))
           /\ Node.text node = text).
Proof.
  split; [apply onSubmit_cases|]. intros text x y. apply createNode_appends_one.
Qed.

(** C9 as stated fails: adding a node with the text of two spaces at
    [(100, 100)] to an empty page is no no-op, the page has one node
    afterwards, with that text. *)
Lemma createNode_accepts_blank_text :
  forallb JS.isWhiteSpace [32%N; 32%N] = true
  /\ length (STATE.nodes (canvasWith [])) = 0
  /\ length (STATE.nodes
               (fst (createNode steadyHost [32%N; 32%N] (Some 100%R) (Some 100%R)
                                (canvasWith []) freshWorld))) = 1
  /\ map Node.text
         (STATE.nodes
            (fst (createNode steadyHost [32%N; 32%N] (Some 100%R) (Some 100%R)
                             (canvasWith []) freshWorld)))
     = [[32%N; 32%N]].
Proof.
  split; [reflexivity|]. split; [reflexivity|].
  destruct (createNode_appends_one steadyHost [32%N; 32%N] (Some 100%R) (Some 100%R)
              (canvasWith []) freshWorld) as (node & Hc & Hlen & Ht).
  split; [exact Hlen|]. rewrite Hc. simpl. rewrite Ht. reflexivity.
Qed.



(** ** The force pass, generically *)

Lemma lookup_map {A B} (f : A -> B) (l : list A) (i : nat) :
  map f l !! i = option_map f (l !! i).
Proof. revert i. induction l as [|a l IH]; intros [|i]; simpl; auto. Qed.

Lemma map_insert {A B} (f : A -> B) (l : list A) (i : nat) (a : A) :
  map f (<[i := a]> l) = <[i := f a]> (map f l).
Proof. revert i. induction l as [|b l IH]; intros [|i]; simpl; f_equal; auto. Qed.

Section ForcePassRelation.

Variable rel : Node.t -> Node.t -> Prop.
Variable dt : R.
Hypothesis rel_refl : forall a, rel a a.
Hypothesis rel_trans : forall a b c, rel a b -> rel b c -> rel a c.
Hypothesis rel_pair :
  forall a b, rel a (fst (pairInteraction dt a b))
              /\ rel b (snd (pairInteraction dt a b)).

Lemma Forall2_rel_refl (ns : list Node.t) : Forall2 rel ns ns.
Proof. induction ns; constructor; auto. Qed.

Lemma Forall2_rel_trans (l1 l2 l3 : list Node.t) :
  Forall2 rel l1 l2 -> Forall2 rel l2 l3 -> Forall2 rel l1 l3.
Proof.
  intros H. revert l3. induction H; intros l3 H3; inversion H3; subst;
    constructor; eauto.
Qed.

Lemma pairForce_rel (ns : list Node.t) (ij : nat * nat) :
  Forall2 rel ns (pairForce dt ns ij).
Proof.
  destruct ij as [i j]. unfold pairForce.
  destruct (ns !! i) as [a|] eqn:Ha; [|apply Forall2_rel_refl].
  destruct (ns !! j) as [b|] eqn:Hb; [|apply Forall2_rel_refl].
  destruct (rel_pair a b) as [Hra Hrb].
  destruct (pairInteraction dt a b) as [a' b']. simpl in Hra, Hrb.
  rewrite <- (list_insert_id ns j b) at 1 by assumption.
  apply Forall2_insert; [|assumption].
  rewrite <- (list_insert_id ns i a) at 1 by assumption.
  apply Forall2_insert; [apply Forall2_rel_refl|assumption].
Qed.

Lemma forcePass_rel (ns : list Node.t) : Forall2 rel ns (forcePass dt ns).
Proof.
  unfold forcePass. generalize (indexPairs (length ns)). intros ps.
  revert ns. induction ps as [|p ps IH]; intros ns; simpl.
  - apply Forall2_rel_refl.
  - eapply Forall2_rel_trans; [apply pairForce_rel|apply IH].
Qed.

End ForcePassRelation.

Lemma pairForce_length (dt : R) (ns : list Node.t) (ij : nat * nat) :
  length (pairForce dt ns ij) = length ns.
Proof.
  symmetry. eapply Forall2_length.
  apply (pairForce_rel (fun _ _ => True)); auto.
Qed.

Lemma forcePass_length (dt : R) (ns : list Node.t) :
  length (forcePass dt ns) = length ns.
Proof.
  symmetry. eapply Forall2_length.
  apply (forcePass_rel (fun _ _ => True)); auto.
Qed.

Section ForcePassErasure.

Variable f : Node.t -> Node.t.
Variable dt : R.
Hypothesis f_idem : forall a, f (f a) = f a.
Hypothesis f_pair :
  forall a b,
    f (fst (pairInteraction dt (f a) (f b))) = f (fst (pairInteraction dt a b))
    /\ f (snd (pairInteraction dt (f a) (f b))) = f (snd (pairInteraction dt a b)).

Lemma pairForce_erased (ns : list Node.t) (ij : nat * nat) :
  map f (pairForce dt (map f ns) ij) = map f (pairForce dt ns ij).
Proof.
  destruct ij as [i j]. unfold pairForce. rewrite !lookup_map.
  assert (Hff : map f (map f ns) = map f ns).
  { rewrite map_map. apply map_ext. auto. }
  destruct (ns !! i) as [a|]; simpl; [|assumption].
  destruct (ns !! j) as [b|]; simpl; [|assumption].
  destruct (f_pair a b) as [Ha Hb].
  destruct (pairInteraction dt (f a) (f b)) as [a1 b1].
  destruct (pairInteraction dt a b) as [a2 b2]. simpl in Ha, Hb.
  rewrite !map_insert, Hff, Ha, Hb. reflexivity.
Qed.

Lemma fold_pairForce_erased (ps : list (nat * nat)) (ns : list Node.t) :
  map f (fold_left (pairForce dt) ps (map f ns))
  = map f (fold_left (pairForce dt) ps ns).
Proof.
  revert ns. induction ps as [|p ps IH]; intros ns; simpl.
  - rewrite map_map. apply map_ext. auto.
  - rewrite <- (IH (pairForce dt (map f ns) p)), pairForce_erased.
    apply IH.
Qed.

Lemma forcePass_erased (ns : list Node.t) :
  map f (forcePass dt (map f ns)) = map f (forcePass dt ns).
Proof. unfold forcePass. rewrite length_map. apply fold_pairForce_erased. Qed.

End ForcePassErasure.

(** ** The orbital pass, generically *)

Lemma forEach_Forall2 {A} (rel : A -> A -> Prop) (f : A -> M A) :
  (forall a w, rel a (fst (f a w))) ->
  forall l w, Forall2 rel l (fst (forEach f l w)).
Proof.
  intros Hf. induction l as [|a l IH]; intros w; simpl.
  - constructor.
  - unfold bind, ret. specialize (Hf a w). destruct (f a w) as [a' w1].
    specialize (IH w1). destruct (forEach f l w1) as [l' w2]. simpl in *.
    constructor; assumption.
Qed.

Lemma forEach_ext {A} (f g : A -> M A) :
  (forall a w, f a w = g a w) ->
  forall l w, forEach f l w = forEach g l w.
Proof.
  intros Hfg. induction l as [|a l IH]; intros w; simpl; [reflexivity|].
  unfold bind. rewrite Hfg. destruct (g a w) as [a' w1]. rewrite IH. reflexivity.
Qed.

Lemma forEach_erased {A} (e : A -> A) (f : A -> M A) :
  (forall a b w, e a = e b ->
     e (fst (f a w)) = e (fst (f b w)) /\ snd (f a w) = snd (f b w)) ->
  forall l1 l2 w,
    map e l1 = map e l2 ->
    map e (fst (forEach f l1 w)) = map e (fst (forEach f l2 w))
    /\ snd (forEach f l1 w) = snd (forEach f l2 w).
Proof.
  intros Hf. induction l1 as [|a l1 IH]; intros [|b l2] w Heq; simpl in Heq;
    try discriminate; simpl; [split; reflexivity|].
  inversion Heq as [[Hab Hl]]. unfold bind, ret.
  destruct (Hf a b w Hab) as [He Hw].
  destruct (f a w) as [a' w1], (f b w) as [b' w2]. simpl in He, Hw. subst w2.
  destruct (IH l2 w1 Hl) as [IH1 IH2].
  destruct (forEach f l1 w1) as [l1' w3], (forEach f l2 w1) as [l2' w4].
  simpl in *. split; congruence.
Qed.


Section OrbitalPassRelation.

Variable host : Host.
Variable dt : R.
Variable s : STATE.t.
Variable rel : Node.t -> Node.t -> Prop.
Hypothesis rel_trans : forall a b c, rel a b -> rel b c -> rel a c.
Hypothesis rel_driftCenters : forall time n, rel n (driftCenters dt time s n).
Hypothesis rel_advancePhases : forall n, rel n (advancePhases dt n).
Hypothesis rel_seekTarget : forall n, rel n (seekTarget dt n).
Hypothesis rel_jitter : forall time n, rel n (jitter dt time s n).
Hypothesis rel_rotate : forall n w, rel n (fst (rotate host dt n w)).

(** The orbital pass is its motion blocks, then [softWrap], then
    [recordTrail]. *)
Lemma stepNode_before_wrap (n : Node.t) (w : World) :
  exists m w1,
    stepNode host dt s n w
    = (let (m', w2) := softWrap host s m w1 in recordTrail host m' w2)
    /\ rel n m.
Proof.
  unfold stepNode, bind. destruct (performance_now host w) as [now w0].
  set (n1 := driftCenters dt (now * 0.001) s n).
  set (n2 := advancePhases dt n1).
  set (n3 := seekTarget dt n2).
  set (n4 := jitter dt (now * 0.001) s n3).
  assert (H4 : rel n n4).
  { eapply rel_trans; [apply rel_driftCenters|]. fold n1.
    eapply rel_trans; [apply rel_advancePhases|]. fold n2.
    eapply rel_trans; [apply rel_seekTarget|]. fold n3.
    apply rel_jitter. }
  pose proof (rel_rotate n4 w0) as H5.
  destruct (rotate host dt n4 w0) as [n5 w5]. simpl in H5.
  exists n5, w5. split; [reflexivity|]. eauto.
Qed.

Hypothesis rel_softWrap : forall n w, rel n (fst (softWrap host s n w)).

(** The orbital pass is its motion blocks followed by [recordTrail]. *)
Lemma stepNode_before_trail (n : Node.t) (w : World) :
  exists m w1,
    stepNode host dt s n w = recordTrail host m w1 /\ rel n m.
Proof.
  destruct (stepNode_before_wrap n w) as (m & w1 & -> & Hm).
  pose proof (rel_softWrap m w1) as H6.
  destruct (softWrap host s m w1) as [n6 w6]. simpl in H6.
  exists n6, w6. split; [reflexivity|]. eauto.
Qed.

Hypothesis rel_recordTrail : forall n w, rel n (fst (recordTrail host n w)).

Lemma stepNode_rel (n : Node.t) (w : World) :
  rel n (fst (stepNode host dt s n w)).
Proof.
  destruct (stepNode_before_trail n w) as (m & w1 & -> & Hm).
  eapply rel_trans; [exact Hm|apply rel_recordTrail].
Qed.

End OrbitalPassRelation.

Ltac wrap_cases :=
  repeat (match goal with
          | |- context [Rlt_dec ?a ?b] => destruct (Rlt_dec a b)
          | |- context [Rgt_dec ?a ?b] => destruct (Rgt_dec a b)
          end; simpl).

(** Unfolds one block of the orbital pass on a node given by its fields. *)
Ltac block n :=
  destruct n;
  unfold driftCenters, advancePhases, seekTarget, orbitTarget, jitter, rotate,
    softWrap, recordTrail, bind, ret, rand, Math_random, performance_now;
  simpl; wrap_cases; simpl.

(** *** Fields the orbital pass never writes *)

Lemma orbitalFrame_refl (n : Node.t) : orbitalFrame n n.
Proof. unfold orbitalFrame. tauto. Qed.

Lemma orbitalFrame_trans (a b c : Node.t) :
  orbitalFrame a b -> orbitalFrame b c -> orbitalFrame a c.
Proof. unfold orbitalFrame. intuition congruence. Qed.

Lemma stepNode_frame (host : Host) (dt : R) (s : STATE.t) (n : Node.t)
      (w : World) :
  orbitalFrame n (fst (stepNode host dt s n w)).
Proof.
  apply stepNode_rel; [apply orbitalFrame_trans | ..];
    intros; unfold orbitalFrame;
    match goal with n : Node.t |- _ => block n end; tauto.
Qed.

(** ** The step as a whole *)

Lemma nodes_empty_dec (s : STATE.t) :
  STATE.nodes s = [] \/ STATE.nodes s <> [].
Proof. destruct (STATE.nodes s); [left|right]; congruence. Qed.

Lemma step_empty (host : Host) (dt : R) (s : STATE.t) (w : World) :
  STATE.nodes s = [] -> step host dt s w = (s, w).
Proof. intros H. unfold step. rewrite H. reflexivity. Qed.

(** With at least one node, [step] is the flag reset, the force pass, the
    orbital pass and the link rebuild, in this order. *)
Lemma step_nonempty (host : Host) (dt : R) (s : STATE.t) (w : World) :
  STATE.nodes s <> [] ->
  let r := forEach (stepNode host dt s)
             (forcePass dt (map (Node.set_inConstellation false) (STATE.nodes s))) w in
  step host dt s w = (rebuildLinks (STATE.set_nodes (fst r) s), snd r).
Proof.
  intros H. unfold step. destruct (STATE.nodes s) as [|n ns] eqn:Hn; [contradiction|].
  cbn [length Nat.eqb]. unfold bind, ret.
  destruct (forEach _ _ w) as [ns' w']. reflexivity.
Qed.

Section StepRelation.

Variable host : Host.
Variable dt : R.
Variable s : STATE.t.
Variables relF relO : Node.t -> Node.t -> Prop.
Hypothesis relF_refl : forall a, relF a a.
Hypothesis relF_trans : forall a b c, relF a b -> relF b c -> relF a c.
Hypothesis relF_reset : forall n, relF n (Node.set_inConstellation false n).
Hypothesis relF_pair :
  forall a b, relF a (fst (pairInteraction dt a b))
              /\ relF b (snd (pairInteraction dt a b)).
Hypothesis relO_stepNode : forall n w, relO n (fst (stepNode host dt s n w)).

Lemma forces_rel (ns : list Node.t) :
  Forall2 relF ns (forcePass dt (map (Node.set_inConstellation false) ns)).
Proof.
  eapply Forall2_rel_trans; [exact relF_trans| |apply forcePass_rel; assumption].
  induction ns; simpl; constructor; auto.
Qed.

Lemma step_rel (w : World) :
  Forall2 (fun n m => exists k, relF n k /\ relO k m)
          (STATE.nodes s) (STATE.nodes (fst (step host dt s w))).
Proof.
  destruct (nodes_empty_dec s) as [Hn|Hn].
  - rewrite step_empty by assumption. simpl. rewrite Hn. constructor.
  - rewrite step_nonempty by assumption. simpl.
    eapply Forall2_trans; [|apply forces_rel|apply forEach_Forall2, relO_stepNode].
    intros x y z Hxy Hyz. eauto.
Qed.

End StepRelation.

(** The step keeps the number of nodes, the canvas size, the frame time
    and the noise seed. *)
Lemma step_frame (host : Host) (dt : R) (s : STATE.t) (w : World) :
  let s' := fst (step host dt s w) in
  length (STATE.nodes s') = length (STATE.nodes s) /\
  STATE.width s' = STATE.width s /\ STATE.height s' = STATE.height s /\
  STATE.lastTime s' = STATE.lastTime s /\ STATE.noiseSeed s' = STATE.noiseSeed s.
Proof.
  simpl. split.
  - symmetry. eapply Forall2_length.
    apply (step_rel host dt s (fun _ _ => True) (fun _ _ => True)); auto.
  - destruct (nodes_empty_dec s) as [Hn|Hn].
    + rewrite step_empty by assumption. tauto.
    + rewrite step_nonempty by assumption. simpl. tauto.
Qed.

(** C1.  After a link rebuild the node sequence is untouched and the link
    set is exactly the set of node pairs at Euclidean distance below 120:
    for distinct indices [i], [j] of nodes [a], [b] the set contains the
    pair iff [distance a b < 120]; membership does not depend on the order
    of [i] and [j]; there is no self-pair; no index pair occurs twice, in
    the same or in the opposite orientation; and each record stores the
    distance of its two nodes.  The previous link set plays no part, and
    every step that has a node to move ends with such a rebuild, on the
    positions it has just computed. *)
Theorem rebuildLinks_links (s : STATE.t) :
  let s' := rebuildLinks s in
  STATE.nodes s' = STATE.nodes s /\
  (forall i j a b,
      i <> j -> STATE.nodes s !! i = Some a -> STATE.nodes s !! j = Some b ->
      (linked (STATE.links s') i j <-> (distance a b < 120)%R)) /\
  (forall i j, linked (STATE.links s') i j <-> linked (STATE.links s') j i) /\
  (forall i, ~ linked (STATE.links s') i i) /\
  NoDup (map linkPair (STATE.links s')) /\
  (forall i j, In (i, j) (map linkPair (STATE.links s')) ->
               ~ In (j, i) (map linkPair (STATE.links s'))) /\
  (forall l, In l (STATE.links s') ->
     exists a b, STATE.nodes s !! Link.i l = Some a /\
                 STATE.nodes s !! Link.j l = Some b /\
                 Link.d l = distance a b) /\
  (forall links0,
      STATE.links (rebuildLinks (STATE.set_links links0 s)) = STATE.links s') /\
  (forall host dt w,
      STATE.nodes s <> [] ->
      rebuildLinks (fst (step host dt s w)) = fst (step host dt s w)).
Proof.
  simpl. split; [reflexivity|].
  split.
  { intros i j a b Hne Ha Hb. split.
    - intros [H|H]; apply in_linkPairs in H as (a' & b' & Hlt & Ha' & Hb' & Hd);
        unfold PHYS.constellationDistance in Hd.
      + congruence.
      + rewrite distance_sym. congruence.
    - intros Hd. destruct (Nat.lt_total i j) as [Hlt|[Heq|Hlt]]; [|contradiction|].
      + left. apply in_linkPairs. exists a, b. auto.
      + right. apply in_linkPairs. exists b, a. rewrite distance_sym. auto. }
  split; [unfold linked; tauto|].
  split.
  { intros i [H|H]; apply in_linkPairs in H as (? & ? & Hlt & _); lia. }
  split; [apply NoDup_linkPairs|].
  split.
  { intros i j H H'. apply in_linkPairs in H as (? & ? & Hlt & _).
    apply in_linkPairs in H' as (? & ? & Hlt' & _). lia. }
  split.
  { intros l Hl. apply in_buildLinks in Hl as (a & b & _ & Ha & Hb & Hd & _). eauto. }
  split; [reflexivity|].
  intros host dt w Hn. rewrite step_nonempty by assumption. reflexivity.
Qed.

(** ** Node attributes *)

Lemma rand_range (host : Host) (a b : R) (w : World) :
  randomInUnitInterval host -> (a <= b)%R ->
  (a <= fst (rand host a b w) <= b)%R.
Proof.
  intros Hr Hab. unfold rand, bind, ret, Math_random. simpl.
  specialize (Hr (randoms w)). nra.
Qed.

Lemma newNode_attributes (host : Host) (text : JS.string) (x y : R) (w : World) :
  randomInUnitInterval host -> nodeAttributes (fst (newNode host text x y w)).
Proof.
  intros Hr. unfold nodeAttributes. simpl.
  pose proof (Hr (randoms w)). pose proof (Hr (S (randoms w))).
  repeat split; lra.
Qed.

Lemma sameAttributes_refl (n : Node.t) : sameAttributes n n.
Proof. unfold sameAttributes. tauto. Qed.

Lemma sameAttributes_trans (a b c : Node.t) :
  sameAttributes a b -> sameAttributes b c -> sameAttributes a c.
Proof. unfold sameAttributes. intuition congruence. Qed.

Lemma sameAttributes_ok (n m : Node.t) :
  sameAttributes n m -> nodeAttributes n -> nodeAttributes m.
Proof.
  unfold sameAttributes, nodeAttributes. intros (_ & -> & -> & ->). tauto.
Qed.

Lemma pairInteraction_attributes (dt : R) (a b : Node.t) :
  sameAttributes a (fst (pairInteraction dt a b))
  /\ sameAttributes b (snd (pairInteraction dt a b)).
Proof.
  unfold pairInteraction, sameAttributes. destruct a, b. simpl.
  wrap_cases; simpl; tauto.
Qed.

Lemma stepNode_attributes (host : Host) (dt : R) (s : STATE.t) (n : Node.t)
      (w : World) :
  sameAttributes n (fst (stepNode host dt s n w)).
Proof.
  destruct (stepNode_frame host dt s n w) as (H1 & H2 & H3 & H4 & _).
  unfold sameAttributes. tauto.
Qed.

Lemma step_attributes (host : Host) (dt : R) (s : STATE.t) (w : World) :
  Forall2 sameAttributes (STATE.nodes s) (STATE.nodes (fst (step host dt s w))).
Proof.
  eapply Forall2_impl.
  - apply (step_rel host dt s sameAttributes sameAttributes).
    + apply sameAttributes_refl.
    + apply sameAttributes_trans.
    + intros n. destruct n. unfold sameAttributes. simpl. tauto.
    + apply pairInteraction_attributes.
    + apply stepNode_attributes.
  - intros n m (k & H1 & H2). eapply sameAttributes_trans; eassumption.
Qed.

(** An event is a step (inside a frame), or it leaves the nodes alone or
    appends nodes constructed by [newNode]. *)
Lemma handle_cases (host : Host) (e : Event) (s : STATE.t) (w : World) :
  (exists dt t,
      fst (handle host e s w) = fst (step host dt (STATE.set_lastTime t s) w))
  \/ (exists new,
        STATE.nodes (fst (handle host e s w)) = STATE.nodes s ++ new
        /\ Forall (fun n => exists text x y w0, n = fst (newNode host text x y w0)) new).
Proof.
  destruct e as [value|text x y|t|iw ih]; simpl.
  - right. unfold bind, ret, onSubmit.
    destruct (negb (JS.truthy (JS.trim (JS.or value [])))).
    + exists []. rewrite app_nil_r. simpl. split; [reflexivity|constructor].
    + unfold bind.
      destruct (rand host _ _ w) as [x w1]. destruct (rand host _ _ w1) as [y w2].
      destruct (createNode_appends host (JS.trim (JS.or value [])) (Some x) (Some y) s w2)
        as (x0 & y0 & w0 & Hc & _).
      destruct (createNode host _ _ _ s w2) as [s' w3]. simpl in *. subst s'.
      eexists [_]. simpl. split; [reflexivity|]. constructor; [eauto|constructor].
  - right. destruct (createNode_appends host text x y s w) as (x0 & y0 & w0 & Hc & _).
    rewrite Hc. eexists [_]. simpl. split; [reflexivity|].
    constructor; [eauto|constructor].
  - left. unfold frame. eauto.
  - right. exists []. rewrite app_nil_r. unfold ret. simpl.
    split; [reflexivity|constructor].
Qed.

(** Every event keeps the nodes that exist, at their index and with their
    attributes; it may append new ones, constructed by [newNode]. *)
Lemma handle_nodes (host : Host) (e : Event) (s : STATE.t) (w : World) :
  exists ns new,
    STATE.nodes (fst (handle host e s w)) = ns ++ new
    /\ Forall2 sameAttributes (STATE.nodes s) ns
    /\ Forall (fun n => exists text x y w0, n = fst (newNode host text x y w0)) new.
Proof.
  destruct (handle_cases host e s w) as [(dt & t & ->)|(new & -> & Hnew)].
  - eexists _, []. rewrite app_nil_r. split; [reflexivity|].
    split; [|constructor].
    apply (step_attributes host dt (STATE.set_lastTime t s) w).
  - exists (STATE.nodes s), new. repeat split; [|assumption].
    apply Forall_Forall2_diag, Forall_forall. intros; apply sameAttributes_refl.
Qed.

Lemma handle_attributes (host : Host) (e : Event) (s : STATE.t) (w : World) :
  randomInUnitInterval host ->
  Forall nodeAttributes (STATE.nodes s) ->
  Forall nodeAttributes (STATE.nodes (fst (handle host e s w))).
Proof.
  intros Hr Hs. destruct (handle_nodes host e s w) as (ns & new & -> & H2 & Hnew).
  apply Forall_app. split.
  - clear Hnew. induction H2; inversion Hs; subst; constructor; auto.
    eapply sameAttributes_ok; eassumption.
  - eapply Forall_impl; [exact Hnew|]. intros n (text & x & y & w0 & ->).
    apply newNode_attributes, Hr.
Qed.

Lemma run_attributes (host : Host) (es : list Event) (s : STATE.t) (w : World) :
  randomInUnitInterval host ->
  Forall nodeAttributes (STATE.nodes s) ->
  Forall nodeAttributes (STATE.nodes (fst (run host es s w))).
Proof.
  intros Hr. revert s w. induction es as [|e es IH]; intros s w Hs; simpl.
  - assumption.
  - unfold bind. pose proof (handle_attributes host e s w Hr Hs) as H.
    destruct (handle host e s w) as [s' w']. apply IH, H.
Qed.

(** C7.  With [Math.random()] in [[0, 1)]: a node is constructed with mass
    in [[0.6, 1.6]], hue in [[215, 235]] and radius [8 + mass * 3.5]; every
    event (a frame with its step and link rebuild, a form submission, a
    direct [createNode], a resize) leaves each existing node at its index
    with the same mass, hue and radius; hence in every state the page
    reaches, every node has mass in [[0.6, 1.6]], hue in [[215, 235]] and
    radius [8 + mass * 3.5]. *)
Theorem node_attributes_invariant (host : Host) :
  randomInUnitInterval host ->
  (forall text x y w, nodeAttributes (fst (newNode host text x y w))) /\
  (forall e s w i n,
      STATE.nodes s !! i = Some n ->
      exists n',
        STATE.nodes (fst (handle host e s w)) !! i = Some n'
        /\ Node.mass n' = Node.mass n /\ Node.hue n' = Node.hue n
        /\ Node.radius n' = Node.radius n) /\
  (forall innerWidth innerHeight es w,
      Forall nodeAttributes
             (STATE.nodes (fst (page host innerWidth innerHeight es w)))).
Proof.
  intros Hr. split; [|split].
  - intros. apply newNode_attributes, Hr.
  - intros e s w i n Hn.
    destruct (handle_nodes host e s w) as (ns & new & -> & H2 & _).
    destruct (Forall2_lookup_l _ _ _ _ _ H2 Hn) as (n' & Hn' & _ & Hm & Hrad & Hh).
    exists n'. rewrite lookup_app_l by (eapply lookup_lt_Some, Hn'). auto.
  - intros iw ih es w. unfold page, bind, init, ret, Math_random.
    apply run_attributes; [exact Hr|constructor].
Qed.

(** ** The noise source *)

(** No event assigns [STATE.noiseSeed]. *)
Lemma handle_noiseSeed (host : Host) (e : Event) (s : STATE.t) (w : World) :
  STATE.noiseSeed (fst (handle host e s w)) = STATE.noiseSeed s.
Proof.
  destruct e as [value|text x y|t|iw ih]; simpl.
  - unfold bind, ret, onSubmit.
    destruct (negb (JS.truthy (JS.trim (JS.or value [])))); [reflexivity|].
    unfold bind.
    destruct (rand host _ _ w) as [x w1]. destruct (rand host _ _ w1) as [y w2].
    destruct (createNode_appends host (JS.trim (JS.or value [])) (Some x) (Some y) s w2)
      as (x0 & y0 & w0 & Hc & _).
    destruct (createNode host _ _ _ s w2) as [s' w3]. simpl in *. subst s'.
    reflexivity.
  - destruct (createNode_appends host text x y s w) as (x0 & y0 & w0 & Hc & _).
    rewrite Hc. reflexivity.
  - unfold frame.
    match goal with |- context [step host ?dt ?s' w] =>
      destruct (step_frame host dt s' w) as (_ & _ & _ & _ & H)
    end.
    exact H.
  - reflexivity.
Qed.

(** In exact arithmetic [noise2] returns a value in the half-open interval
    [[0, 1)] for all arguments and every seed.  It is a function of its two
    arguments and of [STATE.noiseSeed] alone: it consumes nothing from the
    host, two states with the same seed give the same value at the same
    arguments, and no event changes the seed, so the value at given
    arguments is the same before and after any event of the page. *)
Lemma noise2_exact_arithmetic (s : STATE.t) (x y : R) :
  (0 <= noise2 s x y < 1)%R /\
  (forall s' : STATE.t,
      STATE.noiseSeed s' = STATE.noiseSeed s -> noise2 s' x y = noise2 s x y) /\
  (forall host e w, noise2 (fst (handle host e s w)) x y = noise2 s x y).
Proof.
  split; [|split].
  - unfold noise2, Math.floor.
    set (v := (Math.sin _ * _)%R).
    destruct (base_fp v) as [H0 H1]. unfold frac_part in H0, H1. lra.
  - intros s' Hseed. unfold noise2. rewrite Hseed. reflexivity.
  - intros host e w. unfold noise2. rewrite handle_noiseSeed. reflexivity.
Qed.

(** *** On doubles *)

Section NoiseOnDoubles.

Import Floats.
#[local] Set Warnings "-inexact-float".
Local Open Scope float_scope.

Example floor_samples :
  Double.floor 2.5 = 2 /\ Double.floor (-2.5) = -3
  /\ Double.floor 0.7 = 0 /\ Double.floor (-0.3) = -1
  /\ Double.floor 3 = 3 /\ Double.floor (-0) = -0
  /\ Double.floor 4503599627370495.5 = 4503599627370495
  /\ Double.floor 1e300 = 1e300
  /\ Double.floor infinity = infinity /\ Double.floor nan = nan.
Proof. repeat split. Qed.

(** A sum whose first term is [Infinity] or [NaN] is [Infinity] or
    [NaN]. *)
Lemma add_infinite_or_nan (x y : float) :
  x = infinity \/ x = nan -> x + y = infinity \/ x + y = nan.
Proof.
  intros Hx.
  assert (H : Prim2SF (x + y) = S754_infinity false \/ Prim2SF (x + y) = S754_nan).
  { rewrite add_spec. destruct Hx as [-> | ->].
    - change (Prim2SF infinity) with (S754_infinity false).
      destruct (Prim2SF y) as [sy|[|]| |sy m e]; simpl; auto.
    - change (Prim2SF nan) with S754_nan. simpl. auto. }
  destruct H as [H|H]; [left|right]; apply Prim2SF_inj; rewrite H; reflexivity.
Qed.

Lemma sin_infinite_or_nan (approx : float -> float) (x : float) :
  x = infinity \/ x = nan -> Double.sin approx x = nan.
Proof. intros [-> | ->]; reflexivity. Qed.

(** C10.  On doubles [noise2] leaves the interval [[0, 1)] at finite
    arguments.  At [x = 1e308] the product [x * 12.9898] overflows to
    [Infinity], whose sine is [NaN], and the result is [NaN], whatever [y],
    the seed and the engine's sine.  At [(-1e-30, 0)] with seed [0], with a
    sine that returns its argument of about [-1.3e-29] unchanged, [s] is
    about [-5.7e-25], its floor is [-1], and [s + 1] rounds to [1]: the
    result is [1], which is not below [1]. *)
Theorem noise2_leaves_unit_interval :
  (forall approx noiseSeed y,
      Double.noise2 approx noiseSeed 1e308 y = nan)
  /\ (forall approx,
         approx (-1e-30 * 12.9898 + 0 * 78.233 + 0)
         = -1e-30 * 12.9898 + 0 * 78.233 + 0 ->
         Double.noise2 approx 0 (-1e-30) 0 = 1)
  /\ Double.inUnitInterval nan = false
  /\ Double.inUnitInterval 1 = false.
Proof.
  split; [|split; [|split; reflexivity]].
  - intros approx noiseSeed y. unfold Double.noise2.
    replace (1e308 * 12.9898) with infinity by reflexivity.
    rewrite sin_infinite_or_nan; [reflexivity|].
    apply add_infinite_or_nan, add_infinite_or_nan. left. reflexivity.
  - intros approx H. unfold Double.noise2, Double.sin.
    replace (is_nan (-1e-30 * 12.9898 + 0 * 78.233 + 0)
             || is_infinity (-1e-30 * 12.9898 + 0 * 78.233 + 0)) with false
      by reflexivity.
    cbv iota. rewrite H. reflexivity.
Qed.

End NoiseOnDoubles.

(** ** Trails *)

(** Pushing onto a full trail of 40 samples drops the oldest one. *)
Example trailPush_full (p q : Sample.point) :
  trailPush q (p :: repeat q 39) = repeat q 40.
Proof. reflexivity. Qed.

Lemma trailPush_cases (p : Sample.point) (tr : list Sample.point) :
  (length tr < PHYS.trailKeep /\ trailPush p tr = tr ++ [p])
  \/ (PHYS.trailKeep <= length tr /\ trailPush p tr = tail (tr ++ [p])).
Proof.
  unfold trailPush. rewrite length_app. simpl.
  destruct (Nat.ltb_spec PHYS.trailKeep (length tr + 1)); [right|left];
    (split; [lia|reflexivity]).
Qed.

Lemma trailPush_length (p : Sample.point) (tr : list Sample.point) :
  length tr <= PHYS.trailKeep -> length (trailPush p tr) <= PHYS.trailKeep.
Proof.
  intros H. destruct (trailPush_cases p tr) as [[Hl ->]|[Hl ->]].
  - rewrite length_app. simpl. lia.
  - destruct tr; simpl in *; [unfold PHYS.trailKeep in *; lia|].
    rewrite length_app. simpl. lia.
Qed.

Lemma trailPush_last (p : Sample.point) (tr : list Sample.point) :
  last (trailPush p tr) = Some p.
Proof.
  destruct (trailPush_cases p tr) as [[Hl ->]|[Hl ->]].
  - apply last_snoc.
  - destruct tr as [|q tr]; [unfold PHYS.trailKeep in Hl; simpl in Hl; lia|].
    simpl. apply last_snoc.
Qed.

Lemma trailPush_drop (p : Sample.point) (tr : list Sample.point) :
  length tr <= PHYS.trailKeep ->
  trailPush p tr = drop (length (tr ++ [p]) - PHYS.trailKeep) (tr ++ [p]).
Proof.
  intros H. rewrite length_app. simpl.
  destruct (trailPush_cases p tr) as [[Hl ->]|[Hl ->]].
  - replace (length tr + 1 - PHYS.trailKeep) with 0 by lia. reflexivity.
  - replace (length tr + 1 - PHYS.trailKeep) with 1 by lia.
    destruct tr; reflexivity.
Qed.

(** Pushing the samples [ps] one after the other keeps the most recent
    [trailKeep] of them, oldest first. *)
Lemma trailPush_fifo (ps tr : list Sample.point) :
  length tr <= PHYS.trailKeep ->
  fold_left (fun tr p => trailPush p tr) ps tr
  = drop (length (tr ++ ps) - PHYS.trailKeep) (tr ++ ps).
Proof.
  revert tr. induction ps as [|p ps IH]; intros tr H; simpl.
  - rewrite app_nil_r. replace (length tr - PHYS.trailKeep) with 0 by lia.
    reflexivity.
  - rewrite IH by (apply trailPush_length, H).
    rewrite (trailPush_drop p tr H).
    set (d := length (tr ++ [p]) - PHYS.trailKeep).
    assert (Hd : d <= length (tr ++ [p])) by (unfold d; lia).
    rewrite <- drop_app_le by exact Hd.
    rewrite <- app_assoc. simpl.
    rewrite drop_drop, length_drop. f_equal.
    unfold d. rewrite !length_app. simpl. lia.
Qed.

Lemma stepNode_trail (host : Host) (dt : R) (s : STATE.t) (n : Node.t)
      (w : World) :
  let n' := fst (stepNode host dt s n w) in
  exists t,
    Node.trail n' = trailPush (Sample.mk (Node.x n') (Node.y n') t) (Node.trail n).
Proof.
  simpl.
  destruct (stepNode_before_trail host dt s (fun n m => Node.trail m = Node.trail n))
    with (n := n) (w := w) as (m & w1 & -> & Hm);
    try (intros; match goal with n : Node.t |- _ => block n end; reflexivity).
  - intros a b c Hab Hbc. congruence.
  - unfold recordTrail, bind, ret, performance_now. simpl. rewrite Hm.
    destruct m. simpl. eauto.
Qed.

Lemma step_trail (host : Host) (dt : R) (s : STATE.t) (w : World) :
  Forall2 (fun n n' => exists t,
             Node.trail n'
             = trailPush (Sample.mk (Node.x n') (Node.y n') t) (Node.trail n))
          (STATE.nodes s) (STATE.nodes (fst (step host dt s w))).
Proof.
  eapply Forall2_impl.
  - apply (step_rel host dt s (fun n m => Node.trail m = Node.trail n)
                    (fun n n' => exists t, Node.trail n'
                       = trailPush (Sample.mk (Node.x n') (Node.y n') t) (Node.trail n))).
    + reflexivity.
    + intros a b c Hab Hbc. congruence.
    + intros n. destruct n. reflexivity.
    + intros a b. unfold pairInteraction. destruct a, b. simpl.
      wrap_cases; simpl; split; reflexivity.
    + apply stepNode_trail.
  - intros n m (k & H1 & t & H2). exists t. congruence.
Qed.

Lemma handle_trail_bound (host : Host) (e : Event) (s : STATE.t) (w : World) :
  Forall (fun n => length (Node.trail n) <= PHYS.trailKeep) (STATE.nodes s) ->
  Forall (fun n => length (Node.trail n) <= PHYS.trailKeep)
         (STATE.nodes (fst (handle host e s w))).
Proof.
  intros Hs. destruct (handle_cases host e s w) as [(dt & t & ->)|(new & -> & Hnew)].
  - pose proof (step_trail host dt (STATE.set_lastTime t s) w) as H.
    simpl in H. revert Hs. induction H as [|n n' ns ns' (t0 & Hn) _ IH]; intros Hs.
    + constructor.
    + inversion Hs; subst. constructor; [|auto].
      rewrite Hn. apply trailPush_length. assumption.
  - apply Forall_app. split; [assumption|].
    eapply Forall_impl; [exact Hnew|]. intros n (text & x & y & w0 & ->).
    simpl. lia.
Qed.

Lemma run_trail_bound (host : Host) (es : list Event) (s : STATE.t) (w : World) :
  Forall (fun n => length (Node.trail n) <= PHYS.trailKeep) (STATE.nodes s) ->
  Forall (fun n => length (Node.trail n) <= PHYS.trailKeep)
         (STATE.nodes (fst (run host es s w))).
Proof.
  revert s w. induction es as [|e es IH]; intros s w Hs; simpl.
  - assumption.
  - unfold bind. pose proof (handle_trail_bound host e s w Hs) as H.
    destruct (handle host e s w) as [s' w']. apply IH, H.
Qed.

(** C6.  In every state the page reaches, every node's trail has at most
    40 samples.  A step pushes onto each node's trail one sample, the
    node's position after the step, so that the most recent sample is the
    node's current position.  Pushing [k] samples onto a trail that starts
    empty leaves the last [40] of them in insertion order: when [k > 40]
    the [k - 40] oldest are gone, first in first out. *)
Theorem trail_bounded_fifo (host : Host) :
  (forall innerWidth innerHeight es w,
      Forall (fun n => length (Node.trail n) <= 40)
             (STATE.nodes (fst (page host innerWidth innerHeight es w)))) /\
  (forall dt s w,
      Forall2 (fun n n' => exists t,
                 Node.trail n'
                 = trailPush (Sample.mk (Node.x n') (Node.y n') t) (Node.trail n)
                 /\ last (Node.trail n')
                    = Some (Sample.mk (Node.x n') (Node.y n') t))
              (STATE.nodes s) (STATE.nodes (fst (step host dt s w)))) /\
  (forall ps : list Sample.point,
      fold_left (fun tr p => trailPush p tr) ps [] = drop (length ps - 40) ps) /\
  (forall p tr, length tr <= 40 -> length (trailPush p tr) <= 40).
Proof.
  split; [|split; [|split]].
  - intros iw ih es w. unfold page, bind, init, ret, Math_random.
    apply run_trail_bound. constructor.
  - intros dt s w. eapply Forall2_impl; [apply step_trail|].
    intros n n' (t & Ht). exists t. split; [exact Ht|].
    rewrite Ht. apply trailPush_last.
  - intros ps. apply (trailPush_fifo ps []). simpl. lia.
  - intros p tr. apply trailPush_length.
Qed.

(** ** Positions do not depend on velocities *)

Lemma withVelocity_erase (n : Node.t) :
  withVelocity (Node.vx n) (Node.vy n) (eraseVelocity n) = n.
Proof. destruct n. reflexivity. Qed.

Lemma erase_withVelocity (a b : JS.value) (n : Node.t) :
  eraseVelocity (withVelocity a b n) = eraseVelocity n.
Proof. destruct n. reflexivity. Qed.

Lemma eraseVelocity_idem (n : Node.t) :
  eraseVelocity (eraseVelocity n) = eraseVelocity n.
Proof. destruct n. reflexivity. Qed.

(** No block of the orbital pass reads or writes [vx] or [vy]. *)
Lemma stepNode_velocity_blind (host : Host) (dt : R) (s : STATE.t)
      (a b : JS.value) (n : Node.t) (w : World) :
  stepNode host dt s (withVelocity a b n) w
  = (withVelocity a b (fst (stepNode host dt s n w)), snd (stepNode host dt s n w)).
Proof.
  unfold stepNode, bind. destruct (performance_now host w) as [now w0].
  assert (H1 : forall time m, driftCenters dt time s (withVelocity a b m)
                              = withVelocity a b (driftCenters dt time s m))
    by (intros time m; destruct m; reflexivity).
  assert (H2 : forall m, advancePhases dt (withVelocity a b m)
                         = withVelocity a b (advancePhases dt m))
    by (intros m; destruct m; reflexivity).
  assert (H3 : forall m, seekTarget dt (withVelocity a b m)
                         = withVelocity a b (seekTarget dt m))
    by (intros m; destruct m; reflexivity).
  assert (H4 : forall time m, jitter dt time s (withVelocity a b m)
                              = withVelocity a b (jitter dt time s m))
    by (intros time m; destruct m; reflexivity).
  assert (H5 : forall m w1, rotate host dt (withVelocity a b m) w1
                 = (withVelocity a b (fst (rotate host dt m w1)),
                    snd (rotate host dt m w1)))
    by (intros m w1; destruct m; reflexivity).
  assert (H6 : forall m w1, softWrap host s (withVelocity a b m) w1
                 = (withVelocity a b (fst (softWrap host s m w1)),
                    snd (softWrap host s m w1)))
    by (intros m w1; destruct m;
        unfold withVelocity, softWrap, bind, ret, rand, Math_random; simpl;
        wrap_cases; reflexivity).
  assert (H7 : forall m w1, recordTrail host (withVelocity a b m) w1
                 = (withVelocity a b (fst (recordTrail host m w1)),
                    snd (recordTrail host m w1)))
    by (intros m w1; destruct m; reflexivity).
  rewrite H1, H2, H3, H4, H5.
  destruct (rotate host dt _ w0) as [n5 w5]. simpl fst. simpl snd. cbv iota.
  rewrite H6. destruct (softWrap host s n5 w5) as [n6 w6]. simpl fst. simpl snd.
  cbv iota. rewrite H7. reflexivity.
Qed.

Lemma stepNode_erased (host : Host) (dt : R) (s : STATE.t) (a b : Node.t)
      (w : World) :
  eraseVelocity a = eraseVelocity b ->
  eraseVelocity (fst (stepNode host dt s a w))
  = eraseVelocity (fst (stepNode host dt s b w))
  /\ snd (stepNode host dt s a w) = snd (stepNode host dt s b w).
Proof.
  intros H.
  rewrite <- (withVelocity_erase a), <- (withVelocity_erase b), H.
  rewrite !stepNode_velocity_blind. simpl. rewrite !erase_withVelocity. auto.
Qed.

(** The orbital pass reads [STATE] only for the canvas size and the noise
    seed. *)
Lemma stepNode_state (host : Host) (dt : R) (s1 s2 : STATE.t) (n : Node.t)
      (w : World) :
  STATE.width s1 = STATE.width s2 -> STATE.height s1 = STATE.height s2 ->
  STATE.noiseSeed s1 = STATE.noiseSeed s2 ->
  stepNode host dt s1 n w = stepNode host dt s2 n w.
Proof.
  intros Hw Hh Hs.
  unfold stepNode, driftCenters, jitter, softWrap, noise2.
  rewrite Hw, Hh, Hs. reflexivity.
Qed.

Lemma pairInteraction_erased (dt : R) (a b : Node.t) :
  eraseVelocity (fst (pairInteraction dt (eraseVelocity a) (eraseVelocity b)))
  = eraseVelocity (fst (pairInteraction dt a b))
  /\ eraseVelocity (snd (pairInteraction dt (eraseVelocity a) (eraseVelocity b)))
     = eraseVelocity (snd (pairInteraction dt a b)).
Proof.
  unfold pairInteraction. destruct a, b. simpl. wrap_cases; simpl; auto.
Qed.

Lemma buildLinks_erased (ns : list Node.t) :
  buildLinks (map eraseVelocity ns) = buildLinks ns.
Proof.
  unfold buildLinks. rewrite length_map.
  generalize (indexPairs (length ns)). intros ps.
  induction ps as [|[i j] ps IH]; simpl; [reflexivity|]. rewrite IH. f_equal.
  rewrite !lookup_map. destruct (ns !! i) as [a|]; simpl; [|reflexivity].
  destruct (ns !! j) as [b|]; simpl; [|reflexivity].
  destruct a, b. reflexivity.
Qed.

Lemma forces_erased (dt : R) (ns1 ns2 : list Node.t) :
  map eraseVelocity ns1 = map eraseVelocity ns2 ->
  map eraseVelocity
      (forcePass dt (map (Node.set_inConstellation false) ns1))
  = map eraseVelocity
        (forcePass dt (map (Node.set_inConstellation false) ns2)).
Proof.
  intros H.
  assert (Hr : map eraseVelocity (map (Node.set_inConstellation false) ns1)
               = map eraseVelocity (map (Node.set_inConstellation false) ns2)).
  { assert (Hc : forall ns, map eraseVelocity (map (Node.set_inConstellation false) ns)
                            = map (Node.set_inConstellation false) (map eraseVelocity ns)).
    { intros ns. rewrite !map_map. apply map_ext. intros n. destruct n. reflexivity. }
    rewrite !Hc, H. reflexivity. }
  rewrite <- (forcePass_erased eraseVelocity dt eraseVelocity_idem
                (pairInteraction_erased dt) (map _ ns1)).
  rewrite <- (forcePass_erased eraseVelocity dt eraseVelocity_idem
                (pairInteraction_erased dt) (map _ ns2)).
  rewrite Hr. reflexivity.
Qed.

Lemma velocityEquiv_empty (s1 s2 : STATE.t) :
  velocityEquiv s1 s2 -> STATE.nodes s1 = [] -> STATE.nodes s2 = [].
Proof.
  intros (_ & _ & _ & _ & _ & H) H1. rewrite H1 in H.
  destruct (STATE.nodes s2); [reflexivity|discriminate].
Qed.

Lemma velocityEquiv_sym (s1 s2 : STATE.t) :
  velocityEquiv s1 s2 -> velocityEquiv s2 s1.
Proof. unfold velocityEquiv. intuition congruence. Qed.

Lemma eraseVelocity_fields (ns1 ns2 : list Node.t) :
  map eraseVelocity ns1 = map eraseVelocity ns2 ->
  map Node.x ns1 = map Node.x ns2 /\ map Node.y ns1 = map Node.y ns2
  /\ map Node.trail ns1 = map Node.trail ns2
  /\ map Node.inConstellation ns1 = map Node.inConstellation ns2.
Proof.
  intros H.
  assert (Hx : forall ns, map Node.x ns = map Node.x (map eraseVelocity ns))
    by (intros ns; rewrite map_map; apply map_ext; intros []; reflexivity).
  assert (Hy : forall ns, map Node.y ns = map Node.y (map eraseVelocity ns))
    by (intros ns; rewrite map_map; apply map_ext; intros []; reflexivity).
  assert (Ht : forall ns, map Node.trail ns = map Node.trail (map eraseVelocity ns))
    by (intros ns; rewrite map_map; apply map_ext; intros []; reflexivity).
  assert (Hc : forall ns, map Node.inConstellation ns
                          = map Node.inConstellation (map eraseVelocity ns))
    by (intros ns; rewrite map_map; apply map_ext; intros []; reflexivity).
  rewrite (Hx ns1), (Hx ns2), (Hy ns1), (Hy ns2), (Ht ns1), (Ht ns2),
    (Hc ns1), (Hc ns2), H. auto.
Qed.

(** C2.  Node positions are independent of node velocities.  Two states
    that are identical except in the [vx]/[vy] fields of their nodes, stepped
    with the same [dt] and the same host (randomness and clock), consume
    the same host values and end in states that are again identical except
    in [vx]/[vy]: in particular they have the same positions, the same
    trails, the same constellation flags and the same link set.  The
    orbital pass, which is the only writer of positions, neither reads nor
    writes [vx] and [vy]: it commutes with overwriting them. *)
Theorem step_velocity_noninterference (host : Host) (dt : R)
        (s1 s2 : STATE.t) (w : World) :
  velocityEquiv s1 s2 ->
  let r1 := step host dt s1 w in
  let r2 := step host dt s2 w in
  snd r1 = snd r2 /\
  velocityEquiv (fst r1) (fst r2) /\
  map Node.x (STATE.nodes (fst r1)) = map Node.x (STATE.nodes (fst r2)) /\
  map Node.y (STATE.nodes (fst r1)) = map Node.y (STATE.nodes (fst r2)) /\
  map Node.trail (STATE.nodes (fst r1)) = map Node.trail (STATE.nodes (fst r2)) /\
  STATE.links (fst r1) = STATE.links (fst r2) /\
  (forall vx vy n w0,
      stepNode host dt s1 (withVelocity vx vy n) w0
      = (withVelocity vx vy (fst (stepNode host dt s1 n w0)),
         snd (stepNode host dt s1 n w0))).
Proof.
  intros Heq. simpl.
  assert (Hmain : snd (step host dt s1 w) = snd (step host dt s2 w)
                  /\ velocityEquiv (fst (step host dt s1 w)) (fst (step host dt s2 w))).
  { destruct (nodes_empty_dec s1) as [H1|H1].
    - pose proof (velocityEquiv_empty _ _ Heq H1) as H2.
      rewrite !step_empty by assumption. auto.
    - assert (H2 : STATE.nodes s2 <> []).
      { intros H2. apply H1. eapply velocityEquiv_empty; [|exact H2].
        apply velocityEquiv_sym, Heq. }
      rewrite !step_nonempty by assumption.
      destruct Heq as (Hw & Hh & Hl & Ht & Hs & Hn).
      rewrite (forEach_ext (stepNode host dt s2) (stepNode host dt s1))
        by (intros; symmetry; apply stepNode_state; assumption).
      destruct (forEach_erased eraseVelocity (stepNode host dt s1)
                  (fun a b w0 => stepNode_erased host dt s1 a b w0)
                  _ _ w (forces_erased dt _ _ Hn)) as [Hf Hw'].
      simpl. split; [exact Hw'|].
      unfold velocityEquiv. simpl. repeat split; try assumption.
      rewrite <- (buildLinks_erased (fst (forEach (stepNode host dt s1) (forcePass dt (map _ (STATE.nodes s1))) w))).
      rewrite Hf. apply buildLinks_erased. }
  destruct Hmain as [Hw Hv]. split; [exact Hw|]. split; [exact Hv|].
  destruct Hv as (_ & _ & Hl & _ & _ & Hn).
  destruct (eraseVelocity_fields _ _ Hn) as (Hx & Hy & Ht & _).
  repeat split; try assumption.
  intros. apply stepNode_velocity_blind.
Qed.

(** ** A step with [dt = 0] *)

(** With [dt = 0] the motion blocks before the soft wrap leave position
    and phases as they are. *)
Lemma stepNode_zero_dt_motion (host : Host) (s : STATE.t) (n : Node.t)
      (w : World) :
  exists m w1,
    stepNode host 0 s n w
    = (let (m', w2) := softWrap host s m w1 in recordTrail host m' w2)
    /\ Node.x m = Node.x n /\ Node.y m = Node.y n
    /\ Node.orbitPhase m = Node.orbitPhase n
    /\ Node.secondaryPhase m = Node.secondaryPhase n.
Proof.
  apply (stepNode_before_wrap host 0 s
           (fun n m => Node.x m = Node.x n /\ Node.y m = Node.y n
                       /\ Node.orbitPhase m = Node.orbitPhase n
                       /\ Node.secondaryPhase m = Node.secondaryPhase n)).
  - intros a b c Hab Hbc. intuition congruence.
  - intros time m. block m. tauto.
  - intros m. block m. split; [|split; [|split]]; try reflexivity; ring.
  - intros m. block m. split; [|split; [|split]]; try reflexivity; ring.
  - intros time m. block m. split; [|split; [|split]]; try reflexivity; ring.
  - intros m w1. block m. tauto.
Qed.

Lemma softWrap_in_band (host : Host) (s : STATE.t) (n : Node.t) (w : World) :
  inBand s n -> softWrap host s n w = (n, w).
Proof.
  unfold inBand. intros [Hx Hy]. block n; try reflexivity; simpl in *; lra.
Qed.

(** A node left of the margin is moved to the right edge, whatever [dt]. *)
Lemma softWrap_left (host : Host) (s : STATE.t) (n : Node.t) (w : World) :
  (Node.x n < -40)%R ->
  Node.x (fst (softWrap host s n w)) = (STATE.width s + 40)%R.
Proof.
  intros Hx. block n; try reflexivity; simpl in *; lra.
Qed.

Lemma softWrap_phases (host : Host) (s : STATE.t) (n : Node.t) (w : World) :
  Node.orbitPhase (fst (softWrap host s n w)) = Node.orbitPhase n
  /\ Node.secondaryPhase (fst (softWrap host s n w)) = Node.secondaryPhase n.
Proof. block n; tauto. Qed.

Lemma recordTrail_fields (host : Host) (n : Node.t) (w : World) :
  let m := fst (recordTrail host n w) in
  Node.x m = Node.x n /\ Node.y m = Node.y n
  /\ Node.orbitPhase m = Node.orbitPhase n
  /\ Node.secondaryPhase m = Node.secondaryPhase n.
Proof. block n. tauto. Qed.

Lemma stepNode_zero_dt (host : Host) (s : STATE.t) (n : Node.t) (w : World) :
  let n' := fst (stepNode host 0 s n w) in
  Node.orbitPhase n' = Node.orbitPhase n /\
  Node.secondaryPhase n' = Node.secondaryPhase n /\
  Node.vx n' = Node.vx n /\ Node.vy n' = Node.vy n /\
  (inBand s n -> Node.x n' = Node.x n /\ Node.y n' = Node.y n) /\
  ((Node.x n < -40)%R -> Node.x n' = (STATE.width s + 40)%R).
Proof.
  simpl.
  destruct (stepNode_frame host 0 s n w) as (_&_&_&_&_&_&_&_&_&_&_&_& Hvx & Hvy).
  destruct (stepNode_zero_dt_motion host s n w) as (m & w1 & Heq & Hx & Hy & Hp & Hq).
  rewrite Heq in *. clear Heq.
  pose proof (softWrap_phases host s m w1) as [Hp' Hq'].
  pose proof (softWrap_in_band host s m w1) as Hband.
  pose proof (softWrap_left host s m w1) as Hleft.
  destruct (softWrap host s m w1) as [m' w2]. simpl in *.
  destruct (recordTrail_fields host m' w2) as (Hx2 & Hy2 & Hp2 & Hq2).
  split; [congruence|]. split; [congruence|].
  split; [exact Hvx|]. split; [exact Hvy|]. split.
  - intros Hb0.
    assert (Hb : inBand s m) by (unfold inBand in *; rewrite Hx, Hy; assumption).
    specialize (Hband Hb). inversion Hband. subst m'. split; congruence.
  - intros Hl. apply Hleft. rewrite Hx. exact Hl.
Qed.

Lemma add_assign_zero (v : JS.value) (a b : R) :
  keepsAssigned v (JS.add_assign v (a * 0 * b)).
Proof.
  intros H. destruct v; [contradiction|reflexivity|]. simpl. f_equal. ring.
Qed.

Lemma sub_assign_zero (v : JS.value) (a b : R) :
  keepsAssigned v (JS.sub_assign v (a * 0 * b)).
Proof.
  intros H. destruct v; [contradiction|reflexivity|]. simpl. f_equal. ring.
Qed.

Lemma keepsAssigned_refl (v : JS.value) : keepsAssigned v v.
Proof. intros H. reflexivity. Qed.

Lemma keepsAssigned_trans (u v w : JS.value) :
  keepsAssigned u v -> keepsAssigned v w -> keepsAssigned u w.
Proof.
  unfold keepsAssigned. intros Huv Hvw Hu. specialize (Huv Hu). subst v.
  apply Hvw, Hu.
Qed.

Lemma pairInteraction_zero_dt (a b : Node.t) :
  zeroDtForces a (fst (pairInteraction 0 a b))
  /\ zeroDtForces b (snd (pairInteraction 0 a b)).
Proof.
  unfold pairInteraction, zeroDtForces. destruct a, b. simpl.
  wrap_cases;
    repeat split;
    first [ reflexivity | apply keepsAssigned_refl
          | apply add_assign_zero | apply sub_assign_zero ].
Qed.

Lemma step_zero_dt_nodes (host : Host) (s : STATE.t) (w : World) :
  Forall2 (fun n n' =>
             zeroDtUnchanged s n n'
             /\ ((Node.x n < -40)%R -> Node.x n' = (STATE.width s + 40)%R))
          (STATE.nodes s) (STATE.nodes (fst (step host 0 s w))).
Proof.
  eapply Forall2_impl.
  - apply (step_rel host 0%R s zeroDtForces
             (fun n n' =>
                Node.orbitPhase n' = Node.orbitPhase n /\
                Node.secondaryPhase n' = Node.secondaryPhase n /\
                Node.vx n' = Node.vx n /\ Node.vy n' = Node.vy n /\
                (inBand s n -> Node.x n' = Node.x n /\ Node.y n' = Node.y n) /\
                ((Node.x n < -40)%R -> Node.x n' = (STATE.width s + 40)%R))).
    + intros a. unfold zeroDtForces. repeat split; try apply keepsAssigned_refl.
    + intros a b c (H1 & H2 & H3 & H4 & H5 & H6) (K1 & K2 & K3 & K4 & K5 & K6).
      unfold zeroDtForces. repeat split; try congruence;
        eapply keepsAssigned_trans; eassumption.
    + intros n. destruct n. unfold zeroDtForces. simpl.
      repeat split; apply keepsAssigned_refl.
    + apply pairInteraction_zero_dt.
    + apply stepNode_zero_dt.
  - intros n n' (k & (H1 & H2 & H3 & H4 & H5 & H6) & (K1 & K2 & K3 & K4 & K5 & K6)).
    unfold zeroDtUnchanged, inBand in *. rewrite H1, H2 in *.
    repeat split; try congruence.
    + rewrite K3. exact H5.
    + rewrite K4. exact H6.
    + apply K5. assumption.
    + apply K5. assumption.
    + exact K6.
Qed.

(** The frame driver does run steps with [dt = 0]: a frame whose
    timestamp equals that of the previous frame. *)
Lemma frame_same_timestamp (host : Host) (s : STATE.t) (w : World) :
  STATE.lastTime s <> 0%R ->
  frame host (STATE.lastTime s) s w
  = step host 0 (STATE.set_lastTime (STATE.lastTime s) s) w.
Proof.
  intros Ht. unfold frame. destruct (Req_dec_T (STATE.lastTime s) 0); [contradiction|].
  replace (clamp ((STATE.lastTime s - STATE.lastTime s) / 1000) 0 0.033) with 0%R;
    [reflexivity|].
  unfold clamp, Math.max, Math.min, Rmax, Rmin.
  repeat match goal with |- context [Rle_dec ?a ?b] => destruct (Rle_dec a b) end; lra.
Qed.

(** C5, as the code has it.  A step with [dt = 0] leaves both orbital
    phases of every node unchanged, leaves a velocity component that has
    been assigned (a number or [NaN]) unchanged, and leaves the position of
    every node that lies within the wrap margins ([-40 <= x <= width + 40]
    and [-40 <= y <= height + 40]) unchanged. *)
Theorem zero_dt_step (host : Host) (s : STATE.t) (w : World) :
  Forall2 (zeroDtUnchanged s)
          (STATE.nodes s) (STATE.nodes (fst (step host 0 s w))).
Proof.
  eapply Forall2_impl; [apply step_zero_dt_nodes|]. intros n n' [H _]. exact H.
Qed.

(** C5 as stated fails: a node 50 pixels left of the canvas is moved to
    the right edge by a step with [dt = 0]. *)
Lemma zero_dt_step_moves_offscreen_node :
  ~ Forall2 zeroDtNoop
      (STATE.nodes (canvasWith [steadyNode (-50) 100]))
      (STATE.nodes (fst (step steadyHost 0 (canvasWith [steadyNode (-50) 100])
                              freshWorld))).
Proof.
  intros H.
  pose proof (step_zero_dt_nodes steadyHost (canvasWith [steadyNode (-50) 100])
                freshWorld) as K.
  remember (STATE.nodes (fst (step steadyHost 0 (canvasWith [steadyNode (-50) 100])
                                  freshWorld))) as ns' eqn:E.
  clear E. change (STATE.nodes (canvasWith [steadyNode (-50) 100]))
    with [steadyNode (-50) 100] in H, K.
  inversion H as [|n n' l l' Hn _]; subst.
  inversion K as [|? ? ? ? [_ Kn] _]; subst.
  destruct Hn as [Hx _].
  change (Node.x (steadyNode (-50) 100)) with (-50)%R in Hx, Kn.
  change (STATE.width (canvasWith [steadyNode (-50) 100])) with 800%R in Kn.
  rewrite Kn in Hx by lra. lra.
Qed.

(** ** Velocities *)

Lemma Forall2_map_eq {A B} (f : A -> B) (l k : list A) :
  Forall2 (fun a b => f b = f a) l k -> map f k = map f l.
Proof. induction 1; simpl; congruence. Qed.

Lemma pairInteraction_flag_blind (dt : R) (a b : Node.t) :
  Node.set_inConstellation false
    (fst (pairInteraction dt (Node.set_inConstellation false a)
                          (Node.set_inConstellation false b)))
  = Node.set_inConstellation false (fst (pairInteraction dt a b))
  /\ Node.set_inConstellation false
       (snd (pairInteraction dt (Node.set_inConstellation false a)
                             (Node.set_inConstellation false b)))
     = Node.set_inConstellation false (snd (pairInteraction dt a b)).
Proof.
  unfold pairInteraction. destruct a, b. simpl. wrap_cases; auto.
Qed.

(** The velocities the force pass leaves do not depend on the
    constellation flags it starts from. *)
Lemma forcePass_reset_velocities (dt : R) (ns : list Node.t) :
  map Node.vx (forcePass dt (map (Node.set_inConstellation false) ns))
  = map Node.vx (forcePass dt ns)
  /\ map Node.vy (forcePass dt (map (Node.set_inConstellation false) ns))
     = map Node.vy (forcePass dt ns).
Proof.
  pose proof (forcePass_erased (Node.set_inConstellation false) dt
                (fun n => ltac:(destruct n; reflexivity))
                (pairInteraction_flag_blind dt) ns) as H.
  assert (Hx : forall l, map Node.vx (map (Node.set_inConstellation false) l)
                         = map Node.vx l)
    by (intros l; rewrite map_map; apply map_ext; intros []; reflexivity).
  assert (Hy : forall l, map Node.vy (map (Node.set_inConstellation false) l)
                         = map Node.vy l)
    by (intros l; rewrite map_map; apply map_ext; intros []; reflexivity).
  split.
  - rewrite <- (Hx (forcePass dt (map _ ns))), H. apply Hx.
  - rewrite <- (Hy (forcePass dt (map _ ns))), H. apply Hy.
Qed.

(** After a step the velocities are those the force pass left. *)
Lemma step_velocities (host : Host) (dt : R) (s : STATE.t) (w : World) :
  map Node.vx (STATE.nodes (fst (step host dt s w)))
  = map Node.vx (forcePass dt (STATE.nodes s))
  /\ map Node.vy (STATE.nodes (fst (step host dt s w)))
     = map Node.vy (forcePass dt (STATE.nodes s)).
Proof.
  destruct (nodes_empty_dec s) as [Hn|Hn].
  - rewrite step_empty by assumption. simpl. rewrite Hn. auto.
  - rewrite step_nonempty by assumption. simpl.
    destruct (forcePass_reset_velocities dt (STATE.nodes s)) as [<- <-].
    split; apply Forall2_map_eq, forEach_Forall2; intros n w0;
      destruct (stepNode_frame host dt s n w0) as (_&_&_&_&_&_&_&_&_&_&_&_& Hvx & Hvy);
      assumption.
Qed.

Lemma forcePass_single (dt : R) (ns : list Node.t) :
  length ns <= 1 -> forcePass dt ns = ns.
Proof.
  intros H. destruct ns as [|n [|m ns]]; simpl in H; try lia; reflexivity.
Qed.

Lemma frames_single_velocity (host : Host) (ts : list R) (s : STATE.t)
      (w : World) :
  length (STATE.nodes s) <= 1 ->
  map Node.vx (STATE.nodes (fst (run host (map Frame ts) s w)))
  = map Node.vx (STATE.nodes s)
  /\ map Node.vy (STATE.nodes (fst (run host (map Frame ts) s w)))
     = map Node.vy (STATE.nodes s).
Proof.
  revert s w. induction ts as [|t ts IH]; intros s w Hlen; simpl; [auto|].
  unfold bind, frame.
  match goal with |- context [step host ?dt ?s' w] =>
    pose proof (step_velocities host dt s' w) as [Hx Hy];
    pose proof (step_frame host dt s' w) as [Hl _];
    destruct (step host dt s' w) as [s1 w1]
  end.
  simpl in Hx, Hy, Hl. rewrite forcePass_single in Hx, Hy by exact Hlen.
  destruct (IH s1 w1) as [IHx IHy]; [lia|]. split; congruence.
Qed.

(** C3, as the code has it.  [step] applies no drag.  After a step every
    node's velocity is exactly what the force pass of that step left; no
    factor [0.98] is applied before or after it.  With at most one node
    there are no forces, and the velocity after any number of frames is the
    velocity before them: it stays constant and does not converge toward
    zero. *)
Theorem step_applies_no_drag (host : Host) (dt : R) (s : STATE.t) (w : World) :
  (map Node.vx (STATE.nodes (fst (step host dt s w)))
   = map Node.vx (forcePass dt (STATE.nodes s))
   /\ map Node.vy (STATE.nodes (fst (step host dt s w)))
      = map Node.vy (forcePass dt (STATE.nodes s))) /\
  (forall ts : list R,
      length (STATE.nodes s) <= 1 ->
      map Node.vx (STATE.nodes (fst (run host (map Frame ts) s w)))
      = map Node.vx (STATE.nodes s)
      /\ map Node.vy (STATE.nodes (fst (run host (map Frame ts) s w)))
         = map Node.vy (STATE.nodes s)).
Proof.
  split; [apply step_velocities|]. intros ts. apply frames_single_velocity.
Qed.

(** C3 as stated fails: the velocity [(1, 0)] of a lone node is still
    [(1, 0)] after a step, not [(0.98, 0)]; and the velocity of a lone
    freshly constructed node is still [undefined]. *)
Lemma drag_is_not_applied :
  ~ Forall2 dragApplied
      [withVelocity (JS.num 1) (JS.num 0) (steadyNode 400 300)]
      (STATE.nodes
         (fst (step steadyHost 0.016
                    (canvasWith [withVelocity (JS.num 1) (JS.num 0) (steadyNode 400 300)])
                    freshWorld)))
  /\ ~ Forall2 dragApplied
       [steadyNode 400 300]
       (STATE.nodes
          (fst (step steadyHost 0.016 (canvasWith [steadyNode 400 300]) freshWorld))).
Proof.
  split; intros H;
    match type of H with
    | Forall2 _ _ (STATE.nodes (fst (step ?h ?dt ?s ?w))) =>
        destruct (step_velocities h dt s w) as [Hx _];
        remember (STATE.nodes (fst (step h dt s w))) as ns' eqn:E; clear E
    end;
    inversion H as [|n n' l l' [Hn _] Hl]; subst; inversion Hl; subst;
    simpl in Hx; inversion Hx as [Hvx]; rewrite Hvx in Hn; simpl in Hn.
  - inversion Hn as [Hr]. unfold PHYS.globalDrag in Hr. lra.
  - discriminate Hn.
Qed.

(** ** Two nodes *)

Lemma forcePass_two (dt : R) (a b : Node.t) :
  forcePass dt [a; b]
  = [fst (pairInteraction dt a b); snd (pairInteraction dt a b)].
Proof.
  unfold forcePass. simpl. destruct (pairInteraction dt a b). reflexivity.
Qed.

Ltac phys :=
  unfold PHYS.constellationDistance, PHYS.maxLinkDistance,
    PHYS.minLinkDistance, PHYS.repulsionDistance, PHYS.repulsionStrength,
    PHYS.softAttract in *.

(** The flags the pair loop leaves on a pair, by its distance. *)
Lemma pairInteraction_flags (dt : R) (a b : Node.t) :
  let a' := fst (pairInteraction dt a b) in
  let b' := snd (pairInteraction dt a b) in
  ((distance a b + 1e-6 < 120)%R ->
   Node.inConstellation a' = true /\ Node.inConstellation b' = true) /\
  ((120 <= distance a b + 1e-6)%R ->
   Node.inConstellation a' = Node.inConstellation a
   /\ Node.inConstellation b' = Node.inConstellation b).
Proof.
  unfold pairInteraction, distance, Math.sqrt. destruct a, b. simpl.
  wrap_cases; phys; split; intros; try (exfalso; lra); auto.
Qed.

(** After a step the constellation flags are those the force pass left. *)
Lemma step_flags (host : Host) (dt : R) (s : STATE.t) (w : World) :
  STATE.nodes s <> [] ->
  map Node.inConstellation (STATE.nodes (fst (step host dt s w)))
  = map Node.inConstellation
        (forcePass dt (map (Node.set_inConstellation false) (STATE.nodes s))).
Proof.
  intros Hn. rewrite step_nonempty by assumption. simpl.
  apply Forall2_map_eq, forEach_Forall2. intros n w0.
  destruct (stepNode_frame host dt s n w0) as (_&_&_&_&_& H &_). exact H.
Qed.

Lemma distance_reset (a b : Node.t) :
  distance (Node.set_inConstellation false a) (Node.set_inConstellation false b)
  = distance a b.
Proof. destruct a, b. reflexivity. Qed.

Lemma buildLinks_two (a b : Node.t) :
  buildLinks [a; b]
  = if Rlt_dec (distance a b) 120 then [Link.mk 0 1 (distance a b)] else [].
Proof.
  unfold buildLinks, linkOf, Math.hypot, distance, PHYS.constellationDistance.
  simpl. destruct (Rlt_dec _ _); reflexivity.
Qed.

(** The flags a step leaves on a page of two nodes, by their distance
    before the step. *)
Lemma two_nodes_flags (host : Host) (dt : R) (a b : Node.t)
      (s : STATE.t) (w : World) :
  STATE.nodes s = [a; b] ->
  ((distance a b + 1e-6 < 120)%R ->
   map Node.inConstellation (STATE.nodes (fst (step host dt s w))) = [true; true])
  /\ ((120 <= distance a b + 1e-6)%R ->
      map Node.inConstellation (STATE.nodes (fst (step host dt s w)))
      = [false; false]).
Proof.
  intros Hs.
  assert (Hf : map Node.inConstellation (STATE.nodes (fst (step host dt s w)))
               = map Node.inConstellation
                     [fst (pairInteraction dt (Node.set_inConstellation false a)
                                           (Node.set_inConstellation false b));
                      snd (pairInteraction dt (Node.set_inConstellation false a)
                                           (Node.set_inConstellation false b))]).
  { rewrite step_flags by (rewrite Hs; discriminate).
    rewrite Hs. simpl map at 2. rewrite forcePass_two. reflexivity. }
  rewrite Hf.
  destruct (pairInteraction_flags dt (Node.set_inConstellation false a)
              (Node.set_inConstellation false b)) as [Hnear Hfar].
  rewrite distance_reset in Hnear, Hfar. cbn zeta in Hnear, Hfar.
  split; intros Hd.
  - destruct (Hnear Hd) as [Ha Hb]. simpl. rewrite Ha, Hb. reflexivity.
  - destruct (Hfar Hd) as [Ha Hb]. simpl. rewrite Ha, Hb.
    destruct a, b. reflexivity.
Qed.

(** The links a step leaves on a page of two nodes, by their distance
    after the step: the rebuild at the end of the step sees the positions
    the step has just computed. *)
Lemma two_nodes_links (host : Host) (dt : R) (a b : Node.t)
      (s : STATE.t) (w : World) :
  STATE.nodes s = [a; b] ->
  exists a' b',
    STATE.nodes (fst (step host dt s w)) = [a'; b']
    /\ STATE.links (fst (step host dt s w))
       = if Rlt_dec (distance a' b') 120
         then [Link.mk 0 1 (distance a' b')] else [].
Proof.
  intros Hs.
  destruct (step_frame host dt s w) as (Hlen & _).
  assert (Hl : STATE.links (fst (step host dt s w))
               = buildLinks (STATE.nodes (fst (step host dt s w)))).
  { rewrite step_nonempty by (rewrite Hs; discriminate). reflexivity. }
  rewrite Hs in Hlen. rewrite Hl.
  destruct (STATE.nodes (fst (step host dt s w))) as [|a' [|b' [|c l]]];
    try discriminate Hlen.
  exists a', b'. split; [reflexivity|]. apply buildLinks_two.
Qed.

(** C4, as the code has it.  For a state of exactly two nodes whose
    Euclidean distance is exactly 150, a step leaves both nodes with
    [inConstellation = false]: 150 is not below the constellation distance
    120, and the force pass marks the two nodes exactly when their
    distance, with its [1e-6], is below 120.  The link rebuild of the same
    step works on the positions after the motion of the step: it produces
    exactly one link, between the two nodes and holding their distance,
    when they end the step less than 120 apart, and no link otherwise. *)
Theorem two_nodes_150_apart (host : Host) (dt : R) (a b : Node.t)
        (s : STATE.t) (w : World) :
  STATE.nodes s = [a; b] ->
  exists a' b',
    STATE.nodes (fst (step host dt s w)) = [a'; b']
    /\ (distance a b = 150%R ->
        Node.inConstellation a' = false /\ Node.inConstellation b' = false)
    /\ ((distance a b + 1e-6 < 120)%R <->
        Node.inConstellation a' = true /\ Node.inConstellation b' = true)
    /\ ((120 <= distance a b + 1e-6)%R <->
        Node.inConstellation a' = false /\ Node.inConstellation b' = false)
    /\ ((distance a' b' < 120)%R ->
        STATE.links (fst (step host dt s w)) = [Link.mk 0 1 (distance a' b')])
    /\ ((120 <= distance a' b')%R ->
        STATE.links (fst (step host dt s w)) = []).
Proof.
  intros Hs.
  destruct (two_nodes_links host dt a b s w Hs) as (a' & b' & Hn & Hl).
  destruct (two_nodes_flags host dt a b s w Hs) as [Hnear Hfar].
  rewrite Hn in Hnear, Hfar. simpl in Hnear, Hfar.
  assert (Hnear' : (distance a b + 1e-6 < 120)%R ->
                   Node.inConstellation a' = true /\ Node.inConstellation b' = true).
  { intros Hd. specialize (Hnear Hd). inversion Hnear. auto. }
  assert (Hfar' : (120 <= distance a b + 1e-6)%R ->
                  Node.inConstellation a' = false /\ Node.inConstellation b' = false).
  { intros Hd. specialize (Hfar Hd). inversion Hfar. auto. }
  exists a', b'. split; [exact Hn|].
  split; [intros Hd; apply Hfar'; lra|].
  split; [|split; [|split]].
  - split; [exact Hnear'|]. intros [Ha _].
    destruct (Rlt_le_dec (distance a b + 1e-6) 120) as [Hd|Hd]; [exact Hd|].
    destruct (Hfar' Hd) as [Ha' _]. congruence.
  - split; [exact Hfar'|]. intros [Ha _].
    destruct (Rlt_le_dec (distance a b + 1e-6) 120) as [Hd|Hd]; [|exact Hd].
    destruct (Hnear' Hd) as [Ha' _]. congruence.
  - intros Hd. rewrite Hl. destruct (Rlt_dec _ 120); [reflexivity|lra].
  - intros Hd. rewrite Hl. destruct (Rlt_dec _ 120); [lra|reflexivity].
Qed.

Lemma steadyNode_distance_150 :
  distance (steadyNode 100 100) (steadyNode 250 100) = 150%R.
Proof.
  unfold distance.
  change (Node.x (steadyNode 250 100)) with 250%R.
  change (Node.x (steadyNode 100 100)) with 100%R.
  change (Node.y (steadyNode 250 100)) with 100%R.
  change (Node.y (steadyNode 100 100)) with 100%R.
  replace ((250 - 100) * (250 - 100) + (100 - 100) * (100 - 100))%R
    with (150 * 150)%R by lra.
  apply sqrt_square. lra.
Qed.

(** Two nodes on the canvas, 150 apart, stay where they are in a step
    with [dt = 0], and the rebuild of that step leaves no link. *)
Lemma two_nodes_150_apart_zero_dt :
  map Node.inConstellation
      (STATE.nodes
         (fst (step steadyHost 0
                    (canvasWith [steadyNode 100 100; steadyNode 250 100])
                    freshWorld)))
  = [false; false]
  /\ STATE.links
       (fst (step steadyHost 0
                  (canvasWith [steadyNode 100 100; steadyNode 250 100])
                  freshWorld))
     = [].
Proof.
  set (s := canvasWith [steadyNode 100 100; steadyNode 250 100]).
  assert (Hs : STATE.nodes s = [steadyNode 100 100; steadyNode 250 100])
    by reflexivity.
  split.
  - apply (two_nodes_flags steadyHost 0 _ _ s freshWorld Hs).
    rewrite steadyNode_distance_150. lra.
  - destruct (two_nodes_links steadyHost 0 _ _ s freshWorld Hs)
      as (a' & b' & Hn & Hl).
    pose proof (step_zero_dt_nodes steadyHost s freshWorld) as K.
    rewrite Hn, Hs in K.
    inversion K as [|? ? ? ? [(_ & _ & _ & _ & Ka) _] K']; subst.
    inversion K' as [|? ? ? ? [(_ & _ & _ & _ & Kb) _] _]; subst.
    assert (Ia : inBand s (steadyNode 100 100)).
    { unfold inBand.
      change (Node.x (steadyNode 100 100)) with 100%R.
      change (Node.y (steadyNode 100 100)) with 100%R.
      change (STATE.width s) with 800%R. change (STATE.height s) with 600%R. lra. }
    assert (Ib : inBand s (steadyNode 250 100)).
    { unfold inBand.
      change (Node.x (steadyNode 250 100)) with 250%R.
      change (Node.y (steadyNode 250 100)) with 100%R.
      change (STATE.width s) with 800%R. change (STATE.height s) with 600%R. lra. }
    destruct (Ka Ia) as [Hxa Hya]. destruct (Kb Ib) as [Hxb Hyb].
    assert (Hd : distance a' b' = 150%R).
    { rewrite <- steadyNode_distance_150. unfold distance.
      rewrite Hxa, Hya, Hxb, Hyb. reflexivity. }
    rewrite Hl, Hd. destruct (Rlt_dec 150 120); [lra|reflexivity].
Qed.

(** C4 as stated fails: for two nodes at [(100, 100)] and [(250, 100)],
    exactly 150 apart, it is not the case that a step marks both and
    leaves exactly one link; and in a step with [dt = 0] the same two nodes
    are left unmarked and without a link. *)
Lemma two_nodes_150_apart_not_marked :
  ~ (map Node.inConstellation
         (STATE.nodes
            (fst (step steadyHost 0.016
                       (canvasWith [steadyNode 100 100; steadyNode 250 100])
                       freshWorld)))
     = [true; true]
     /\ length
          (STATE.links
             (fst (step steadyHost 0.016
                        (canvasWith [steadyNode 100 100; steadyNode 250 100])
                        freshWorld)))
        = 1)
  /\ (map Node.inConstellation
          (STATE.nodes
             (fst (step steadyHost 0
                        (canvasWith [steadyNode 100 100; steadyNode 250 100])
                        freshWorld)))
      = [false; false]
      /\ STATE.links
           (fst (step steadyHost 0
                      (canvasWith [steadyNode 100 100; steadyNode 250 100])
                      freshWorld))
         = []).
Proof.
  split; [|exact two_nodes_150_apart_zero_dt].
  intros [H _].
  destruct (two_nodes_flags steadyHost 0.016
              (steadyNode 100 100) (steadyNode 250 100)
              (canvasWith [steadyNode 100 100; steadyNode 250 100]) freshWorld
              eq_refl) as [_ K].
  rewrite K in H; [discriminate H|]. rewrite steadyNode_distance_150. lra.
Qed.

(** ** Two nodes 10 pixels apart *)

(** The repulsion branch on a pair closer than the repulsion distance,
    when the velocities are numbers: [a] is pushed away from [b] and [b]
    away from [a], along the axis joining them. *)
Lemma repulsion_pushes_apart (dt : R) (a b : Node.t) (va vb : R) :
  Node.x a = 100%R -> Node.y a = 100%R ->
  Node.x b = 110%R -> Node.y b = 100%R ->
  Node.vx a = JS.num va -> Node.vx b = JS.num vb ->
  (0 < dt)%R -> (0 < Node.mass a)%R -> (0 < Node.mass b)%R ->
  exists va' vb',
    Node.vx (fst (pairInteraction dt a b)) = JS.num va'
    /\ Node.vx (snd (pairInteraction dt a b)) = JS.num vb'
    /\ (va' < va)%R /\ (vb < vb')%R.
Proof.
  intros Hxa Hya Hxb Hyb Hva Hvb Hdt Hma Hmb.
  unfold pairInteraction, Math.sqrt. rewrite Hxa, Hya, Hxb, Hyb.
  replace ((110 - 100) * (110 - 100) + (100 - 100) * (100 - 100))%R
    with (10 * 10)%R by lra.
  rewrite sqrt_square by lra.
  destruct a, b. simpl in *. subst. wrap_cases; phys; try (exfalso; lra).
  do 2 eexists. split; [reflexivity|]. split; [reflexivity|].
  assert (Hpos : (0 < (110 - 100) / (10 + 1e-6) * (5.0e-2 / (10 * 10 + 1e-6)))%R).
  { apply Rmult_lt_0_compat; apply Rdiv_lt_0_compat; lra. }
  split.
  - assert (0 < (110 - 100) / (10 + 1e-6) * (5.0e-2 / (10 * 10 + 1e-6)) * dt * mass0)%R
      by (apply Rmult_lt_0_compat; [apply Rmult_lt_0_compat|]; assumption).
    lra.
  - assert (0 < (110 - 100) / (10 + 1e-6) * (5.0e-2 / (10 * 10 + 1e-6)) * dt * mass)%R
      by (apply Rmult_lt_0_compat; [apply Rmult_lt_0_compat|]; assumption).
    lra.
Qed.

(** On a pair within the repulsion distance whose velocities were never
    assigned, the repulsion branch leaves [NaN] in all four velocity
    fields. *)
Lemma pairInteraction_close_undefined (dt : R) (a b : Node.t) :
  (distance a b + 1e-6 < 24)%R ->
  Node.vx a = JS.undefined -> Node.vy a = JS.undefined ->
  Node.vx b = JS.undefined -> Node.vy b = JS.undefined ->
  let a' := fst (pairInteraction dt a b) in
  let b' := snd (pairInteraction dt a b) in
  Node.vx a' = JS.NaN /\ Node.vy a' = JS.NaN
  /\ Node.vx b' = JS.NaN /\ Node.vy b' = JS.NaN.
Proof.
  unfold pairInteraction, distance, Math.sqrt. destruct a, b. simpl.
  intros Hd -> -> -> ->. wrap_cases; phys; try (exfalso; lra). auto.
Qed.

Lemma newNode_distance_10 (host : Host) (ta tb : JS.string) (wa wb : World) :
  distance (fst (newNode host ta 100 100 wa)) (fst (newNode host tb 110 100 wb))
  = 10%R.
Proof.
  unfold distance. simpl.
  replace ((110 - 100) * (110 - 100) + (100 - 100) * (100 - 100))%R
    with (10 * 10)%R by lra.
  apply sqrt_square. lra.
Qed.

(** C8, evaluated.  Start the page, add a node at [(100, 100)] and a
    second at [(110, 100)], and run the first frame (whose [dt] is
    [0.016]).  The constructor never assigns [vx] and [vy], so the
    repulsion branch computes [undefined -= ...] and [undefined += ...]:
    after the frame all four velocity components are [NaN], for every
    host. *)
Theorem close_pair_velocities_NaN (host : Host) (innerWidth innerHeight : R)
        (ta tb : JS.string) (t : R) (w : World) :
  let s := fst (page host innerWidth innerHeight
                     [CreateNode ta (Some 100%R) (Some 100%R);
                      CreateNode tb (Some 110%R) (Some 100%R);
                      Frame t] w) in
  map Node.vx (STATE.nodes s) = [JS.NaN; JS.NaN]
  /\ map Node.vy (STATE.nodes s) = [JS.NaN; JS.NaN].
Proof.
  cbv zeta. unfold page, bind.
  destruct (init host innerWidth innerHeight w) as [s0 w0] eqn:E0.
  assert (H0 : STATE.nodes s0 = []).
  { unfold init, bind, ret, Math_random in E0. inversion E0. reflexivity. }
  cbn [run handle]. unfold bind.
  destruct (createNode_appends host ta (Some 100%R) (Some 100%R) s0 w0)
    as (xa & ya & wa & Ha & Hxa & Hya).
  destruct (createNode host ta _ _ s0 w0) as [s1 w1]. cbn [fst] in Ha.
  rewrite (Hxa _ eq_refl), (Hya _ eq_refl), H0 in Ha. subst s1.
  match goal with |- context [createNode host tb ?x ?y ?s' w1] =>
    destruct (createNode_appends host tb x y s' w1)
      as (xb & yb & wb & Hb & Hxb & Hyb);
    destruct (createNode host tb x y s' w1) as [s2 w2]
  end.
  cbn [fst] in Hb. rewrite (Hxb _ eq_refl), (Hyb _ eq_refl) in Hb. subst s2.
  unfold frame, ret.
  match goal with |- context [step host ?dt ?s' w2] =>
    destruct (step_velocities host dt s' w2) as [Hx Hy];
    destruct (step host dt s' w2) as [s3 w3]
  end.
  cbn [fst STATE.nodes STATE.set_lastTime STATE.set_nodes app] in Hx, Hy |- *.
  rewrite Hx, Hy, forcePass_two.
  match goal with |- context [pairInteraction ?dt ?a ?b] =>
    pose proof (pairInteraction_close_undefined dt a b) as K
  end.
  cbv zeta in K. destruct K as (H1 & H2 & H3 & H4); try reflexivity.
  - rewrite newNode_distance_10. lra.
  - cbn [map]. rewrite H1, H2, H3, H4. auto.
Qed.

(** ** The properties at concrete inputs *)

Lemma node_attributes_invariant_witness :
  randomInUnitInterval steadyHost /\
  Forall nodeAttributes
         (STATE.nodes
            (fst (page steadyHost 800 600
                       [Submit [104%N; 105%N]; Frame 16; Frame 32] freshWorld))).
Proof.
  assert (H : randomInUnitInterval steadyHost) by (intros k; simpl; lra).
  split; [exact H|].
  destruct (node_attributes_invariant steadyHost H) as (_ & _ & K). apply K.
Defined.

Lemma step_velocity_noninterference_witness :
  velocityEquiv
    (canvasWith [steadyNode 100 100; steadyNode 110 100])
    (canvasWith [withVelocity (JS.num 3) (JS.num (-2)) (steadyNode 100 100);
                 withVelocity (JS.num 0) JS.NaN (steadyNode 110 100)])
  /\ map Node.x
         (STATE.nodes
            (fst (step steadyHost 0.016
                       (canvasWith [steadyNode 100 100; steadyNode 110 100])
                       freshWorld)))
     = map Node.x
           (STATE.nodes
              (fst (step steadyHost 0.016
                         (canvasWith
                            [withVelocity (JS.num 3) (JS.num (-2)) (steadyNode 100 100);
                             withVelocity (JS.num 0) JS.NaN (steadyNode 110 100)])
                         freshWorld))).
Proof.
  assert (H : velocityEquiv
                (canvasWith [steadyNode 100 100; steadyNode 110 100])
                (canvasWith [withVelocity (JS.num 3) (JS.num (-2)) (steadyNode 100 100);
                             withVelocity (JS.num 0) JS.NaN (steadyNode 110 100)]))
    by (repeat split; reflexivity).
  split; [exact H|].
  destruct (step_velocity_noninterference steadyHost 0.016 _ _ freshWorld H)
    as (_ & _ & K & _).
  exact K.
Defined.

Lemma two_nodes_150_apart_witness :
  distance (steadyNode 100 100) (steadyNode 250 100) = 150%R /\
  map Node.inConstellation
      (STATE.nodes
         (fst (step steadyHost 0.016
                    (canvasWith [steadyNode 100 100; steadyNode 250 100])
                    freshWorld)))
  = [false; false].
Proof.
  split; [apply steadyNode_distance_150|].
  destruct (two_nodes_150_apart steadyHost 0.016
              (steadyNode 100 100) (steadyNode 250 100)
              (canvasWith [steadyNode 100 100; steadyNode 250 100]) freshWorld
              eq_refl) as (a' & b' & Hn & K & _).
  destruct (K steadyNode_distance_150) as [Ka Kb].
  rewrite Hn. simpl. rewrite Ka, Kb. reflexivity.
Defined.

(** * Further properties *)

(** ** The frame driver *)

Lemma clamp_bounds (v a b : R) :
  (a <= b)%R -> (a <= clamp v a b <= b)%R.
Proof.
  intros Hab. unfold clamp, Math.max, Math.min, Rmin.
  destruct (Rle_dec b v); unfold Rmax; destruct (Rle_dec a _); lra.
Qed.

Lemma clamp_inside (v a b : R) :
  (a <= v <= b)%R -> clamp v a b = v.
Proof.
  intros Hv. unfold clamp, Math.max, Math.min, Rmin.
  destruct (Rle_dec b v); unfold Rmax; destruct (Rle_dec a _); lra.
Qed.

(** The [dt] of a frame. *)
Lemma frame_dt (host : Host) (t : R) (s : STATE.t) (w : World) :
  exists dt,
    (0 <= dt <= 0.033)%R
    /\ frame host t s w = step host dt (STATE.set_lastTime t s) w.
Proof.
  unfold frame. destruct (Req_dec_T (STATE.lastTime s) 0).
  - exists 0.016%R. split; [lra|reflexivity].
  - eexists. split; [|reflexivity]. apply clamp_bounds. lra.
Qed.

(** X1.  [clamp(v, a, b)] with [a <= b] lies in [[a, b]], it is [v] when
    [v] already lies there, [a] when [v] is below and [b] when [v] is
    above. *)
Theorem clamp_saturates (v a b : R) :
  (a <= b)%R ->
  (a <= clamp v a b <= b)%R
  /\ ((a <= v <= b)%R -> clamp v a b = v)
  /\ ((v <= a)%R -> clamp v a b = a)
  /\ ((b <= v)%R -> clamp v a b = b).
Proof.
  intros Hab. split; [apply clamp_bounds, Hab|]. split; [apply clamp_inside|].
  unfold clamp, Math.max, Math.min, Rmin.
  split; intros Hv;
    destruct (Rle_dec b v); unfold Rmax; destruct (Rle_dec a _); lra.
Qed.

Lemma clamp_saturates_witness :
  (0 <= 0.033)%R /\ clamp 5 0 0.033 = 0.033%R.
Proof.
  assert (H : (0 <= 0.033)%R) by lra.
  split; [exact H|].
  destruct (clamp_saturates 5 0 0.033 H) as (_ & _ & _ & K). apply K. lra.
Defined.

(** X2.  Every frame runs [step] with a [dt] between 0 and 0.033 seconds,
    whatever the timestamps are: [0.016] on the first frame (while
    [lastTime] is 0), the elapsed seconds afterwards when they lie in that
    range, 0 when the clock went backwards and 0.033 after a long pause.
    The frame stores its timestamp in [lastTime]. *)
Theorem frame_dt_bounded (host : Host) (t : R) (s : STATE.t) (w : World) :
  exists dt,
    (0 <= dt <= 0.033)%R
    /\ frame host t s w = step host dt (STATE.set_lastTime t s) w
    /\ STATE.lastTime (fst (frame host t s w)) = t
    /\ (STATE.lastTime s = 0%R -> dt = 0.016%R)
    /\ (STATE.lastTime s <> 0%R ->
        (0 <= t - STATE.lastTime s <= 33)%R ->
        dt = ((t - STATE.lastTime s) / 1000)%R)
    /\ (STATE.lastTime s <> 0%R -> (t <= STATE.lastTime s)%R -> dt = 0%R)
    /\ (STATE.lastTime s <> 0%R -> (33 <= t - STATE.lastTime s)%R -> dt = 0.033%R).
Proof.
  unfold frame. destruct (Req_dec_T (STATE.lastTime s) 0) as [H0|H0].
  - exists 0.016%R. split; [lra|]. split; [reflexivity|].
    split; [apply step_frame|]. repeat split; intros; try contradiction; reflexivity.
  - eexists. split; [apply clamp_bounds; lra|]. split; [reflexivity|].
    split; [apply step_frame|].
    split; [intros; contradiction|].
    unfold clamp, Math.max, Math.min, Rmin.
    repeat split; intros;
      destruct (Rle_dec 0.033 _); unfold Rmax; destruct (Rle_dec 0 _); lra.
Qed.

(** ** The soft wrap *)

Lemma softWrap_band (host : Host) (s : STATE.t) (n : Node.t) (w : World) :
  (-80 <= STATE.width s)%R -> (-80 <= STATE.height s)%R ->
  inBand s (fst (softWrap host s n w)).
Proof.
  intros Hw Hh. unfold inBand. block n; simpl in *; lra.
Qed.

Lemma stepNode_band (host : Host) (dt : R) (s : STATE.t) (n : Node.t)
      (w : World) :
  (-80 <= STATE.width s)%R -> (-80 <= STATE.height s)%R ->
  inBand s (fst (stepNode host dt s n w)).
Proof.
  intros Hw Hh.
  destruct (stepNode_before_wrap host dt s (fun _ _ => True)) with (n := n) (w := w)
    as (m & w1 & -> & _); auto.
  pose proof (softWrap_band host s m w1 Hw Hh) as Hb.
  destruct (softWrap host s m w1) as [m' w2]. simpl in Hb.
  destruct (recordTrail_fields host m' w2) as (Hx & Hy & _).
  unfold inBand in *. rewrite Hx, Hy. exact Hb.
Qed.

(** X3.  On a canvas whose width and height are at least [-80] (every
    real canvas), a step leaves every node within the wrap margins:
    [-40 <= x <= width + 40] and [-40 <= y <= height + 40]. *)
Theorem step_keeps_nodes_in_band (host : Host) (dt : R) (s : STATE.t)
        (w : World) :
  (-80 <= STATE.width s)%R -> (-80 <= STATE.height s)%R ->
  Forall (inBand (fst (step host dt s w))) (STATE.nodes (fst (step host dt s w))).
Proof.
  intros Hw Hh.
  destruct (nodes_empty_dec s) as [Hn|Hn].
  { rewrite step_empty by assumption. simpl. rewrite Hn. constructor. }
  assert (Hb : Forall (inBand s) (STATE.nodes (fst (step host dt s w)))).
  { rewrite step_nonempty by assumption. simpl.
    eapply Forall2_Forall_r; [apply (forEach_Forall2 (fun _ m => inBand s m))|].
    - intros n w0. apply stepNode_band; assumption.
    - apply Forall_forall. auto. }
  destruct (step_frame host dt s w) as (_ & Hw' & Hh' & _).
  eapply Forall_impl; [exact Hb|]. intros n. unfold inBand. rewrite Hw', Hh'. auto.
Qed.

Lemma step_keeps_nodes_in_band_witness :
  (-80 <= STATE.width (canvasWith [steadyNode (-50) 100]))%R
  /\ Forall (inBand (fst (step steadyHost 0 (canvasWith [steadyNode (-50) 100])
                               freshWorld)))
            (STATE.nodes (fst (step steadyHost 0 (canvasWith [steadyNode (-50) 100])
                                    freshWorld))).
Proof.
  assert (Hw : (-80 <= STATE.width (canvasWith [steadyNode (-50) 100]))%R)
    by (simpl; lra).
  assert (Hh : (-80 <= STATE.height (canvasWith [steadyNode (-50) 100]))%R)
    by (simpl; lra).
  split; [exact Hw|].
  apply (step_keeps_nodes_in_band steadyHost 0 _ freshWorld Hw Hh).
Defined.

(** ** Links and nodes over the life of the page *)

Lemma buildLinks_in_bounds (nodes : list Node.t) :
  Forall (linkInBounds nodes) (buildLinks nodes).
Proof.
  apply Forall_forall. intros l Hl. apply list_elem_of_In in Hl.
  apply in_buildLinks in Hl as (a & b & Hlt & _ & Hb & _).
  split; [exact Hlt|]. eapply lookup_lt_Some, Hb.
Qed.

(** A step leaves no link (on an empty page) or rebuilds them all. *)
Lemma step_links (host : Host) (dt : R) (s : STATE.t) (w : World) :
  (STATE.nodes s = [] /\ fst (step host dt s w) = s)
  \/ STATE.links (fst (step host dt s w))
     = buildLinks (STATE.nodes (fst (step host dt s w))).
Proof.
  destruct (nodes_empty_dec s) as [Hn|Hn].
  - left. rewrite step_empty by assumption. auto.
  - right. rewrite step_nonempty by assumption. reflexivity.
Qed.

(** Events other than frames leave the links alone and only append
    nodes. *)
Lemma handle_appends (host : Host) (e : Event) (s : STATE.t) (w : World) :
  (exists t, e = Frame t)
  \/ (STATE.links (fst (handle host e s w)) = STATE.links s
      /\ exists new, STATE.nodes (fst (handle host e s w)) = STATE.nodes s ++ new).
Proof.
  destruct e as [value|text x y|t|iw ih]; simpl; [right|right|left; eauto|right].
  - unfold bind, ret, onSubmit.
    destruct (negb (JS.truthy (JS.trim (JS.or value [])))).
    + simpl. split; [reflexivity|]. exists []. rewrite app_nil_r. reflexivity.
    + unfold bind.
      destruct (rand host _ _ w) as [x w1]. destruct (rand host _ _ w1) as [y w2].
      destruct (createNode_appends host (JS.trim (JS.or value [])) (Some x) (Some y) s w2)
        as (x0 & y0 & w0 & Hc & _).
      destruct (createNode host _ _ _ s w2) as [s' w3]. simpl in *. subst s'.
      simpl. eauto.
  - destruct (createNode_appends host text x y s w) as (x0 & y0 & w0 & Hc & _).
    rewrite Hc. simpl. eauto.
  - unfold ret. simpl. split; [reflexivity|]. exists []. rewrite app_nil_r. reflexivity.
Qed.

Lemma handle_links_in_bounds (host : Host) (e : Event) (s : STATE.t) (w : World) :
  Forall (linkInBounds (STATE.nodes s)) (STATE.links s) ->
  Forall (linkInBounds (STATE.nodes (fst (handle host e s w))))
         (STATE.links (fst (handle host e s w))).
Proof.
  intros Hs. destruct (handle_appends host e s w) as [[t ->]|[Hl [new Hn]]].
  - simpl. unfold frame.
    match goal with |- context [step host ?dt ?s' w] =>
      destruct (step_links host dt s' w) as [[_ ->]| ->]
    end.
    + exact Hs.
    + apply buildLinks_in_bounds.
  - rewrite Hl, Hn. eapply Forall_impl; [exact Hs|].
    intros l [H1 H2]. split; [exact H1|]. rewrite length_app. lia.
Qed.

Lemma run_links_in_bounds (host : Host) (es : list Event) (s : STATE.t) (w : World) :
  Forall (linkInBounds (STATE.nodes s)) (STATE.links s) ->
  Forall (linkInBounds (STATE.nodes (fst (run host es s w))))
         (STATE.links (fst (run host es s w))).
Proof.
  revert s w. induction es as [|e es IH]; intros s w Hs; simpl; [assumption|].
  unfold bind. pose proof (handle_links_in_bounds host e s w Hs) as H.
  destruct (handle host e s w) as [s' w']. apply IH, H.
Qed.

Lemma page_links_in_bounds (host : Host) (innerWidth innerHeight : R)
      (es : list Event) (w : World) :
  Forall (linkInBounds (STATE.nodes (fst (page host innerWidth innerHeight es w))))
         (STATE.links (fst (page host innerWidth innerHeight es w))).
Proof.
  unfold page, bind, init, ret, Math_random.
  apply run_links_in_bounds. constructor.
Qed.

(** X4.  In every state the page reaches, every link record refers to two
    existing nodes, the first index below the second: [drawLinks] never
    reads a node that is not there. *)
Theorem links_refer_to_nodes (host : Host) (innerWidth innerHeight : R)
        (es : list Event) (w : World) :
  let s := fst (page host innerWidth innerHeight es w) in
  Forall (fun l => Link.i l < Link.j l /\ Link.j l < length (STATE.nodes s)
                   /\ is_Some (STATE.nodes s !! Link.i l)
                   /\ is_Some (STATE.nodes s !! Link.j l))
         (STATE.links s).
Proof.
  simpl. pose proof (page_links_in_bounds host innerWidth innerHeight es w) as H.
  revert H. generalize (fst (page host innerWidth innerHeight es w)).
  intros s H. eapply Forall_impl; [exact H|].
  intros l [H1 H2]. split; [exact H1|]. split; [exact H2|].
  split; apply lookup_lt_is_Some; lia.
Qed.

Lemma handle_texts (host : Host) (e : Event) (s : STATE.t) (w : World) :
  map Node.text (STATE.nodes (fst (handle host e s w)))
  = map Node.text (STATE.nodes s) ++ addedTexts e.
Proof.
  destruct e as [value|text x y|t|iw ih]; simpl.
  - unfold onSubmit, bind, ret.
    destruct (JS.truthy (JS.trim (JS.or value []))); cbn [negb].
    + destruct (rand host _ _ w) as [x w1]. destruct (rand host _ _ w1) as [y w2].
      destruct (createNode_appends host (JS.trim (JS.or value [])) (Some x) (Some y) s w2)
        as (x0 & y0 & w0 & Hc & _).
      destruct (createNode host _ _ _ s w2) as [s' w3]. cbn [fst] in *. subst s'.
      cbn [STATE.nodes STATE.set_nodes]. rewrite map_app. reflexivity.
    + cbn [fst]. rewrite app_nil_r. reflexivity.
  - destruct (createNode_appends host text x y s w) as (x0 & y0 & w0 & Hc & _).
    rewrite Hc. simpl. rewrite map_app. reflexivity.
  - rewrite app_nil_r. unfold frame.
    apply Forall2_map_eq.
    match goal with |- context [step host ?dt ?s' w] =>
      pose proof (step_attributes host dt s' w) as H
    end.
    simpl in H. eapply Forall2_impl; [exact H|]. intros a b (Ht & _). exact Ht.
  - rewrite app_nil_r. reflexivity.
Qed.

Lemma run_texts (host : Host) (es : list Event) (s : STATE.t) (w : World) :
  map Node.text (STATE.nodes (fst (run host es s w)))
  = map Node.text (STATE.nodes s) ++ flat_map addedTexts es.
Proof.
  revert s w. induction es as [|e es IH]; intros s w; simpl.
  - rewrite app_nil_r. reflexivity.
  - unfold bind. pose proof (handle_texts host e s w) as H.
    destruct (handle host e s w) as [s' w']. simpl in H.
    rewrite IH, H, <- app_assoc. reflexivity.
Qed.

(** X5.  Nodes are only ever appended: after any sequence of events the
    texts of the nodes, in order, are the texts the events added, in order
    (the trimmed value of each non-blank form submission and the text of
    each direct [createNode]); frames and resizes add and remove nothing.
    In particular the number of nodes is the number of accepted
    additions. *)
Theorem node_texts_are_added_texts (host : Host) (innerWidth innerHeight : R)
        (es : list Event) (w : World) :
  let s := fst (page host innerWidth innerHeight es w) in
  map Node.text (STATE.nodes s) = flat_map addedTexts es
  /\ length (STATE.nodes s) = length (flat_map addedTexts es).
Proof.
  simpl.
  assert (H : map Node.text
                (STATE.nodes (fst (page host innerWidth innerHeight es w)))
              = flat_map addedTexts es).
  { unfold page, bind, init, ret, Math_random.
    etransitivity; [apply run_texts|reflexivity]. }
  split; [exact H|]. rewrite <- H, length_map. reflexivity.
Qed.

(** ** Invariants of the nodes over the life of the page *)

(** An event is a step with a [dt] of a frame, or it leaves the links
    alone and appends nodes constructed by [newNode]. *)
Lemma handle_step_or_append (host : Host) (e : Event) (s : STATE.t) (w : World) :
  (exists dt t,
      (0 <= dt <= 0.033)%R
      /\ handle host e s w = step host dt (STATE.set_lastTime t s) w)
  \/ (exists new,
        STATE.nodes (fst (handle host e s w)) = STATE.nodes s ++ new
        /\ STATE.links (fst (handle host e s w)) = STATE.links s
        /\ STATE.width (fst (handle host e s w)) = STATE.width s
        /\ STATE.height (fst (handle host e s w)) = STATE.height s
        /\ Forall (fun n => exists text x y w0, n = fst (newNode host text x y w0)) new)
  \/ (exists iw ih, e = Resize iw ih).
Proof.
  destruct e as [value|text x y|t|iw ih]; simpl.
  - right. left. unfold onSubmit, bind, ret.
    destruct (negb (JS.truthy (JS.trim (JS.or value [])))).
    + exists []. rewrite app_nil_r. cbn [fst]. repeat split. constructor.
    + destruct (rand host _ _ w) as [x w1]. destruct (rand host _ _ w1) as [y w2].
      destruct (createNode_appends host (JS.trim (JS.or value [])) (Some x) (Some y) s w2)
        as (x0 & y0 & w0 & Hc & _).
      destruct (createNode host _ _ _ s w2) as [s' w3]. cbn [fst] in *. subst s'.
      eexists [_]. cbn [STATE.nodes STATE.links STATE.width STATE.height STATE.set_nodes].
      repeat split. constructor; [eauto|constructor].
  - right. left.
    destruct (createNode_appends host text x y s w) as (x0 & y0 & w0 & Hc & _).
    rewrite Hc. eexists [_].
    cbn [STATE.nodes STATE.links STATE.width STATE.height STATE.set_nodes].
    repeat split. constructor; [eauto|constructor].
  - left. destruct (frame_dt host t s w) as (dt & Hdt & Hf). eauto.
  - right. right. eauto.
Qed.

Section PageInvariant.

Variable host : Host.
Variable P : Node.t -> Prop.
Hypothesis P_new : forall text x y w, P (fst (newNode host text x y w)).
Hypothesis P_reset : forall n, P n -> P (Node.set_inConstellation false n).
Hypothesis P_pair :
  forall dt a b,
    (P a -> P (fst (pairInteraction dt a b)))
    /\ (P b -> P (snd (pairInteraction dt a b))).
Hypothesis P_stepNode :
  forall dt s n w, (0 <= dt <= 0.033)%R -> P n -> P (fst (stepNode host dt s n w)).

Lemma step_invariant (dt : R) (s : STATE.t) (w : World) :
  (0 <= dt <= 0.033)%R ->
  Forall P (STATE.nodes s) -> Forall P (STATE.nodes (fst (step host dt s w))).
Proof.
  intros Hdt Hs.
  pose proof (step_rel host dt s (fun n m => P n -> P m) (fun n m => P n -> P m)) as H.
  specialize (H (fun a Ha => Ha) (fun a b c Hab Hbc Ha => Hbc (Hab Ha))
                P_reset (P_pair dt) (fun n w0 => P_stepNode dt s n w0 Hdt) w).
  revert Hs. induction H as [|n m ns ms (k & H1 & H2) _ IH]; intros Hs.
  - constructor.
  - inversion Hs; subst. constructor; auto.
Qed.

Lemma handle_invariant (e : Event) (s : STATE.t) (w : World) :
  Forall P (STATE.nodes s) -> Forall P (STATE.nodes (fst (handle host e s w))).
Proof.
  intros Hs.
  destruct (handle_step_or_append host e s w)
    as [(dt & t & Hdt & ->)|[(new & -> & _ & _ & _ & Hnew)|(iw & ih & ->)]].
  - apply (step_invariant dt (STATE.set_lastTime t s) w Hdt). exact Hs.
  - apply Forall_app. split; [exact Hs|].
    eapply Forall_impl; [exact Hnew|]. intros n (text & x & y & w0 & ->). apply P_new.
  - exact Hs.
Qed.

Lemma run_invariant (es : list Event) (s : STATE.t) (w : World) :
  Forall P (STATE.nodes s) -> Forall P (STATE.nodes (fst (run host es s w))).
Proof.
  revert s w. induction es as [|e es IH]; intros s w Hs; simpl; [assumption|].
  unfold bind. pose proof (handle_invariant e s w Hs) as H.
  destruct (handle host e s w) as [s' w']. apply IH, H.
Qed.

Lemma page_invariant (innerWidth innerHeight : R) (es : list Event) (w : World) :
  Forall P (STATE.nodes (fst (page host innerWidth innerHeight es w))).
Proof.
  unfold page, bind, init, ret, Math_random. apply run_invariant. constructor.
Qed.

End PageInvariant.

Lemma newNode_constructedRanges (host : Host) (text : JS.string) (x y : R)
      (w : World) :
  randomInUnitInterval host -> constructedRanges (fst (newNode host text x y w)).
Proof.
  intros Hr. unfold constructedRanges. simpl. pose proof PI_RGT_0 as Hpi.
  unfold Math.PI.
  repeat match goal with
         | |- context [random_at host ?k] =>
             lazymatch goal with
             | H : (0 <= random_at host k < 1)%R |- _ => fail
             | _ => pose proof (Hr k)
             end
         end.
  repeat split; try lra; try nra;
    match goal with
    | |- context [Rgt_dec ?a ?b] => destruct (Rgt_dec a b); [left|right]; reflexivity
    end.
Qed.

Lemma orbitalFrame_constructedRanges (n m : Node.t) :
  orbitalFrame n m -> constructedRanges n -> constructedRanges m.
Proof.
  unfold orbitalFrame, constructedRanges.
  intros (_& -> & -> & -> & -> &_& -> & -> & -> & -> & -> & -> &_). tauto.
Qed.

(** X6.  With [Math.random()] in [[0, 1)], in every state the page
    reaches every node has the constants of its construction in their
    ranges: mass in [[0.6, 1.6]], radius [8 + 3.5 mass], hue in
    [[215, 235]], orbit radius in [[120, 300]], orbit speed in
    [[0.3, 1.2]], secondary radius in [[60, 150]], secondary speed in
    [[0.8, 2.5]], both directions [1] or [-1], turbulence phase in
    [[0, 2 pi]]. *)
Theorem constructed_ranges_invariant (host : Host) (innerWidth innerHeight : R)
        (es : list Event) (w : World) :
  randomInUnitInterval host ->
  Forall constructedRanges
         (STATE.nodes (fst (page host innerWidth innerHeight es w))).
Proof.
  intros Hr. apply page_invariant.
  - intros. apply newNode_constructedRanges, Hr.
  - intros n. destruct n. exact (fun H => H).
  - intros dt a b. unfold pairInteraction, constructedRanges. destruct a, b. simpl.
    wrap_cases; auto.
  - intros dt s n w0 _. apply orbitalFrame_constructedRanges, stepNode_frame.
Qed.

Lemma steadyHost_random : randomInUnitInterval steadyHost.
Proof. intros k. simpl. lra. Defined.

Lemma constructed_ranges_invariant_witness :
  randomInUnitInterval steadyHost /\
  Forall constructedRanges
         (STATE.nodes
            (fst (page steadyHost 800 600
                       [Submit [104%N; 105%N]; Frame 16; Frame 32] freshWorld))).
Proof.
  split; [exact steadyHost_random|].
  apply (constructed_ranges_invariant steadyHost 800 600 _ freshWorld steadyHost_random).
Defined.

Lemma rotate_angularVel (host : Host) (dt : R) (n : Node.t) (w : World) :
  randomInUnitInterval host -> (0 <= dt <= 0.033)%R ->
  angularVelBounded n -> angularVelBounded (fst (rotate host dt n w)).
Proof.
  intros Hr Hdt. unfold angularVelBounded. destruct n.
  unfold rotate, bind, ret, rand, Math_random. simpl.
  pose proof (Hr (randoms w)). intros Hn. nra.
Qed.

(** X7.  With [Math.random()] in [[0, 1)], in every state the page
    reaches the angular velocity of every node lies in [[-0.01, 0.08]]: it
    starts in [[0.02, 0.08]] and each frame pulls it toward zero by a
    tenth of itself per second, plus a random nudge of at most [0.001] per
    second. *)
Theorem angular_velocity_bounded (host : Host) (innerWidth innerHeight : R)
        (es : list Event) (w : World) :
  randomInUnitInterval host ->
  Forall angularVelBounded
         (STATE.nodes (fst (page host innerWidth innerHeight es w))).
Proof.
  intros Hr. apply page_invariant.
  - intros. unfold angularVelBounded. simpl.
    pose proof (Hr (S (S (S (randoms w0))))). lra.
  - intros n. destruct n. exact (fun H => H).
  - intros dt a b. unfold pairInteraction, angularVelBounded. destruct a, b. simpl.
    wrap_cases; auto.
  - intros dt s n w0 Hdt.
    apply (stepNode_rel host dt s (fun n m => angularVelBounded n -> angularVelBounded m)).
    + intros a b c Hab Hbc Ha. auto.
    + intros time m. block m. auto.
    + intros m. block m. auto.
    + intros m. block m. auto.
    + intros time m. block m. auto.
    + intros m w1. apply rotate_angularVel; assumption.
    + intros m w1. unfold angularVelBounded. block m; auto.
    + intros m w1. block m. auto.
Qed.

Lemma angular_velocity_bounded_witness :
  randomInUnitInterval steadyHost /\
  Forall angularVelBounded
         (STATE.nodes
            (fst (page steadyHost 800 600
                       [Submit [104%N; 105%N]; Frame 16; Frame 32] freshWorld))).
Proof.
  split; [exact steadyHost_random|].
  apply (angular_velocity_bounded steadyHost 800 600 _ freshWorld steadyHost_random).
Defined.

(** ** The pair loop *)

Lemma pairInteraction_position (dt : R) (a b : Node.t) :
  samePosition a (fst (pairInteraction dt a b))
  /\ samePosition b (snd (pairInteraction dt a b)).
Proof.
  unfold pairInteraction, samePosition. destruct a, b. simpl.
  wrap_cases; auto.
Qed.

Lemma near_samePosition (a b a' b' : Node.t) :
  samePosition a a' -> samePosition b b' -> near a b <-> near a' b'.
Proof.
  unfold samePosition, near, distance. intros [-> ->] [-> ->]. tauto.
Qed.

Lemma near_sym (a b : Node.t) : near a b -> near b a.
Proof. unfold near. rewrite (distance_sym a b). auto. Qed.

Lemma nearAt_samePosition (ns ms : list Node.t) (i j : nat) :
  Forall2 samePosition ns ms -> nearAt ns i j <-> nearAt ms i j.
Proof.
  intros H. split; intros (a & b & Ha & Hb & Hn).
  - destruct (Forall2_lookup_l _ _ _ _ _ H Ha) as (a' & Ha' & Hpa).
    destruct (Forall2_lookup_l _ _ _ _ _ H Hb) as (b' & Hb' & Hpb).
    exists a', b'. split; [assumption|]. split; [assumption|].
    apply (near_samePosition a b a' b'); assumption.
  - destruct (Forall2_lookup_r _ _ _ _ _ H Ha) as (a' & Ha' & Hpa).
    destruct (Forall2_lookup_r _ _ _ _ _ H Hb) as (b' & Hb' & Hpb).
    exists a', b'. split; [assumption|]. split; [assumption|].
    apply (near_samePosition a' b' a b); assumption.
Qed.

(** What one iteration of the pair loop leaves at index [k]. *)
Lemma pairForce_lookup (dt : R) (ns : list Node.t) (i j k : nat) (a b : Node.t) :
  ns !! i = Some a -> ns !! j = Some b ->
  pairForce dt ns (i, j) !! k
  = if decide (k = j) then Some (snd (pairInteraction dt a b))
    else if decide (k = i) then Some (fst (pairInteraction dt a b))
    else ns !! k.
Proof.
  intros Ha Hb. unfold pairForce. rewrite Ha, Hb.
  destruct (pairInteraction dt a b) as [a' b']. cbn [fst snd].
  apply lookup_lt_Some in Ha as Hi. apply lookup_lt_Some in Hb as Hj.
  destruct (decide (k = j)) as [->|Hkj].
  - apply list_lookup_insert_eq. rewrite length_insert. exact Hj.
  - rewrite list_lookup_insert_ne by congruence.
    destruct (decide (k = i)) as [->|Hki].
    + apply list_lookup_insert_eq. exact Hi.
    + apply list_lookup_insert_ne. congruence.
Qed.

Lemma pairForce_flagged (dt : R) (ns : list Node.t) (i j k : nat) :
  flagged (pairForce dt ns (i, j)) k
  <-> flagged ns k \/ ((k = i \/ k = j) /\ nearAt ns i j).
Proof.
  destruct (ns !! i) as [a|] eqn:Ha; cycle 1.
  { unfold pairForce. rewrite Ha.
    split; [auto|]. intros [H|(_ & a & b & Ha' & _)]; [exact H|congruence]. }
  destruct (ns !! j) as [b|] eqn:Hb; cycle 1.
  { unfold pairForce. rewrite Ha, Hb.
    split; [auto|]. intros [H|(_ & a' & b' & _ & Hb' & _)]; [exact H|congruence]. }
  unfold flagged. rewrite (pairForce_lookup dt ns i j k a b Ha Hb).
  destruct (pairInteraction_flags dt a b) as [Hnear Hfar]. cbn zeta in Hnear, Hfar.
  assert (Hat : nearAt ns i j <-> near a b).
  { split; [intros (a' & b' & Ha' & Hb' & H); congruence|].
    intros H. exists a, b. auto. }
  rewrite Hat. unfold near, PHYS.constellationDistance.
  destruct (Rlt_dec (distance a b + 1e-6) 120) as [Hd|Hd].
  - destruct (Hnear Hd) as [Hfa Hfb].
    destruct (decide (k = j)) as [->|Hkj]; [|destruct (decide (k = i)) as [->|Hki]].
    + split; [intros _; right; auto|intros _; eauto].
    + split; [intros _; right; auto|intros _; eauto].
    + split; [intros H; left; exact H|].
      intros [H|([Hk|Hk] & _)]; [exact H|contradiction|contradiction].
  - destruct (Hfar ltac:(lra)) as [Hfa Hfb].
    destruct (decide (k = j)) as [->|Hkj]; [|destruct (decide (k = i)) as [->|Hki]].
    + split.
      * intros (n & Hn & Hf). left. exists b. split; [assumption|]. congruence.
      * intros [(n & Hn & Hf)|(_ & H)]; [|lra]. eexists. split; [reflexivity|].
        rewrite Hfb. congruence.
    + split.
      * intros (n & Hn & Hf). left. exists a. split; [assumption|]. congruence.
      * intros [(n & Hn & Hf)|(_ & H)]; [|lra]. eexists. split; [reflexivity|].
        rewrite Hfa. congruence.
    + split; [intros H; left; exact H|]. intros [H|(_ & H)]; [exact H|lra].
Qed.

Lemma pairs_flagged (dt : R) (ps : list (nat * nat)) (ns : list Node.t) (k : nat) :
  flagged (fold_left (pairForce dt) ps ns) k
  <-> flagged ns k
      \/ exists i j, In (i, j) ps /\ (k = i \/ k = j) /\ nearAt ns i j.
Proof.
  revert ns. induction ps as [|[i j] ps IH]; intros ns; cbn [fold_left].
  - split; [auto|]. intros [H|(i & j & [] & _)]. exact H.
  - rewrite IH, pairForce_flagged.
    assert (Hpos : Forall2 samePosition ns (pairForce dt ns (i, j))).
    { apply pairForce_rel.
      - intros a. split; reflexivity.
      - apply pairInteraction_position. }
    split.
    + intros [[H|(Hk & Hn)]|(i' & j' & Hin & Hk & Hn)].
      * left. exact H.
      * right. exists i, j. split; [left; reflexivity|]. auto.
      * right. exists i', j'. split; [right; exact Hin|]. split; [exact Hk|].
        apply (nearAt_samePosition _ _ _ _ Hpos). exact Hn.
    + intros [H|(i' & j' & [Heq|Hin] & Hk & Hn)].
      * left. left. exact H.
      * inversion Heq; subst. left. right. auto.
      * right. exists i', j'. split; [exact Hin|]. split; [exact Hk|].
        apply (nearAt_samePosition _ _ _ _ Hpos). exact Hn.
Qed.

Lemma forcePass_flagged (dt : R) (ns : list Node.t) (k : nat) :
  flagged (forcePass dt ns) k <-> flagged ns k \/ hasNeighbour ns k.
Proof.
  unfold forcePass. rewrite pairs_flagged. split.
  - intros [H|(i & j & Hin & Hk & a & b & Ha & Hb & Hn)]; [left; exact H|].
    right. apply in_indexPairs in Hin. destruct Hk as [->| ->].
    + exists j, a, b. split; [lia|]. auto.
    + exists i, b, a. split; [lia|]. split; [assumption|]. split; [assumption|].
      apply near_sym, Hn.
  - intros [H|(j & a & b & Hne & Ha & Hb & Hn)]; [left; exact H|].
    right. apply lookup_lt_Some in Ha as Hk. apply lookup_lt_Some in Hb as Hj.
    destruct (Nat.lt_ge_cases k j) as [Hlt|Hge].
    + exists k, j. split; [apply in_indexPairs; lia|]. split; [auto|].
      exists a, b. auto.
    + exists j, k. split; [apply in_indexPairs; lia|]. split; [auto|].
      exists b, a. split; [assumption|]. split; [assumption|]. apply near_sym, Hn.
Qed.

Lemma flagged_map (ns ms : list Node.t) (k : nat) :
  map Node.inConstellation ns = map Node.inConstellation ms ->
  flagged ns k -> flagged ms k.
Proof.
  intros Heq (n & Hn & Hf).
  assert (H : map Node.inConstellation ms !! k = Some true).
  { rewrite <- Heq, lookup_map, Hn. simpl. congruence. }
  rewrite lookup_map in H. destruct (ms !! k) as [m|] eqn:Hm; [|discriminate].
  exists m. split; [exact Hm|]. simpl in H. congruence.
Qed.

Lemma reset_samePosition (ns : list Node.t) :
  Forall2 samePosition ns (map (Node.set_inConstellation false) ns).
Proof.
  induction ns as [|n ns IH]; simpl; constructor; [|exact IH].
  destruct n. split; reflexivity.
Qed.

(** X8.  After a step, the node at index [k] has its constellation flag
    set exactly when, at the positions before the step, some other node
    lies at a distance [d] with [d + 1e-6 < 120].  Flags from earlier
    frames play no part. *)
Theorem constellation_flag_iff_neighbour (host : Host) (dt : R) (s : STATE.t)
        (w : World) (k : nat) :
  flagged (STATE.nodes (fst (step host dt s w))) k
  <-> hasNeighbour (STATE.nodes s) k.
Proof.
  destruct (nodes_empty_dec s) as [Hn|Hn].
  { rewrite step_empty by assumption. simpl. rewrite Hn. split.
    - intros (n & H & _). discriminate.
    - intros (j & a & b & _ & H & _). discriminate. }
  pose proof (step_flags host dt s w Hn) as Hflags.
  set (reset := map (Node.set_inConstellation false) (STATE.nodes s)) in *.
  assert (Hfp : flagged (STATE.nodes (fst (step host dt s w))) k
                <-> flagged (forcePass dt reset) k).
  { split; apply flagged_map; congruence. }
  rewrite Hfp, forcePass_flagged.
  assert (Hpos : Forall2 samePosition (STATE.nodes s) reset).
  { apply reset_samePosition. }
  assert (Hclear : ~ flagged reset k).
  { intros (n & Hl & Hf). unfold reset in Hl. rewrite lookup_map in Hl.
    destruct (STATE.nodes s !! k) as [m|]; [|discriminate].
    simpl in Hl. inversion Hl; subst. destruct m. discriminate. }
  assert (Hnb : forall ns ms, Forall2 samePosition ns ms ->
                              hasNeighbour ns k -> hasNeighbour ms k).
  { intros ns ms H (j & a & b & Hne & Ha & Hb & Hnear).
    destruct (proj1 (nearAt_samePosition ns ms k j H)) as (a' & b' & Ha' & Hb' & Hn').
    - exists a, b. auto.
    - exists j, a', b'. auto. }
  split.
  - intros [H|H]; [contradiction|].
    apply (Hnb reset (STATE.nodes s)); [|exact H].
    eapply Forall2_flip, Forall2_impl; [exact Hpos|].
    intros a b [H1 H2]. split; congruence.
  - intros H. right. apply (Hnb (STATE.nodes s) reset Hpos H).
Qed.

(** X9.  The pair loop applies no force to a pair whose distance [d]
    (with the [1e-6] added) lies in the gap [[24, 48]] between repulsion and
    attraction, where it only sets the two constellation flags, nor to a
    pair with [d >= 400], which it leaves exactly as it was. *)
Theorem pairInteraction_no_force (dt : R) (a b : Node.t) :
  ((PHYS.repulsionDistance <= distance a b + 1e-6 <= PHYS.minLinkDistance)%R ->
   pairInteraction dt a b
   = (Node.set_inConstellation true a, Node.set_inConstellation true b))
  /\ ((PHYS.maxLinkDistance * 1.25 <= distance a b + 1e-6)%R ->
      pairInteraction dt a b = (a, b)).
Proof.
  unfold pairInteraction, distance, Math.sqrt. phys. destruct a, b. simpl.
  split; intros H; wrap_cases; try reflexivity; exfalso; lra.
Qed.

(** X10.  When the four velocity components of a pair are numbers, the
    pair loop conserves the momentum of the pair: the mass-weighted sums of
    the [vx] and of the [vy] are the same before and after, whatever the
    distance and [dt]. *)
Theorem pairInteraction_conserves_momentum (dt : R) (a b : Node.t)
        (pa qa pb qb : R) :
  Node.vx a = JS.num pa -> Node.vy a = JS.num qa ->
  Node.vx b = JS.num pb -> Node.vy b = JS.num qb ->
  exists pa' qa' pb' qb',
    Node.vx (fst (pairInteraction dt a b)) = JS.num pa'
    /\ Node.vy (fst (pairInteraction dt a b)) = JS.num qa'
    /\ Node.vx (snd (pairInteraction dt a b)) = JS.num pb'
    /\ Node.vy (snd (pairInteraction dt a b)) = JS.num qb'
    /\ (Node.mass a * pa' + Node.mass b * pb'
        = Node.mass a * pa + Node.mass b * pb)%R
    /\ (Node.mass a * qa' + Node.mass b * qb'
        = Node.mass a * qa + Node.mass b * qb)%R.
Proof.
  unfold pairInteraction. destruct a, b. simpl. intros -> -> -> ->.
  wrap_cases; do 4 eexists;
    (split; [reflexivity|]); (split; [reflexivity|]);
    (split; [reflexivity|]); (split; [reflexivity|]); split; ring.
Qed.

Lemma pairInteraction_conserves_momentum_witness :
  exists pa' qa' pb' qb',
    Node.vx (fst (pairInteraction 1 (withVelocity (JS.num 0) (JS.num 0) (steadyNode 0 0))
                                  (withVelocity (JS.num 1) (JS.num 2) (steadyNode 100 0))))
    = JS.num pa'
    /\ Node.vy (fst (pairInteraction 1 (withVelocity (JS.num 0) (JS.num 0) (steadyNode 0 0))
                                     (withVelocity (JS.num 1) (JS.num 2) (steadyNode 100 0))))
       = JS.num qa'
    /\ Node.vx (snd (pairInteraction 1 (withVelocity (JS.num 0) (JS.num 0) (steadyNode 0 0))
                                     (withVelocity (JS.num 1) (JS.num 2) (steadyNode 100 0))))
       = JS.num pb'
    /\ Node.vy (snd (pairInteraction 1 (withVelocity (JS.num 0) (JS.num 0) (steadyNode 0 0))
                                     (withVelocity (JS.num 1) (JS.num 2) (steadyNode 100 0))))
       = JS.num qb'
    /\ (Node.mass (withVelocity (JS.num 0) (JS.num 0) (steadyNode 0 0)) * pa'
        + Node.mass (withVelocity (JS.num 1) (JS.num 2) (steadyNode 100 0)) * pb'
        = Node.mass (withVelocity (JS.num 0) (JS.num 0) (steadyNode 0 0)) * 0
          + Node.mass (withVelocity (JS.num 1) (JS.num 2) (steadyNode 100 0)) * 1)%R
    /\ (Node.mass (withVelocity (JS.num 0) (JS.num 0) (steadyNode 0 0)) * qa'
        + Node.mass (withVelocity (JS.num 1) (JS.num 2) (steadyNode 100 0)) * qb'
        = Node.mass (withVelocity (JS.num 0) (JS.num 0) (steadyNode 0 0)) * 0
          + Node.mass (withVelocity (JS.num 1) (JS.num 2) (steadyNode 100 0)) * 2)%R.
Proof.
  apply (pairInteraction_conserves_momentum 1
           (withVelocity (JS.num 0) (JS.num 0) (steadyNode 0 0))
           (withVelocity (JS.num 1) (JS.num 2) (steadyNode 100 0)) 0 0 1 2);
    reflexivity.
Defined.

(** ** Calls to the host *)

Lemma rotate_world (host : Host) (dt : R) (n : Node.t) (w : World) :
  snd (rotate host dt n w) = mkWorld (S (randoms w)) (nows w).
Proof. reflexivity. Qed.

Lemma softWrap_world (host : Host) (s : STATE.t) (n : Node.t) (w : World) :
  nows (snd (softWrap host s n w)) = nows w
  /\ randoms w <= randoms (snd (softWrap host s n w)) <= randoms w + 2.
Proof.
  block n; simpl in *; try (exfalso; lra); lia.
Qed.

Lemma stepNode_world (host : Host) (dt : R) (s : STATE.t) (n : Node.t)
      (w : World) :
  nows (snd (stepNode host dt s n w)) = nows w + 2
  /\ randoms w + 1 <= randoms (snd (stepNode host dt s n w)) <= randoms w + 3.
Proof.
  remember (stepNode host dt s n w) as r eqn:Hr0.
  unfold stepNode, bind in Hr0. unfold performance_now in Hr0.
  set (m := jitter _ _ _ _) in Hr0.
  pose proof (rotate_world host dt m (mkWorld (randoms w) (S (nows w)))) as Hr.
  destruct (rotate host dt m _) as [m1 w1]. simpl in Hr. subst w1.
  pose proof (softWrap_world host s m1 (mkWorld (S (randoms w)) (S (nows w)))) as Hs.
  destruct (softWrap host s m1 _) as [m2 w2]. subst r.
  unfold recordTrail, bind, ret, performance_now. simpl in *. lia.
Qed.

Lemma forEach_world {A} (f : A -> M A) (lo hi c : nat) :
  (forall a w, nows (snd (f a w)) = nows w + c
               /\ randoms w + lo <= randoms (snd (f a w)) <= randoms w + hi) ->
  forall l w,
    nows (snd (forEach f l w)) = nows w + c * length l
    /\ randoms w + lo * length l <= randoms (snd (forEach f l w))
       <= randoms w + hi * length l.
Proof.
  intros Hf. induction l as [|a l IH]; intros w; simpl.
  - lia.
  - unfold bind, ret. specialize (Hf a w). destruct (f a w) as [a' w1].
    specialize (IH w1). destruct (forEach f l w1) as [l' w2]. simpl in *. lia.
Qed.

(** X11.  A step over [n] nodes reads the clock exactly [2 n] times and
    draws at least [n] and at most [3 n] random numbers: per node one for
    the rotation and at most one for each axis of the wrap.  The force
    pass and the link rebuild use neither. *)
Theorem step_host_calls (host : Host) (dt : R) (s : STATE.t) (w : World) :
  let n := length (STATE.nodes s) in
  let w' := snd (step host dt s w) in
  nows w' = nows w + 2 * n
  /\ randoms w + n <= randoms w' <= randoms w + 3 * n.
Proof.
  cbn zeta. destruct (nodes_empty_dec s) as [Hn|Hn].
  - rewrite step_empty by assumption. rewrite Hn. simpl. lia.
  - rewrite step_nonempty by assumption. cbn [snd].
    pose proof (forEach_world (stepNode host dt s) 1 3 2
                  (stepNode_world host dt s)
                  (forcePass dt (map (Node.set_inConstellation false) (STATE.nodes s)))
                  w) as H.
    rewrite forcePass_length, length_map in H. lia.
Qed.

(** ** Order and number of the links *)

Lemma StronglySorted_app_In {A} (R : A -> A -> Prop) (l1 l2 : list A) :
  StronglySorted R l1 -> StronglySorted R l2 ->
  (forall x y, In x l1 -> In y l2 -> R x y) ->
  StronglySorted R (l1 ++ l2).
Proof.
  intros H1 H2 H. induction H1 as [|a l1 Hs IH Ha]; simpl; [exact H2|].
  constructor.
  - apply IH. intros x y Hx Hy. apply H; [right; exact Hx|exact Hy].
  - apply Forall_app. split; [exact Ha|].
    apply Forall_forall. intros y Hy. apply list_elem_of_In in Hy.
    apply H; [left; reflexivity|exact Hy].
Qed.

Lemma StronglySorted_sublist {A} (R : A -> A -> Prop) (l1 l2 : list A) :
  sublist l1 l2 -> StronglySorted R l2 -> StronglySorted R l1.
Proof.
  induction 1 as [|x l1 l2 Hsub IH|x l1 l2 Hsub IH]; intros Hs.
  - constructor.
  - inversion Hs as [|? ? Hs' Hx]; subst. constructor; [apply IH, Hs'|].
    apply Forall_forall. intros y Hy.
    apply (proj1 (Forall_forall _ _) Hx). eapply elem_of_sublist; eassumption.
  - inversion Hs; subst. auto.
Qed.

Lemma seq_sorted (a n : nat) : StronglySorted lt (seq a n).
Proof.
  revert a. induction n as [|n IH]; intros a; simpl; constructor; [apply IH|].
  apply Forall_forall. intros j Hj. apply list_elem_of_In, in_seq in Hj. lia.
Qed.

Lemma indexPairs_sorted (n : nat) : StronglySorted pairLt (indexPairs n).
Proof.
  unfold indexPairs.
  assert (Hblock : forall i k a,
             StronglySorted pairLt (map (fun j => (i, j)) (seq a k))).
  { intros i. induction k as [|k IH]; intros a; simpl; constructor; [apply IH|].
    apply Forall_forall. intros [i' j] Hin. apply list_elem_of_In in Hin.
    apply in_map_iff in Hin as (m & Heq & Hm). inversion Heq; subst.
    apply in_seq in Hm. right. simpl. lia. }
  assert (Hgen : forall l, StronglySorted lt l ->
             StronglySorted pairLt
               (flat_map (fun i => map (fun j => (i, j)) (seq (S i) (n - S i))) l)).
  { induction 1 as [|i l Hs IH Hi]; simpl; [constructor|].
    apply StronglySorted_app_In; [apply Hblock|exact IH|].
    intros [a b] [c d] Hx Hy.
    apply in_map_iff in Hx as (m & Heq & _). inversion Heq; subst.
    apply in_flat_map in Hy as (i' & Hi' & Hy).
    apply in_map_iff in Hy as (m' & Heq' & _). inversion Heq'; subst.
    left. simpl. apply (proj1 (Forall_forall _ _) Hi), list_elem_of_In, Hi'. }
  apply Hgen, seq_sorted.
Qed.

Lemma indexPairs_length (n : nat) : 2 * length (indexPairs n) = n * (n - 1).
Proof.
  unfold indexPairs.
  assert (Hgen : forall m, m <= n ->
             2 * length (flat_map (fun i => map (fun j => (i, j)) (seq (S i) (n - S i)))
                                  (seq (n - m) m))
             = m * (m - 1)).
  { induction m as [|m IH]; intros Hm; [reflexivity|].
    replace (seq (n - S m) (S m)) with ((n - S m) :: seq (n - m) m)
      by (simpl; f_equal; f_equal; lia).
    cbn [flat_map]. rewrite length_app, length_map, length_seq.
    specialize (IH ltac:(lia)). nia. }
  specialize (Hgen n (Nat.le_refl n)). rewrite Nat.sub_diag in Hgen. exact Hgen.
Qed.

Lemma buildLinks_sublist (nodes : list Node.t) (ps : list (nat * nat)) :
  sublist (map linkPair (flat_map (linkOf nodes) ps)) ps.
Proof.
  induction ps as [|[i j] ps IH]; cbn [flat_map]; [constructor|].
  rewrite map_app.
  assert (H : map linkPair (linkOf nodes (i, j)) = []
              \/ map linkPair (linkOf nodes (i, j)) = [(i, j)]).
  { unfold linkOf. destruct (nodes !! i); [|left; reflexivity].
    destruct (nodes !! j); [|left; reflexivity].
    destruct (Rlt_dec _ _); [right|left]; reflexivity. }
  destruct H as [-> | ->]; simpl; [apply sublist_cons|apply sublist_skip]; exact IH.
Qed.

(** X12.  The link rebuild emits the links in the order of its double
    loop, strictly increasing in [(i, j)] read lexicographically, and over
    [n] nodes it emits at most [n (n - 1) / 2] of them. *)
Theorem links_sorted_and_bounded (nodes : list Node.t) :
  StronglySorted pairLt (map linkPair (buildLinks nodes))
  /\ 2 * length (buildLinks nodes) <= length nodes * (length nodes - 1).
Proof.
  pose proof (buildLinks_sublist nodes (indexPairs (length nodes))) as Hsub.
  split.
  - eapply StronglySorted_sublist; [exact Hsub|apply indexPairs_sorted].
  - apply sublist_length in Hsub. rewrite length_map in Hsub.
    rewrite <- indexPairs_length. unfold buildLinks. lia.
Qed.

(** ** Where new nodes are placed *)

Lemma rand_between (host : Host) (a b : R) (w : World) :
  randomInUnitInterval host -> (a <= b)%R ->
  (a <= fst (rand host a b w) <= b)%R.
Proof.
  intros Hr Hab. unfold rand, bind, ret, Math_random. simpl.
  pose proof (Hr (randoms w)). nra.
Qed.

Lemma newNode_centres (host : Host) (text : JS.string) (x y : R) (w : World) :
  randomInUnitInterval host ->
  let n := fst (newNode host text x y w) in
  (Rabs (Node.orbitCenterX n - Node.x n) <= 200)%R
  /\ (Rabs (Node.orbitCenterY n - Node.y n) <= 200)%R
  /\ (Rabs (Node.secondaryCenterX n - Node.orbitCenterX n) <= 80)%R
  /\ (Rabs (Node.secondaryCenterY n - Node.orbitCenterY n) <= 80)%R.
Proof.
  intros Hr. simpl.
  repeat match goal with
         | |- context [random_at host ?k] =>
             lazymatch goal with
             | H : (0 <= random_at host k < 1)%R |- _ => fail
             | _ => pose proof (Hr k)
             end
         end.
  repeat split; apply Rabs_le; lra.
Qed.

(** X13.  With [Math.random()] in [[0, 1)] and a canvas of non-negative
    size, a submitted word that is not blank appears in the middle of the
    canvas: its node is placed with [x] between 30% and 70% of the width and
    [y] between 30% and 70% of the height, its orbit centre within 200 of
    its position on each axis, and its secondary centre within 80 of the
    orbit centre on each axis. *)
Theorem onSubmit_places_centrally (host : Host) (value : JS.string)
        (s : STATE.t) (w : World) :
  randomInUnitInterval host ->
  (0 <= STATE.width s)%R -> (0 <= STATE.height s)%R ->
  forallb JS.isWhiteSpace value = false ->
  exists n,
    STATE.nodes (fst (fst (onSubmit host value s w))) = STATE.nodes s ++ [n]
    /\ (STATE.width s * 0.3 <= Node.x n <= STATE.width s * 0.7)%R
    /\ (STATE.height s * 0.3 <= Node.y n <= STATE.height s * 0.7)%R
    /\ (Rabs (Node.orbitCenterX n - Node.x n) <= 200)%R
    /\ (Rabs (Node.orbitCenterY n - Node.y n) <= 200)%R
    /\ (Rabs (Node.secondaryCenterX n - Node.orbitCenterX n) <= 80)%R
    /\ (Rabs (Node.secondaryCenterY n - Node.orbitCenterY n) <= 80)%R.
Proof.
  intros Hr Hw Hh Hws. unfold onSubmit.
  assert (Hor : JS.or value [] = value) by (destruct value; reflexivity).
  rewrite Hor.
  assert (Hne : JS.trim value <> []).
  { intros H. apply trim_nil in H. congruence. }
  destruct (JS.trim value) as [|c t] eqn:Ht; [contradiction|].
  cbn [JS.truthy negb]. unfold createNode, bind, ret.
  pose proof (rand_between host (STATE.width s * 0.3) (STATE.width s * 0.7) w Hr
                ltac:(lra)) as Hx.
  destruct (rand host (STATE.width s * 0.3) (STATE.width s * 0.7) w) as [x w1].
  pose proof (rand_between host (STATE.height s * 0.3) (STATE.height s * 0.7) w1 Hr
                ltac:(lra)) as Hy.
  destruct (rand host (STATE.height s * 0.3) (STATE.height s * 0.7) w1) as [y w2].
  cbn [fst] in Hx, Hy.
  pose proof (newNode_centres host (c :: t) x y w2 Hr) as Hc.
  pose proof (newNode_fields host (c :: t) x y w2) as Hf.
  cbn zeta in Hc, Hf. destruct Hf as (_ & Hnx & Hny & _).
  cbv beta iota.
  destruct (newNode host (c :: t) x y w2) as [n w3]. cbn [fst] in *.
  exists n. cbn [STATE.nodes STATE.set_nodes].
  rewrite Hnx, Hny in *. tauto.
Qed.

Lemma onSubmit_places_centrally_witness :
  exists n,
    STATE.nodes (fst (fst (onSubmit steadyHost [104%N; 105%N] (canvasWith []) freshWorld)))
    = STATE.nodes (canvasWith []) ++ [n]
    /\ (STATE.width (canvasWith []) * 0.3 <= Node.x n
        <= STATE.width (canvasWith []) * 0.7)%R
    /\ (STATE.height (canvasWith []) * 0.3 <= Node.y n
        <= STATE.height (canvasWith []) * 0.7)%R
    /\ (Rabs (Node.orbitCenterX n - Node.x n) <= 200)%R
    /\ (Rabs (Node.orbitCenterY n - Node.y n) <= 200)%R
    /\ (Rabs (Node.secondaryCenterX n - Node.orbitCenterX n) <= 80)%R
    /\ (Rabs (Node.secondaryCenterY n - Node.orbitCenterY n) <= 80)%R.
Proof.
  apply (onSubmit_places_centrally steadyHost [104%N; 105%N] (canvasWith [])
           freshWorld steadyHost_random).
  - simpl. lra.
  - simpl. lra.
  - reflexivity.
Defined.

(** X14.  With [Math.random()] in [[0, 1)] and a canvas at least 160
    wide and high, [createNode] without coordinates places the node at
    least 80 inside every edge of the canvas; a coordinate that is given is
    used as it is. *)
Theorem createNode_default_position (host : Host) (text : JS.string)
        (s : STATE.t) (w : World) :
  randomInUnitInterval host ->
  (160 <= STATE.width s)%R -> (160 <= STATE.height s)%R ->
  (exists n,
      STATE.nodes (fst (createNode host text None None s w)) = STATE.nodes s ++ [n]
      /\ (80 <= Node.x n <= STATE.width s - 80)%R
      /\ (80 <= Node.y n <= STATE.height s - 80)%R)
  /\ (forall x y, exists n,
         STATE.nodes (fst (createNode host text (Some x) (Some y) s w))
         = STATE.nodes s ++ [n]
         /\ Node.x n = x /\ Node.y n = y).
Proof.
  intros Hr Hw Hh. split.
  - unfold createNode, bind, ret.
    pose proof (rand_between host 80 (STATE.width s - 80) w Hr ltac:(lra)) as Hx.
    destruct (rand host 80 (STATE.width s - 80) w) as [x w1].
    pose proof (rand_between host 80 (STATE.height s - 80) w1 Hr ltac:(lra)) as Hy.
    destruct (rand host 80 (STATE.height s - 80) w1) as [y w2].
    pose proof (newNode_fields host text x y w2) as Hf.
    cbn zeta in Hf. destruct Hf as (_ & Hnx & Hny & _).
    cbv beta iota.
    destruct (newNode host text x y w2) as [n w3]. cbn [fst] in *.
    exists n. cbn [STATE.nodes STATE.set_nodes]. rewrite Hnx, Hny. tauto.
  - intros x y. unfold createNode, bind, ret.
    pose proof (newNode_fields host text x y w) as Hf.
    cbn zeta in Hf. destruct Hf as (_ & Hnx & Hny & _).
    cbv beta iota.
    destruct (newNode host text x y w) as [n w3]. cbn [fst] in *.
    exists n. cbn [STATE.nodes STATE.set_nodes]. auto.
Qed.

Lemma createNode_default_position_witness :
  (exists n,
      STATE.nodes (fst (createNode steadyHost [104%N] None None (canvasWith []) freshWorld))
      = STATE.nodes (canvasWith []) ++ [n]
      /\ (80 <= Node.x n <= STATE.width (canvasWith []) - 80)%R
      /\ (80 <= Node.y n <= STATE.height (canvasWith []) - 80)%R)
  /\ (forall x y, exists n,
         STATE.nodes (fst (createNode steadyHost [104%N] (Some x) (Some y)
                                      (canvasWith []) freshWorld))
         = STATE.nodes (canvasWith []) ++ [n]
         /\ Node.x n = x /\ Node.y n = y).
Proof.
  apply (createNode_default_position steadyHost [104%N] (canvasWith []) freshWorld
           steadyHost_random).
  - simpl. lra.
  - simpl. lra.
Defined.

(** ** The motion blocks of the orbital pass *)

Lemma noise2_range (s : STATE.t) (x y : R) : (0 <= noise2 s x y < 1)%R.
Proof.
  unfold noise2, Math.floor.
  set (v := (Math.sin _ * _)%R).
  destruct (base_fp v) as [H0 H1]. unfold frac_part in H0, H1. lra.
Qed.

(** X15.  For [dt >= 0] the noise blocks move a node little: the jitter
    displaces [x] and [y] by at most [0.15 dt] each, and the drift
    displaces each coordinate of the two orbit centres by at most
    [0.025 dt]. *)
Theorem noise_displacement_bounded (dt time : R) (s : STATE.t) (n : Node.t) :
  (0 <= dt)%R ->
  (Rabs (Node.x (jitter dt time s n) - Node.x n) <= 0.15 * dt)%R
  /\ (Rabs (Node.y (jitter dt time s n) - Node.y n) <= 0.15 * dt)%R
  /\ (Rabs (Node.orbitCenterX (driftCenters dt time s n) - Node.orbitCenterX n)
      <= 0.025 * dt)%R
  /\ (Rabs (Node.orbitCenterY (driftCenters dt time s n) - Node.orbitCenterY n)
      <= 0.025 * dt)%R
  /\ (Rabs (Node.secondaryCenterX (driftCenters dt time s n) - Node.secondaryCenterX n)
      <= 0.025 * dt)%R
  /\ (Rabs (Node.secondaryCenterY (driftCenters dt time s n) - Node.secondaryCenterY n)
      <= 0.025 * dt)%R.
Proof.
  intros Hdt. destruct n. unfold jitter, driftCenters. simpl.
  unfold PHYS.noiseStrength, PHYS.centerDrift.
  repeat match goal with
         | |- context [noise2 s ?a ?b] =>
             lazymatch goal with
             | H : (0 <= noise2 s a b < 1)%R |- _ => fail
             | _ => pose proof (noise2_range s a b)
             end
         end.
  repeat split; apply Rabs_le; nra.
Qed.

Lemma noise_displacement_bounded_witness :
  (Rabs (Node.x (jitter 0.016 0 (canvasWith []) (steadyNode 0 0))
         - Node.x (steadyNode 0 0)) <= 0.15 * 0.016)%R.
Proof.
  apply (noise_displacement_bounded 0.016 0 (canvasWith []) (steadyNode 0 0)). lra.
Defined.

(** X16.  The seek block moves a node the fraction [2 dt] of the way to
    its orbit target, which it leaves where it was: the new position is
    [lerp] of the old one and the target at [2 dt], and for
    [0 <= dt <= 0.5] it lies between the two, so that the node does not
    overshoot. *)
Theorem seekTarget_no_overshoot (dt : R) (n : Node.t) :
  (0 <= dt <= 0.5)%R ->
  let tx := fst (orbitTarget n) in
  let ty := snd (orbitTarget n) in
  Node.x (seekTarget dt n) = lerp (Node.x n) tx (2 * dt)
  /\ Node.y (seekTarget dt n) = lerp (Node.y n) ty (2 * dt)
  /\ orbitTarget (seekTarget dt n) = orbitTarget n
  /\ (Rmin (Node.x n) tx <= Node.x (seekTarget dt n) <= Rmax (Node.x n) tx)%R
  /\ (Rmin (Node.y n) ty <= Node.y (seekTarget dt n) <= Rmax (Node.y n) ty)%R.
Proof.
  intros Hdt. destruct n. unfold seekTarget, orbitTarget, lerp. simpl.
  set (tx := (_ * 0.7 + _ * (1 - 0.7))%R).
  set (ty := (_ * 0.7 + _ * (1 - 0.7))%R).
  split; [lra|]. split; [lra|]. split; [reflexivity|].
  split; unfold Rmin, Rmax; destruct (Rle_dec _ _); nra.
Qed.

Lemma seekTarget_no_overshoot_witness :
  Node.x (seekTarget 0.016 (steadyNode 0 0))
  = lerp (Node.x (steadyNode 0 0)) (fst (orbitTarget (steadyNode 0 0))) (2 * 0.016).
Proof.
  apply (seekTarget_no_overshoot 0.016 (steadyNode 0 0)). lra.
Defined.

(** ** The canvas state over the life of the page *)

Lemma handle_canvas (host : Host) (e : Event) (s : STATE.t) (w : World) :
  (STATE.width (fst (handle host e s w)), STATE.height (fst (handle host e s w)))
  = lastResize (STATE.width s, STATE.height s) [e]
  /\ STATE.lastTime (fst (handle host e s w)) = lastFrame (STATE.lastTime s) [e].
Proof.
  destruct e as [value|text x y|t|iw ih]; simpl.
  - unfold onSubmit, bind, ret.
    destruct (negb (JS.truthy (JS.trim (JS.or value [])))); [split; reflexivity|].
    destruct (rand host _ _ w) as [x w1]. destruct (rand host _ _ w1) as [y w2].
    destruct (createNode_appends host (JS.trim (JS.or value [])) (Some x) (Some y) s w2)
      as (x0 & y0 & w0 & Hc & _).
    destruct (createNode host _ _ _ s w2) as [s' w3]. cbn [fst] in *. subst s'.
    split; reflexivity.
  - destruct (createNode_appends host text x y s w) as (x0 & y0 & w0 & Hc & _).
    rewrite Hc. split; reflexivity.
  - destruct (frame_dt host t s w) as (dt & _ & Hf). rewrite Hf.
    destruct (step_frame host dt (STATE.set_lastTime t s) w) as (_ & Hw & Hh & Ht & _).
    rewrite Hw, Hh, Ht. split; reflexivity.
  - split; reflexivity.
Qed.

(** ** Links stay up to date *)

Lemma buildLinks_fresh (nodes : list Node.t) :
  Forall (linkFresh nodes) (buildLinks nodes).
Proof.
  apply Forall_forall. intros l Hl. apply list_elem_of_In in Hl.
  apply in_buildLinks in Hl as (a & b & Hlt & Ha & Hb & Hd & Hlt').
  exists a, b. auto.
Qed.

Lemma handle_links_fresh (host : Host) (e : Event) (s : STATE.t) (w : World) :
  Forall (linkFresh (STATE.nodes s)) (STATE.links s) ->
  Forall (linkFresh (STATE.nodes (fst (handle host e s w))))
         (STATE.links (fst (handle host e s w))).
Proof.
  intros Hs. destruct (handle_appends host e s w) as [[t ->]|[Hl [new Hn]]].
  - simpl. unfold frame.
    match goal with |- context [step host ?dt ?s' w] =>
      destruct (step_links host dt s' w) as [[_ ->]| ->]
    end.
    + exact Hs.
    + apply buildLinks_fresh.
  - rewrite Hl, Hn. eapply Forall_impl; [exact Hs|].
    intros l (a & b & Ha & Hb & H). exists a, b.
    split; [apply lookup_app_l_Some, Ha|]. split; [apply lookup_app_l_Some, Hb|].
    exact H.
Qed.

Lemma run_links_fresh (host : Host) (es : list Event) (s : STATE.t) (w : World) :
  Forall (linkFresh (STATE.nodes s)) (STATE.links s) ->
  Forall (linkFresh (STATE.nodes (fst (run host es s w))))
         (STATE.links (fst (run host es s w))).
Proof.
  revert s w. induction es as [|e es IH]; intros s w Hs; simpl; [assumption|].
  unfold bind. pose proof (handle_links_fresh host e s w Hs) as H.
  destruct (handle host e s w) as [s' w']. apply IH, H.
Qed.

Lemma page_links_fresh (host : Host) (innerWidth innerHeight : R)
      (es : list Event) (w : World) :
  Forall (linkFresh (STATE.nodes (fst (page host innerWidth innerHeight es w))))
         (STATE.links (fst (page host innerWidth innerHeight es w))).
Proof.
  unfold page, bind, init, ret, Math_random.
  apply run_links_fresh. constructor.
Qed.

(** ** Drawing never fails on the page *)

Lemma andThen_completes (d1 d2 : Draw) :
  snd (andThen d1 d2) = snd d1 && snd d2.
Proof. unfold andThen. destruct d1 as [c [|]]; reflexivity. Qed.

Lemma forDraw_completes {A} (f : A -> Draw) (l : list A) :
  (forall a, In a l -> snd (f a) = true) -> snd (forDraw f l) = true.
Proof.
  induction l as [|a l IH]; intros H; simpl; [reflexivity|].
  rewrite andThen_completes, (H a), IH; auto.
  - intros b Hb. apply H. right. exact Hb.
  - left. reflexivity.
Qed.

Lemma forDraw_commands {A} (f : A -> Draw) (l : list A) :
  (forall a, In a l -> snd (f a) = true) ->
  fst (forDraw f l) = flat_map (fun a => fst (f a)) l.
Proof.
  induction l as [|a l IH]; intros H; simpl; [reflexivity|].
  unfold andThen. rewrite (H a) by (left; reflexivity). simpl.
  rewrite IH; [reflexivity|]. intros b Hb. apply H. right. exact Hb.
Qed.

Lemma drawLink_completes (time : R) (s : STATE.t) (L : Link.t) :
  linkFresh (STATE.nodes s) L -> snd (drawLink time s L) = true.
Proof.
  intros (a & b & Ha & Hb & _). unfold drawLink. rewrite Ha, Hb. reflexivity.
Qed.

Lemma trailSegment_completes (n : Node.t) (i : nat) :
  1 <= i < length (Node.trail n) -> snd (trailSegment n i) = true.
Proof.
  intros Hi. unfold trailSegment.
  destruct (lookup_lt_is_Some_2 (Node.trail n) (i - 1) ltac:(lia)) as [p0 ->].
  destruct (lookup_lt_is_Some_2 (Node.trail n) i ltac:(lia)) as [p1 ->].
  reflexivity.
Qed.

Lemma drawTrail_completes (n : Node.t) :
  forall i, In i (seq 1 (length (Node.trail n) - 1)) ->
            snd (trailSegment n i) = true.
Proof.
  intros i Hi. apply in_seq in Hi. apply trailSegment_completes. lia.
Qed.

Lemma drawNode_completes (n : Node.t) : snd (drawNode n) = true.
Proof.
  unfold drawNode. rewrite andThen_completes.
  destruct (1 <? length (Node.trail n)); [|reflexivity].
  rewrite forDraw_completes; [reflexivity|apply drawTrail_completes].
Qed.

(** X17.  Drawing never reads an object that is not there.  [drawNodes]
    returns on every state: the trail loop reads inside the trail only.
    [drawLinks] returns on every state whose link records are up to date,
    and in every state the page reaches a whole [frame] returns, so that
    the next frame is requested and the animation goes on. *)
Theorem frame_draw_completes (host : Host) (innerWidth innerHeight : R)
        (es : list Event) (w : World) (t : R) :
  let r := page host innerWidth innerHeight es w in
  snd (frameDraw host t (fst r) (snd r)) = true
  /\ (forall time s, snd (drawNodes time s) = true)
  /\ (forall time s,
         Forall (linkFresh (STATE.nodes s)) (STATE.links s) ->
         snd (drawLinks time s) = true).
Proof.
  cbn zeta.
  assert (Hn : forall time s, snd (drawNodes time s) = true).
  { intros time s. apply forDraw_completes. intros n _. apply drawNode_completes. }
  assert (Hl : forall time s,
             Forall (linkFresh (STATE.nodes s)) (STATE.links s) ->
             snd (drawLinks time s) = true).
  { intros time s H. apply forDraw_completes. intros L HL.
    apply drawLink_completes. apply (proj1 (Forall_forall _ _) H).
    apply list_elem_of_In, HL. }
  split; [|split; assumption].
  unfold frameDraw. rewrite !andThen_completes, Hn, Hl; [reflexivity|].
  apply (handle_links_fresh host (Frame t)), page_links_fresh.
Qed.

(** ** The glow never leaks *)

Lemma blurAfter_app (b : R) (c1 c2 : list Canvas.command) :
  blurAfter b (c1 ++ c2) = blurAfter (blurAfter b c1) c2.
Proof.
  revert b. induction c1 as [|c c1 IH]; intros b; [reflexivity|].
  destruct c; simpl; apply IH.
Qed.

Lemma glowDiscipline_app (b : R) (c1 c2 : list Canvas.command) :
  glowDiscipline b c1 -> glowDiscipline (blurAfter b c1) c2 ->
  glowDiscipline b (c1 ++ c2).
Proof.
  revert b. induction c1 as [|c c1 IH]; intros b H1 H2; [exact H2|].
  destruct c; simpl in *; try (apply IH; assumption);
    (split; [apply H1|apply IH; [apply H1|assumption]]).
Qed.

Lemma glowUnit_nil : glowUnit [].
Proof. split; reflexivity. Qed.

Lemma glowUnit_app (c1 c2 : list Canvas.command) :
  glowUnit c1 -> glowUnit c2 -> glowUnit (c1 ++ c2).
Proof.
  intros [H1 E1] [H2 E2]. split.
  - apply glowDiscipline_app; [exact H1|]. rewrite E1. exact H2.
  - rewrite blurAfter_app, E1. exact E2.
Qed.

Lemma glowUnit_andThen (d1 d2 : Draw) :
  glowUnit (fst d1) -> glowUnit (fst d2) -> glowUnit (fst (andThen d1 d2)).
Proof.
  intros H1 H2. unfold andThen. destruct (snd d1); [|exact H1].
  apply glowUnit_app; assumption.
Qed.

Lemma glowUnit_forDraw {A} (f : A -> Draw) (l : list A) :
  (forall a, glowUnit (fst (f a))) -> glowUnit (fst (forDraw f l)).
Proof.
  intros H. induction l as [|a l IH]; simpl; [apply glowUnit_nil|].
  apply glowUnit_andThen; [apply H|exact IH].
Qed.

Lemma glowUnit_drawLink (time : R) (s : STATE.t) (L : Link.t) :
  glowUnit (fst (drawLink time s L)).
Proof.
  unfold drawLink.
  destruct (STATE.nodes s !! Link.i L); [|apply glowUnit_nil].
  destruct (STATE.nodes s !! Link.j L); [|apply glowUnit_nil].
  unfold glowUnit. simpl. repeat split; lra.
Qed.

Lemma glowUnit_trailSegment (n : Node.t) (i : nat) :
  glowUnit (fst (trailSegment n i)).
Proof.
  unfold trailSegment.
  destruct (Node.trail n !! (i - 1)); [|apply glowUnit_nil].
  destruct (Node.trail n !! i); [|apply glowUnit_nil].
  unfold glowUnit. simpl. repeat split.
Qed.

Lemma glowUnit_drawNode (n : Node.t) : glowUnit (fst (drawNode n)).
Proof.
  unfold drawNode. apply glowUnit_andThen.
  - destruct (1 <? length (Node.trail n)); [|apply glowUnit_nil].
    apply glowUnit_forDraw, glowUnit_trailSegment.
  - unfold glowUnit. destruct (Node.inConstellation n); simpl; repeat split; lra.
Qed.

(** X18.  The glow never leaks.  Starting from a shadow blur of zero, the
    commands of a frame issue every [stroke] and every [fillRect] with the
    blur at zero and every [fill] and [fillText] with a positive blur, and
    they leave the blur at zero for the next frame, also when [drawLinks]
    ends early at a link whose node is not there. *)
Theorem frame_glow_discipline (host : Host) (t : R) (s : STATE.t) (w : World) :
  glowDiscipline 0 (fst (frameDraw host t s w))
  /\ blurAfter 0 (fst (frameDraw host t s w)) = 0%R.
Proof.
  change (glowUnit (fst (frameDraw host t s w))).
  unfold frameDraw. cbn zeta. apply glowUnit_andThen; [|apply glowUnit_andThen].
  - unfold glowUnit. simpl. repeat split.
  - apply glowUnit_forDraw, glowUnit_drawLink.
  - apply glowUnit_forDraw. intros n. apply glowUnit_drawNode.
Qed.

(** ** Labels *)

Lemma labels_app (c1 c2 : list Canvas.command) :
  labels (c1 ++ c2) = labels c1 ++ labels c2.
Proof. unfold labels. apply flat_map_app. Qed.

Lemma labels_trail (n : Node.t) (l : list nat) :
  labels (fst (forDraw (trailSegment n) l)) = [].
Proof.
  induction l as [|i l IH]; [reflexivity|]. simpl. unfold andThen.
  assert (H : labels (fst (trailSegment n i)) = []).
  { unfold trailSegment. destruct (Node.trail n !! (i - 1)); [|reflexivity].
    destruct (Node.trail n !! i); reflexivity. }
  destruct (snd (trailSegment n i)); [|exact H].
  cbn [fst]. rewrite labels_app, H, IH. reflexivity.
Qed.

Lemma labels_drawNode (n : Node.t) :
  labels (fst (drawNode n))
  = if Node.inConstellation n
    then [(Node.text n, Node.x n, (Node.y n - Node.radius n * 0.9)%R)]
    else [].
Proof.
  unfold drawNode.
  match goal with |- context [andThen ?X _] =>
    assert (Ht : labels (fst X) = [])
      by (destruct (1 <? length (Node.trail n)); [apply labels_trail|reflexivity]);
    assert (Hc : snd X = true)
      by (destruct (1 <? length (Node.trail n));
          [apply forDraw_completes, drawTrail_completes|reflexivity]);
    destruct X as [c ok]
  end.
  cbn [fst snd] in Ht, Hc. subst ok. unfold andThen. cbn [fst snd emit].
  rewrite labels_app, Ht. destruct (Node.inConstellation n); reflexivity.
Qed.

(** X19.  The labels written by [drawNodes] are those of the nodes whose
    constellation flag is set, in the order of the nodes, one each: the
    text of the node, centred at its [x] and [0.9] of its radius above its
    [y].  A node whose flag is clear gets no label. *)
Theorem labels_of_flagged_nodes (time : R) (s : STATE.t) :
  labels (fst (drawNodes time s))
  = map (fun n => (Node.text n, Node.x n, (Node.y n - Node.radius n * 0.9)%R))
        (List.filter Node.inConstellation (STATE.nodes s)).
Proof.
  unfold drawNodes.
  rewrite forDraw_commands by (intros n _; apply drawNode_completes).
  induction (STATE.nodes s) as [|n ns IH]; [reflexivity|].
  cbn [flat_map List.filter]. rewrite labels_app, labels_drawNode, IH.
  destruct (Node.inConstellation n); reflexivity.
Qed.

(** X20.  In every state the page reaches, every link record is up to
    date: the distance it stores is the present distance of its two nodes,
    and that distance is below 120.  Nodes move only in a step, which
    rebuilds the links, and a new node touches no link. *)
Theorem links_stay_fresh (host : Host) (innerWidth innerHeight : R)
        (es : list Event) (w : World) :
  let s := fst (page host innerWidth innerHeight es w) in
  Forall (fun l => exists a b,
              STATE.nodes s !! Link.i l = Some a
              /\ STATE.nodes s !! Link.j l = Some b
              /\ Link.d l = distance a b
              /\ (0 <= Link.d l < 120)%R)
         (STATE.links s).
Proof.
  cbn zeta. eapply Forall_impl; [apply page_links_fresh|].
  intros l (a & b & Ha & Hb & _ & Hd & Hlt). exists a, b.
  split; [exact Ha|]. split; [exact Hb|]. split; [exact Hd|].
  rewrite Hd. split; [apply sqrt_pos|exact Hlt].
Qed.

(** ** The geometry of a drawn link *)

Lemma bendDir_unit (v : R) :
  (orElse (Math_sign v) 1 * orElse (Math_sign v) 1 = 1)%R.
Proof.
  unfold orElse, Math_sign.
  destruct (Rlt_dec 0 v); [|destruct (Rlt_dec v 0)];
    destruct (Req_dec_T _ 0); lra.
Qed.

Lemma hypot_zero (dx dy : R) :
  Math.hypot dx dy = 0%R -> dx = 0%R /\ dy = 0%R.
Proof.
  unfold Math.hypot. intros H. apply sqrt_eq_0 in H; [|nra]. split; nra.
Qed.

Lemma hypot_square (dx dy : R) :
  (Math.hypot dx dy * Math.hypot dx dy = dx * dx + dy * dy)%R.
Proof. unfold Math.hypot. apply sqrt_sqrt. nra. Qed.

(** The offset of the control point: perpendicular to the chord, of
    length [d * |curve|]. *)
Lemma control_offset (dx dy B c : R) :
  (B * B = 1)%R ->
  let d := Math.hypot dx dy in
  let nx := ((- dy) / orElse d 1)%R in
  let ny := (dx / orElse d 1)%R in
  ((nx * B * d * c) * dx + (ny * B * d * c) * dy = 0)%R
  /\ ((nx * B * d * c) * (nx * B * d * c) + (ny * B * d * c) * (ny * B * d * c)
      = (d * c) * (d * c))%R.
Proof.
  intros HB. cbn zeta. split; [unfold Rdiv; ring|].
  pose proof (hypot_square dx dy) as Hsq.
  unfold orElse. destruct (Req_dec_T (Math.hypot dx dy) 0) as [H0|H0].
  - rewrite H0. ring.
  - set (d := Math.hypot dx dy) in *.
    replace ((- dy / d * B * d * c) * (- dy / d * B * d * c)
             + (dx / d * B * d * c) * (dx / d * B * d * c))%R
      with ((B * B) * (dx * dx + dy * dy) * (c * c))%R by (field; exact H0).
    rewrite HB, <- Hsq. ring.
Qed.

Lemma link_alpha_range (d : R) :
  (0 <= d < 120)%R ->
  (0.735 <= clamp (1 - (d - PHYS.minLinkDistance)
                       / (PHYS.maxLinkDistance - PHYS.minLinkDistance)) 0.05 0.9
   <= 0.9)%R.
Proof.
  intros Hd. unfold clamp, Math.max, Math.min, Rmin, Rmax. phys.
  replace ((d - 48) / (320 - 48))%R with ((d - 48) / 272)%R by (f_equal; lra).
  destruct (Rle_dec 0.9 _); destruct (Rle_dec 0.05 _); lra.
Qed.

Lemma link_curve_bound (d : R) :
  (0 <= d < 120)%R ->
  let curve := (PHYS.curveBend
                * Math.min 1 ((d - PHYS.minLinkDistance)
                              / (PHYS.maxLinkDistance - PHYS.minLinkDistance)))%R in
  ((d * curve) * (d * curve) <= 5.1 * 5.1)%R.
Proof.
  intros Hd. cbn zeta. unfold Math.min, Rmin, PHYS.curveBend. phys.
  replace ((d - 48) / (320 - 48))%R with ((d - 48) / 272)%R by (f_equal; lra).
  destruct (Rle_dec 1 _); [lra|].
  assert (H : (-5.1 <= d * (0.16 * ((d - 48) / 272)) <= 5.1)%R) by nra.
  nra.
Qed.

Lemma accent_offset (ang r : R) :
  ((Math.cos ang * r) * (Math.cos ang * r) + (Math.sin ang * r) * (Math.sin ang * r)
   = r * r)%R.
Proof.
  unfold Math.cos, Math.sin. pose proof (sin2_cos2 ang) as H. unfold Rsqr in H. nra.
Qed.

Lemma accent_radius (v : R) :
  (0 <= PHYS.orbitAmp * (0.5 + 0.5 * Math.sin v) <= 6)%R.
Proof.
  unfold PHYS.orbitAmp, Math.sin. pose proof (SIN_bound v). lra.
Qed.

(** X21.  A link that is up to date is drawn as two strokes of one
    quadratic curve between its nodes and one accent dot.  The opacity
    [alpha] behind all its colours lies in [[0.735, 0.9]], the hue is the
    mean of the two hues; the control point of the curve lies on the
    perpendicular bisector of the chord, at most 5.1 from the midpoint; the
    accent dot lies at most 6 from the midpoint. *)
Theorem drawLink_geometry (time : R) (s : STATE.t) (L : Link.t) :
  linkFresh (STATE.nodes s) L ->
  exists a b alpha cx cy ox oy,
    STATE.nodes s !! Link.i L = Some a
    /\ STATE.nodes s !! Link.j L = Some b
    /\ drawLink time s L
       = emit [ Canvas.strokeStyle
                  (Canvas.hsla ((Node.hue a + Node.hue b) * 0.5) 80 70 (alpha * 0.12));
                Canvas.lineWidth 3;
                Canvas.beginPath;
                Canvas.moveTo (Node.x a) (Node.y a);
                Canvas.quadraticCurveTo cx cy (Node.x b) (Node.y b);
                Canvas.stroke;
                Canvas.strokeStyle
                  (Canvas.hsla ((Node.hue a + Node.hue b) * 0.5) 90 75 (alpha * 0.7));
                Canvas.lineWidth 1.2;
                Canvas.beginPath;
                Canvas.moveTo (Node.x a) (Node.y a);
                Canvas.quadraticCurveTo cx cy (Node.x b) (Node.y b);
                Canvas.stroke;
                Canvas.fillStyle
                  (Canvas.solid
                     (Canvas.hsla ((Node.hue a + Node.hue b) * 0.5) 100 85 (alpha * 0.9)));
                Canvas.shadowColor
                  (Canvas.hsla ((Node.hue a + Node.hue b) * 0.5) 100 60 (alpha * 0.6));
                Canvas.shadowBlur 8;
                Canvas.beginPath;
                Canvas.arc ox oy 1.6 0 (Math.PI * 2);
                Canvas.fill;
                Canvas.shadowBlur 0 ]
    /\ (0.735 <= alpha <= 0.9)%R
    /\ ((cx - (Node.x a + Node.x b) * 0.5) * (Node.x b - Node.x a)
        + (cy - (Node.y a + Node.y b) * 0.5) * (Node.y b - Node.y a) = 0)%R
    /\ ((cx - (Node.x a + Node.x b) * 0.5) * (cx - (Node.x a + Node.x b) * 0.5)
        + (cy - (Node.y a + Node.y b) * 0.5) * (cy - (Node.y a + Node.y b) * 0.5)
        <= 5.1 * 5.1)%R
    /\ ((ox - (Node.x a + Node.x b) * 0.5) * (ox - (Node.x a + Node.x b) * 0.5)
        + (oy - (Node.y a + Node.y b) * 0.5) * (oy - (Node.y a + Node.y b) * 0.5)
        <= 6 * 6)%R.
Proof.
  intros (a & b & Ha & Hb & _ & _ & Hlt). exists a, b.
  unfold drawLink. rewrite Ha, Hb. cbv zeta.
  do 5 eexists. split; [reflexivity|]. split; [reflexivity|].
  split; [reflexivity|].
  assert (Hd : (0 <= Math.hypot (Node.x b - Node.x a) (Node.y b - Node.y a) < 120)%R).
  { split; [apply sqrt_pos|exact Hlt]. }
  set (dx := (Node.x b - Node.x a)%R) in *.
  set (dy := (Node.y b - Node.y a)%R) in *.
  set (mx := ((Node.x a + Node.x b) * 0.5)%R).
  set (my := ((Node.y a + Node.y b) * 0.5)%R).
  set (B := orElse (Math_sign (noise2 s (mx * 0.01) (my * 0.01) - 0.5)) 1).
  assert (HB : (B * B = 1)%R) by apply bendDir_unit.
  set (curve := (PHYS.curveBend * Math.min 1 _)%R).
  destruct (control_offset dx dy B curve HB) as [Hperp Hlen]. cbn zeta in Hperp, Hlen.
  pose proof (link_curve_bound _ Hd) as Hc. cbn zeta in Hc. fold curve in Hc.
  split; [apply link_alpha_range, Hd|].
  split; [|split].
  - rewrite <- Hperp. ring.
  - eapply Rle_trans; [|exact Hc]. rewrite <- Hlen. apply Req_le. ring.
  - match goal with |- context [(Math.cos ?g * ?r)%R] =>
      pose proof (accent_offset g r) as Ho;
      assert (Hr : (0 <= r <= 6)%R) by apply accent_radius;
      set (cr := (Math.cos g * r)%R) in *; set (sr := (Math.sin g * r)%R) in *;
      set (R0 := r) in *
    end.
    replace ((mx + cr - mx) * (mx + cr - mx) + (my + sr - my) * (my + sr - my))%R
      with (R0 * R0)%R by (rewrite <- Ho; ring).
    nra.
Qed.

Lemma steadyNode_distance_50 :
  distance (steadyNode 100 100) (steadyNode 150 100) = 50%R.
Proof.
  unfold distance.
  change (Node.x (steadyNode 150 100)) with 150%R.
  change (Node.x (steadyNode 100 100)) with 100%R.
  change (Node.y (steadyNode 150 100)) with 100%R.
  change (Node.y (steadyNode 100 100)) with 100%R.
  replace ((150 - 100) * (150 - 100) + (100 - 100) * (100 - 100))%R
    with (50 * 50)%R by ring.
  apply sqrt_square. lra.
Qed.

Lemma steadyLink_fresh :
  linkFresh (STATE.nodes (canvasWith [steadyNode 100 100; steadyNode 150 100]))
            (Link.mk 0 1 50).
Proof.
  exists (steadyNode 100 100), (steadyNode 150 100).
  split; [reflexivity|]. split; [reflexivity|]. split; [simpl; lia|].
  rewrite steadyNode_distance_50. split; [reflexivity|].
  unfold PHYS.constellationDistance. lra.
Defined.

Lemma drawLink_geometry_witness :
  linkFresh (STATE.nodes (canvasWith [steadyNode 100 100; steadyNode 150 100]))
            (Link.mk 0 1 50)
  /\ snd (drawLink 16 (canvasWith [steadyNode 100 100; steadyNode 150 100])
                   (Link.mk 0 1 50)) = true.
Proof.
  split; [exact steadyLink_fresh|].
  destruct (drawLink_geometry 16 (canvasWith [steadyNode 100 100; steadyNode 150 100])
              (Link.mk 0 1 50) steadyLink_fresh)
    as (a & b & alpha & cx & cy & ox & oy & _ & _ & -> & _).
  reflexivity.
Defined.

(** ** The trail as drawn *)

(** X22.  The trail loop draws the segment from sample [i - 1] to sample
    [i] for every [1 <= i < length], so that the trail is one connected
    polyline.  With [t = i / length], strictly between 0 and 1 and
    growing with [i], the segment has opacity [0.564 t + 0.05], line width
    [0.2 + 0.8 t] and lightness [65 - 20 t]: newer segments are more
    opaque, wider and darker, and none reaches opacity [0.614] or width
    [1]. *)
Theorem trailSegment_style (n : Node.t) (i : nat) :
  1 <= i < length (Node.trail n) ->
  exists p0 p1 t,
    Node.trail n !! (i - 1) = Some p0
    /\ Node.trail n !! i = Some p1
    /\ t = (INR i / INR (length (Node.trail n)))%R
    /\ (0 < t < 1)%R
    /\ (forall i' : nat, i < i' ->
                         (t < INR i' / INR (length (Node.trail n)))%R)
    /\ trailSegment n i
       = emit [ Canvas.strokeStyle
                  (Canvas.hsla (Node.hue n) 90 (65 - t * 20) (0.564 * t + 0.05));
                Canvas.lineWidth (0.2 + 0.8 * t);
                Canvas.beginPath;
                Canvas.moveTo (Sample.x p0) (Sample.y p0);
                Canvas.lineTo (Sample.x p1) (Sample.y p1);
                Canvas.stroke ].
Proof.
  intros Hi. unfold trailSegment.
  destruct (lookup_lt_is_Some_2 (Node.trail n) (i - 1) ltac:(lia)) as [p0 H0].
  destruct (lookup_lt_is_Some_2 (Node.trail n) i ltac:(lia)) as [p1 H1].
  rewrite H0, H1. exists p0, p1, (INR i / INR (length (Node.trail n)))%R.
  assert (Hlen : (0 < INR (length (Node.trail n)))%R) by (apply lt_0_INR; lia).
  assert (Hi0 : (0 < INR i)%R) by (apply lt_0_INR; lia).
  assert (Hil : (INR i < INR (length (Node.trail n)))%R) by (apply lt_INR; lia).
  split; [reflexivity|]. split; [reflexivity|]. split; [reflexivity|].
  split; [|split].
  - split.
    + apply Rdiv_lt_0_compat; assumption.
    + apply (Rmult_lt_reg_r (INR (length (Node.trail n)))); [assumption|].
      unfold Rdiv. rewrite Rmult_assoc, Rinv_l by lra. lra.
  - intros i' Hlt. apply lt_INR in Hlt.
    unfold Rdiv. apply Rmult_lt_compat_r; [apply Rinv_0_lt_compat|]; assumption.
  - cbv zeta. unfold lerp, PHYS.trailFade.
    set (t := (INR i / INR (length (Node.trail n)))%R).
    replace (t * 0.6 * (1 - 0.06) + 0.05)%R with (0.564 * t + 0.05)%R by lra.
    replace (0.2 + (1.0 - 0.2) * t)%R with (0.2 + 0.8 * t)%R by lra.
    reflexivity.
Qed.

Lemma trailSegment_style_witness :
  exists p0 p1 t,
    [Sample.mk 0 0 0; Sample.mk 1 1 1] !! (1 - 1) = Some p0
    /\ [Sample.mk 0 0 0; Sample.mk 1 1 1] !! 1 = Some p1
    /\ t = (INR 1 / INR 2)%R.
Proof.
  destruct (trailSegment_style
              (Node.set_trail [Sample.mk 0 0 0; Sample.mk 1 1 1] (steadyNode 0 0)) 1)
    as (p0 & p1 & t & H0 & H1 & Ht & _).
  - simpl. lia.
  - exists p0, p1, t. split; [exact H0|]. split; [exact H1|]. exact Ht.
Defined.

(** ** The backing store *)

(** X23.  The device pixel ratio used for the backing store is at most
    2; it is 1 when [window.devicePixelRatio] is missing, [NaN] or zero,
    and the ratio itself when that lies between 0 and 2.  For a window of
    non-negative width and a positive ratio the backing store is a whole
    number of pixels wide, less than one below the scaled width and at most
    twice the width; the transform scales both axes by the ratio. *)
Theorem resizeCanvas_backing (devicePixelRatio : JS.value)
        (innerWidth innerHeight : R) :
  let dpr := DPR devicePixelRatio in
  let c := resizeCanvas devicePixelRatio innerWidth innerHeight in
  (dpr <= 2)%R
  /\ (devicePixelRatio = JS.undefined \/ devicePixelRatio = JS.NaN
      \/ devicePixelRatio = JS.num 0 -> dpr = 1%R)
  /\ (forall r, devicePixelRatio = JS.num r -> (0 < r <= 2)%R -> dpr = r)
  /\ (forall r, devicePixelRatio = JS.num r -> (2 <= r)%R -> dpr = 2%R)
  /\ transform c = (dpr, 0%R, 0%R, dpr, 0%R, 0%R)
  /\ (exists k : Z, canvasWidth c = IZR k)
  /\ (innerWidth * dpr - 1 < canvasWidth c <= innerWidth * dpr)%R
  /\ (innerHeight * dpr - 1 < canvasHeight c <= innerHeight * dpr)%R
  /\ ((0 <= innerWidth)%R -> (canvasWidth c <= 2 * innerWidth)%R).
Proof.
  cbn zeta. unfold resizeCanvas. cbn [transform canvasWidth canvasHeight].
  assert (H2 : (DPR devicePixelRatio <= 2)%R).
  { unfold DPR, Math.min. apply Rmin_r. }
  split; [exact H2|].
  split; [intros [-> |[-> | ->]]; unfold DPR, Math.min, Rmin, orElse;
          try destruct (Req_dec_T 0 0); destruct (Rle_dec _ _); lra|].
  split; [intros r -> Hr; unfold DPR, Math.min, Rmin, orElse;
          destruct (Req_dec_T r 0); destruct (Rle_dec _ _); lra|].
  split; [intros r -> Hr; unfold DPR, Math.min, Rmin, orElse;
          destruct (Req_dec_T r 0); destruct (Rle_dec _ _); lra|].
  split; [reflexivity|].
  split; [eexists; reflexivity|].
  unfold Math.floor.
  pose proof (base_Int_part (innerWidth * DPR devicePixelRatio)) as [Hw1 Hw2].
  pose proof (base_Int_part (innerHeight * DPR devicePixelRatio)) as [Hh1 Hh2].
  split; [lra|]. split; [lra|]. intros Hw. nra.
Qed.

(** ** The canvas state over the life of the page *)

Lemma run_canvas (host : Host) (es : list Event) (s : STATE.t) (w : World) :
  (STATE.width (fst (run host es s w)), STATE.height (fst (run host es s w)))
  = lastResize (STATE.width s, STATE.height s) es
  /\ STATE.lastTime (fst (run host es s w)) = lastFrame (STATE.lastTime s) es
  /\ STATE.noiseSeed (fst (run host es s w)) = STATE.noiseSeed s.
Proof.
  revert s w. induction es as [|e es IH]; intros s w; [repeat split|].
  cbn [run]. unfold bind.
  destruct (handle_canvas host e s w) as [Hsz Ht].
  pose proof (handle_noiseSeed host e s w) as Hseed.
  destruct (handle host e s w) as [s' w']. cbn [fst] in *.
  destruct (IH s' w') as (IH1 & IH2 & IH3).
  rewrite IH1, IH2, IH3, Hsz, Ht, Hseed. repeat split.
Qed.

(** X24.  Over the life of the page the canvas size in [STATE] is the
    window size of the latest resize (of start-up when there was none),
    [STATE.lastTime] is the timestamp of the latest frame (zero before the
    first), and the noise seed is the one drawn at start-up, a thousand
    times the first random number. *)
Theorem page_canvas_state (host : Host) (innerWidth innerHeight : R)
        (es : list Event) (w : World) :
  let s := fst (page host innerWidth innerHeight es w) in
  (STATE.width s, STATE.height s) = lastResize (innerWidth, innerHeight) es
  /\ STATE.lastTime s = lastFrame 0 es
  /\ STATE.noiseSeed s = (random_at host (randoms w) * 1000)%R.
Proof.
  cbn zeta. unfold page, init, bind, ret, Math_random. cbv beta iota zeta.
  match goal with |- context [run host es ?s0 ?w0] =>
    destruct (run_canvas host es s0 w0) as (H1 & H2 & H3)
  end.
  rewrite H1, H2, H3. repeat split.
Qed.

(** ** Phases and angle *)

Lemma spin_motion (dt time : R) (s : STATE.t) (n : Node.t) :
  spin (driftCenters dt time s n) = spin n
  /\ spin (seekTarget dt n) = spin n
  /\ spin (jitter dt time s n) = spin n.
Proof. destruct n. repeat split. Qed.

Lemma spin_pair (dt : R) (a b : Node.t) :
  spin (fst (pairInteraction dt a b)) = spin a
  /\ spin (snd (pairInteraction dt a b)) = spin b.
Proof.
  unfold pairInteraction. destruct a, b. simpl. wrap_cases; split; reflexivity.
Qed.

Lemma advance_rotate_fields (host : Host) (dt : R) (n : Node.t) (w : World) :
  Node.orbitPhase (advancePhases dt n)
  = (Node.orbitPhase n + Node.orbitSpeed n * Node.orbitDirection n * dt)%R
  /\ Node.secondaryPhase (advancePhases dt n)
     = (Node.secondaryPhase n
        + Node.secondarySpeed n * Node.secondaryDirection n * dt)%R
  /\ Node.angle (advancePhases dt n) = Node.angle n
  /\ Node.angularVel (advancePhases dt n) = Node.angularVel n
  /\ Node.orbitPhase (fst (rotate host dt n w)) = Node.orbitPhase n
  /\ Node.secondaryPhase (fst (rotate host dt n w)) = Node.secondaryPhase n
  /\ Node.angle (fst (rotate host dt n w)) = (Node.angle n + Node.angularVel n * dt)%R.
Proof.
  destruct n. unfold advancePhases, rotate, bind, ret, rand, Math_random.
  simpl. repeat split; reflexivity.
Qed.

Lemma softWrap_angle (host : Host) (s : STATE.t) (n : Node.t) (w : World) :
  Node.angle (fst (softWrap host s n w)) = Node.angle n.
Proof. block n; reflexivity. Qed.

Lemma recordTrail_angle (host : Host) (n : Node.t) (w : World) :
  Node.angle (fst (recordTrail host n w)) = Node.angle n.
Proof. destruct n. reflexivity. Qed.

Lemma stepNode_turned (host : Host) (dt : R) (s : STATE.t) (n : Node.t)
      (w : World) :
  turned dt n (fst (stepNode host dt s n w)).
Proof.
  remember (stepNode host dt s n w) as r eqn:Hr0.
  unfold stepNode, bind in Hr0. unfold performance_now in Hr0.
  set (time := (now_at host (nows w) * 0.001)%R) in Hr0.
  set (n1 := driftCenters dt time s n) in Hr0.
  set (n2 := advancePhases dt n1) in Hr0.
  set (n3 := seekTarget dt n2) in Hr0.
  set (n4 := jitter dt time s n3) in Hr0.
  destruct (spin_motion dt time s n) as (H1 & _ & _). fold n1 in H1.
  destruct (advance_rotate_fields host dt n1 w) as (A1 & A2 & A3 & A4 & _).
  fold n2 in A1, A2, A3, A4.
  destruct (spin_motion dt time s n2) as (_ & H3 & _). fold n3 in H3.
  destruct (spin_motion dt time s n3) as (_ & _ & H4). fold n4 in H4.
  destruct (advance_rotate_fields host dt n4
              (mkWorld (randoms w) (S (nows w)))) as (_ & _ & _ & _ & R1 & R2 & R3).
  destruct (rotate host dt n4 _) as [n5 w5]. cbn [fst] in R1, R2, R3.
  destruct (softWrap_phases host s n5 w5) as [S1 S2].
  pose proof (softWrap_angle host s n5 w5) as S3.
  destruct (softWrap host s n5 w5) as [n6 w6]. cbn [fst] in S1, S2, S3.
  destruct (recordTrail_fields host n6 w6) as (_ & _ & T1 & T2).
  pose proof (recordTrail_angle host n6 w6) as T3.
  subst r. unfold turned. rewrite T1, T2, T3, S1, S2, S3, R1, R2, R3.
  unfold spin in H1, H3, H4.
  inversion H1. inversion H3. inversion H4.
  repeat split; congruence.
Qed.

(** X25.  A step turns every node for the time [dt]: each phase
    advances by its speed times its direction times [dt], and the angle by
    the angular velocity times [dt], as they were before the step.  The
    force pass, the noise and the wrap have no part in it. *)
Theorem step_turns_nodes (host : Host) (dt : R) (s : STATE.t) (w : World) :
  Forall2 (turned dt) (STATE.nodes s) (STATE.nodes (fst (step host dt s w))).
Proof.
  eapply Forall2_impl.
  - apply (step_rel host dt s (fun n m => spin m = spin n) (turned dt)).
    + reflexivity.
    + intros a b c H1 H2. congruence.
    + intros n. destruct n. reflexivity.
    + apply spin_pair.
    + apply stepNode_turned.
  - intros n m (k & Hk & (H1 & H2 & H3)). unfold spin in Hk. inversion Hk.
    unfold turned. repeat split; congruence.
Qed.

(** ** The empty page *)

(** X26.  While the page has no node it has no link, and a frame only
    records its timestamp and paints the background: it calls neither the
    clock nor the random number generator and draws the four background
    commands. *)
Theorem empty_page_frame (host : Host) (innerWidth innerHeight : R)
        (es : list Event) (w : World) :
  let s := fst (page host innerWidth innerHeight es w) in
  STATE.nodes s = [] ->
  STATE.links s = []
  /\ forall t w',
      frame host t s w' = (STATE.set_lastTime t s, w')
      /\ frameDraw host t s w' = emit (drawBackground s).
Proof.
  cbn zeta. intros Hn.
  pose proof (page_links_in_bounds host innerWidth innerHeight es w) as Hl.
  revert Hn Hl. generalize (fst (page host innerWidth innerHeight es w)).
  intros s Hn Hl.
  assert (Hlinks : STATE.links s = []).
  { destruct (STATE.links s) as [|l ls]; [reflexivity|].
    inversion Hl as [|? ? [_ H] _]; subst. rewrite Hn in H. simpl in H. lia. }
  split; [exact Hlinks|]. intros t w'.
  assert (Hf : frame host t s w' = (STATE.set_lastTime t s, w')).
  { destruct (frame_dt host t s w') as (dt & _ & ->). apply step_empty. exact Hn. }
  split; [exact Hf|].
  unfold frameDraw. cbn zeta. rewrite Hf. cbn [fst].
  unfold drawLinks, drawNodes.
  cbn [STATE.links STATE.nodes STATE.set_lastTime]. rewrite Hlinks, Hn.
  unfold andThen, emit. cbn [forDraw fst snd emit]. rewrite !app_nil_r. reflexivity.
Qed.

Lemma empty_page_frame_witness :
  STATE.nodes (fst (page steadyHost 800 600 [Resize 640 480] freshWorld)) = []
  /\ STATE.links (fst (page steadyHost 800 600 [Resize 640 480] freshWorld)) = [].
Proof.
  split; [reflexivity|].
  apply (empty_page_frame steadyHost 800 600 [Resize 640 480] freshWorld).
  reflexivity.
Defined.

(** ** Velocities on the page *)

Lemma notNumber_assign (v : JS.value) (r : R) :
  notNumber v -> notNumber (JS.add_assign v r) /\ notNumber (JS.sub_assign v r).
Proof. intros [-> | ->]; split; right; reflexivity. Qed.

(** X27.  In no state the page reaches does a node have a number for a
    velocity: [vx] and [vy] are [undefined] from the constructor until the
    first force on the node and [NaN] from then on.  Nothing assigns them
    but the [+=] and [-=] of the pair loop, which turn [undefined] into
    [NaN]. *)
Theorem velocities_never_numbers (host : Host) (innerWidth innerHeight : R)
        (es : list Event) (w : World) :
  Forall (fun n => notNumber (Node.vx n) /\ notNumber (Node.vy n))
         (STATE.nodes (fst (page host innerWidth innerHeight es w))).
Proof.
  apply page_invariant.
  - intros. split; left; reflexivity.
  - intros n. destruct n. exact (fun H => H).
  - intros dt a b. unfold pairInteraction. destruct a, b. simpl.
    wrap_cases; split; intros [Hx Hy]; try (split; assumption);
      split; first [apply notNumber_assign; assumption].
  - intros dt s n w0 _ [Hx Hy].
    destruct (stepNode_frame host dt s n w0) as (_&_&_&_&_&_&_&_&_&_&_&_& Ex & Ey).
    rewrite Ex, Ey. split; assumption.
Qed.
